(** * Bin-packing instance generation: a verified model

    This development embeds
    [jumanji/environments/combinatorial/binpack/instance_generator.py]
    and establishes the properties its specification states about it: the
    tiling invariant of the splitting engine, the capacity margin, the reset
    transform and the CSV reader and writer.

    The program is a JAX program.  Its integers are 32-bit and wrap around;
    a quotient such as [jnp.int32(i * axis_len / num_split)] is the int32
    product, divided in single-precision floating point (what JAX does with
    [/] on two int32 operands when 64-bit mode is off, its default), and
    truncated back to int32.  Both are modelled, in [Int32] and [F32]. *)

From Stdlib Require Import ZArith QArith Lia Bool DecimalString DecimalZ DecimalPos Sorted.
From stdpp Require Import base list strings.

Local Open Scope Z_scope.

(** ** 32-bit integers *)

Module Int32.

Definition min_int : Z := - 2 ^ 31.
Definition max_int : Z := 2 ^ 31 - 1.

(** Two's complement wrap-around of a mathematical integer. *)
Definition wrap (z : Z) : Z := (z + 2 ^ 31) mod 2 ^ 32 - 2 ^ 31.

Definition add (a b : Z) : Z := wrap (a + b).
Definition sub (a b : Z) : Z := wrap (a - b).
Definition mul (a b : Z) : Z := wrap (a * b).

Definition in_range (z : Z) : Prop := min_int <= z <= max_int.

End Int32.

(** ** Single-precision floats

    A float is [mant * 2 ^ expo].  Only what the generator uses is modelled:
    conversion from an integer and from a Python float, product, quotient,
    comparison and truncation to int32.  Rounding is to nearest, ties to
    even, on 24 significant bits, with the exponent floor of the subnormal
    range.  Infinities cannot arise from the generator's operands (int32
    values, a fraction below one half, a divisor that is at least one). *)

Module F32.

Record t : Type := mk { mant : Z; expo : Z }.

Definition zero : t := mk 0 0.

Definition neg (f : t) : t := mk (- mant f) (expo f).

(** Nearest integer to [num / den], ties to even; [den] is positive. *)
Definition rne (num den : Z) : Z :=
  let q := num / den in
  let r := num mod den in
  if 2 * r <? den then q
  else if den <? 2 * r then q + 1
  else if Z.even q then q else q + 1.

(** Does [2 ^ e <= p / q] hold? *)
Definition pow2_le (e p q : Z) : bool :=
  if 0 <=? e then 2 ^ e * q <=? p else q <=? p * 2 ^ (- e).

(** Greatest [e] with [2 ^ e <= p / q], for positive [p] and [q]. *)
Definition ilog2 (p q : Z) : Z :=
  let e0 := Z.log2 p - Z.log2 q in
  if pow2_le e0 p q then e0 else e0 - 1.

(** [p / q * 2 ^ s] rounded, for positive [p] and [q]. *)
Definition round_pos (p q s : Z) : t :=
  let e := Z.max (ilog2 p q) (- 126 - s) in
  let k := 23 - e in
  let m := if 0 <=? k then rne (p * 2 ^ k) q else rne p (q * 2 ^ (- k)) in
  mk m (s - k).

(** [p / q * 2 ^ s] rounded, for any [p] and positive [q]. *)
Definition round (p q s : Z) : t :=
  if p =? 0 then zero
  else if 0 <? p then round_pos p q s
  else neg (round_pos (- p) q s).

Definition of_int (z : Z) : t := round z 1 0.

(** A Python float is a rational; it is rounded when it meets a
    single-precision operand. *)
Definition of_Q (x : Q) : t := round (Qnum x) (Zpos (Qden x)) 0.

Definition mul (a b : t) : t := round (mant a * mant b) 1 (expo a + expo b).

(** The divisor is never zero in the generator; the model gives zero
    there. *)
Definition div (a b : t) : t :=
  if mant b =? 0 then zero
  else round (Z.sgn (mant b) * mant a) (Z.abs (mant b)) (expo a - expo b).

Definition ltb (a b : t) : bool :=
  let e := Z.min (expo a) (expo b) in
  mant a * 2 ^ (expo a - e) <? mant b * 2 ^ (expo b - e).

(** [jnp.int32(x)] on a float: truncation toward zero, saturating. *)
Definition to_int32 (f : t) : Z :=
  let v := if 0 <=? expo f then mant f * 2 ^ expo f
           else Z.quot (mant f) (2 ^ (- expo f)) in
  Z.max Int32.min_int (Z.min Int32.max_int v).

End F32.

(** ** Geometry: spaces, items, locations

    The classes [Space], [Item] and [Location] live in [space.py] and
    [types.py].  A [Space] carries six bounds; the same class is used for
    one box (scalar fields) and for a buffer of boxes (array fields, one
    entry per slot), hence the type parameter. *)

(** The axis names ["x"], ["y"] and ["z"]. *)
Inductive Axis : Type := AxisX | AxisY | AxisZ.

(** Modelled from the spec: the [Space] class of [space.py], an axis-aligned
    box with six integer bounds. *)
Record Space (A : Type) : Type :=
  mkSpace { x1 : A; x2 : A; y1 : A; y2 : A; z1 : A; z2 : A }.
Arguments mkSpace {A}.
Arguments x1 {A}. Arguments x2 {A}.
Arguments y1 {A}. Arguments y2 {A}.
Arguments z1 {A}. Arguments z2 {A}.

(** Modelled from the spec: the [Item] class of [types.py], three extents. *)
Record Item (A : Type) : Type := mkItem { x_len : A; y_len : A; z_len : A }.
Arguments mkItem {A}.
Arguments x_len {A}. Arguments y_len {A}. Arguments z_len {A}.

(** Modelled from the spec: the [Location] class of [types.py], the lower
    corner of an item. *)
Module Location.
Record t (A : Type) : Type := mk { x : A; y : A; z : A }.
Arguments mk {A}. Arguments x {A}. Arguments y {A}. Arguments z {A}.
End Location.

(** Modelled from the spec: [Space.get_axis_value(axis, index)], the bound
    [index] (1 for the lower, 2 for the upper) on [axis]. *)
Definition get_axis_value {A} (sp : Space A) (axis : Axis) (index : nat) : A :=
  match axis, index with
  | AxisX, 1%nat => x1 sp | AxisX, _ => x2 sp
  | AxisY, 1%nat => y1 sp | AxisY, _ => y2 sp
  | AxisZ, 1%nat => z1 sp | AxisZ, _ => z2 sp
  end.

(** Modelled from the spec: [Space.set_axis_value(axis, index, value)],
    which overwrites that bound. *)
Definition set_axis_value {A} (sp : Space A) (axis : Axis) (index : nat)
    (value : A) : Space A :=
  match axis, index with
  | AxisX, 1%nat => mkSpace value (x2 sp) (y1 sp) (y2 sp) (z1 sp) (z2 sp)
  | AxisX, _ => mkSpace (x1 sp) value (y1 sp) (y2 sp) (z1 sp) (z2 sp)
  | AxisY, 1%nat => mkSpace (x1 sp) (x2 sp) value (y2 sp) (z1 sp) (z2 sp)
  | AxisY, _ => mkSpace (x1 sp) (x2 sp) (y1 sp) value (z1 sp) (z2 sp)
  | AxisZ, 1%nat => mkSpace (x1 sp) (x2 sp) (y1 sp) (y2 sp) value (z2 sp)
  | AxisZ, _ => mkSpace (x1 sp) (x2 sp) (y1 sp) (y2 sp) (z1 sp) value
  end.

(** [jax.tree_map] over the six fields of a space. *)
Definition tree_map {A B} (f : A -> B) (sp : Space A) : Space B :=
  mkSpace (f (x1 sp)) (f (x2 sp)) (f (y1 sp)) (f (y2 sp)) (f (z1 sp)) (f (z2 sp)).

(** [coord[i]]: JAX clamps an index that is out of range. *)
Definition gather (coord : list Z) (i : nat) : Z :=
  default 0 (coord !! (i `min` (length coord - 1))%nat).

(** Modelled from the spec: [tree_slice(tree, i)], the [i]-th box of a
    buffer. *)
Definition tree_slice (sp : Space (list Z)) (i : nat) : Space Z :=
  tree_map (fun coord => gather coord i) sp.

(** Modelled from the spec: [Space.is_empty], true where some axis interval
    has zero length. *)
Definition is_empty (sp : Space (list Z)) : list bool :=
  zip_with orb
    (zip_with orb (zip_with Z.eqb (x1 sp) (x2 sp)) (zip_with Z.eqb (y1 sp) (y2 sp)))
    (zip_with Z.eqb (z1 sp) (z2 sp)).

(** Modelled from the spec: [item_from_space], the interval lengths. *)
Definition item_from_space (sp : Space (list Z)) : Item (list Z) :=
  mkItem (zip_with Int32.sub (x2 sp) (x1 sp))
         (zip_with Int32.sub (y2 sp) (y1 sp))
         (zip_with Int32.sub (z2 sp) (z1 sp)).

(** Modelled from the spec: [location_from_space], the lower corner. *)
Definition location_from_space (sp : Space (list Z)) : Location.t (list Z) :=
  Location.mk (x1 sp) (y1 sp) (z1 sp).

(** [getattr(item, f"{axis}_len")]. *)
Definition axis_len_of {A} (it : Item A) (axis : Axis) : A :=
  match axis with AxisX => x_len it | AxisY => y_len it | AxisZ => z_len it end.

(** Modelled from the spec: [empty_ems()], a space with all bounds zero. *)
Definition empty_ems : Space Z := mkSpace 0 0 0 0 0 0.

(** Modelled from the spec: [tree_transpose] of a list of boxes, a buffer
    of boxes. *)
Definition tree_transpose (l : list (Space Z)) : Space (list Z) :=
  mkSpace (x1 <$> l) (x2 <$> l) (y1 <$> l) (y2 <$> l) (z1 <$> l) (z2 <$> l).

(** [make_container]: the box from the origin to [container_dims].  The
    dimensions are int32 values, on which [astype(jnp.int32)] changes
    nothing. *)
Definition make_container (container_dims : Z * Z * Z) : Space Z :=
  let '(x2, y2, z2) := container_dims in mkSpace 0 x2 0 y2 0 z2.

(** ** Masks *)

(** [jnp.sum(mask)]. *)
Definition mask_sum (mask : list bool) : Z :=
  Z.of_nat (length (filter (fun b => b = true) mask)).

(** [jnp.argmin(mask)]: the first false entry, or 0 when there is none. *)
Definition argmin (mask : list bool) : nat :=
  match list_find (fun b => b = false) mask with
  | Some (i, _) => i
  | None => 0%nat
  end.

(** [jnp.where(mask, values, 0)]. *)
Definition where_mask (mask : list bool) (values : list Z) : list Z :=
  zip_with (fun (b : bool) v => if b then v else 0) mask values.

(** ** The random source

    [jax.random] is an external capability: keys, ways to split them, and
    draws.  The generator relies on what its documentation promises, stated
    in [PRNGLaws]: [randint] draws from [minval, maxval) and returns
    [minval] when that range is empty; [choice] with weights [p] returns an
    index of [p], one of positive weight when the weights are non-negative
    and not all zero. *)

Class PRNG : Type := {
  PRNGKey : Type;
  split : PRNGKey -> PRNGKey * PRNGKey;
  split3 : PRNGKey -> PRNGKey * PRNGKey * PRNGKey;
  randint : PRNGKey -> Z -> Z -> Z;
  uniform : PRNGKey -> F32.t;
  choice : PRNGKey -> list Z -> nat
}.

Class PRNGLaws (P : PRNG) : Prop := {
  randint_range : forall k lo hi, lo < hi -> lo <= randint k lo hi < hi;
  randint_empty : forall k lo hi, hi <= lo -> randint k lo hi = lo;
  choice_index : forall k p, p <> [] -> (choice k p < length p)%nat;
  choice_positive : forall k p,
    Forall (fun w => 0 <= w) p -> Exists (fun w => 0 < w) p ->
    exists w, p !! choice k p = Some w /\ 0 < w
}.

(** ** Configuration

    The constructor arguments of [RandomInstanceGenerator] ([self]).  The two
    Python floats are rationals. *)

Record Config : Type := mkConfig {
  max_num_items : nat;
  max_num_ems : nat;
  split_eps : Q;
  prob_split_one_item : Q;
  split_num_same_items : Z;
  container_dims : Z * Z * Z
}.

(** ** Loops *)

Fixpoint fori_iter {A} (n : nat) (i : Z) (body : Z -> A -> A) (acc : A) : A :=
  match n with
  | O => acc
  | S n' => fori_iter n' (Int32.add i 1) body (body i acc)
  end.

(** [jax.lax.fori_loop(lower, upper, body, init)]. *)
Definition fori_loop {A} (lower upper : Z) (body : Z -> A -> A) (init : A) : A :=
  fori_iter (Z.to_nat (upper - lower)) lower body init.

(** [jax.lax.while_loop(cond, body, init)].  The loop need not end; [fuel]
    bounds the number of rounds and [None] means it was exhausted. *)
Fixpoint while_loop {A} (fuel : nat) (cond : A -> bool) (body : A -> A)
    (val : A) : option A :=
  if cond val then
    match fuel with
    | O => None
    | S fuel' => while_loop fuel' cond body (body val)
    end
  else Some val.

(** ** The splitting engine *)

Section SplittingEngine.

Context {P : PRNG}.
Variable self : Config.

(** [jnp.int32(x / n)] for int32 [x] and [n]. *)
Definition int32_quotient (x n : Z) : Z :=
  F32.to_int32 (F32.div (F32.of_int x) (F32.of_int n)).

(** [jnp.int32(self._split_eps * axis_len)]. *)
Definition split_margin (axis_len : Z) : Z :=
  F32.to_int32 (F32.mul (F32.of_Q (split_eps self)) (F32.of_int axis_len)).

(** [coord.at[free_index].set(coord[item_id])] on every field. *)
Definition copy_slot (free_index item_id : nat) (items_spaces : Space (list Z))
    : Space (list Z) :=
  tree_map (fun coord => <[free_index := gather coord item_id]> coord) items_spaces.

Definition _split_item_once (item_space : Space Z) (axis : Axis) (axis_len : Z)
    (item_id : nat) (items_spaces : Space (list Z)) (items_mask : list bool)
    (split_key : PRNGKey) : Space (list Z) * list bool :=
  let axis_min := Int32.add (get_axis_value item_space axis 1) (split_margin axis_len) in
  let axis_max := Int32.sub (get_axis_value item_space axis 2) (split_margin axis_len) in
  let axis_split := randint split_key axis_min axis_max in
  let free_index := argmin items_mask in
  let items_spaces := copy_slot free_index item_id items_spaces in
  let new_axis_2 := <[item_id := axis_split]> (get_axis_value items_spaces axis 2) in
  let items_spaces := set_axis_value items_spaces axis 2 new_axis_2 in
  let new_axis_1 := <[free_index := axis_split]> (get_axis_value items_spaces axis 1) in
  let items_spaces := set_axis_value items_spaces axis 1 new_axis_1 in
  let items_mask := <[free_index := true]> items_mask in
  (items_spaces, items_mask).

(** The body of the [fori_loop] of [_split_item_multiple_times]. *)
Definition body_fn (axis : Axis) (axis_len : Z) (item_id : nat)
    (initial_item_axis_1 num_split : Z) (i : Z)
    (carry : Space (list Z) * list bool) : Space (list Z) * list bool :=
  let '(items_spaces, items_mask) := carry in
  let free_index := argmin items_mask in
  let items_spaces := copy_slot free_index item_id items_spaces in
  let item_axis_1 :=
    Int32.add initial_item_axis_1
      (int32_quotient (Int32.mul i axis_len) num_split) in
  let item_axis_2 :=
    Int32.add initial_item_axis_1
      (int32_quotient (Int32.mul (Int32.add i 1) axis_len) num_split) in
  let new_items_axis_1 :=
    <[free_index := item_axis_1]> (get_axis_value items_spaces axis 1) in
  let items_spaces := set_axis_value items_spaces axis 1 new_items_axis_1 in
  let new_items_axis_2 :=
    <[free_index := item_axis_2]> (get_axis_value items_spaces axis 2) in
  let items_spaces := set_axis_value items_spaces axis 2 new_items_axis_2 in
  let items_mask := <[free_index := true]> items_mask in
  (items_spaces, items_mask).

(** The part of [_split_item_multiple_times] that follows the draw of
    [num_split]. *)
Definition split_item_into (num_split : Z) (item_space : Space Z) (axis : Axis)
    (axis_len : Z) (item_id : nat) (items_spaces : Space (list Z))
    (items_mask : list bool) : Space (list Z) * list bool :=
  let initial_item_axis_1 := get_axis_value item_space axis 1 in
  let new_items_axis_2 :=
    <[item_id := Int32.add initial_item_axis_1 (int32_quotient axis_len num_split)]>
      (get_axis_value items_spaces axis 2) in
  let items_spaces := set_axis_value items_spaces axis 2 new_items_axis_2 in
  fori_loop 1 num_split
    (body_fn axis axis_len item_id initial_item_axis_1 num_split)
    (items_spaces, items_mask).

Definition _split_item_multiple_times (item_space : Space Z) (axis : Axis)
    (axis_len : Z) (item_id : nat) (items_spaces : Space (list Z))
    (items_mask : list bool) (split_key : PRNGKey)
    : Space (list Z) * list bool :=
  let num_split := randint split_key 1 (split_num_same_items self + 1) in
  split_item_into num_split item_space axis axis_len item_id items_spaces items_mask.

(** The slot drawn by [_split_along_axis]. *)
Definition drawn_item (axis : Axis) (items_spaces : Space (list Z))
    (items_mask : list bool) (item_key : PRNGKey) : nat :=
  let current_items := item_from_space items_spaces in
  let item_length := axis_len_of current_items axis in
  choice item_key (where_mask items_mask item_length).

(** The mode drawn by [_split_along_axis]: true for a split in two. *)
Definition drawn_mode (mode_key : PRNGKey) : bool :=
  F32.ltb (uniform mode_key) (F32.of_Q (prob_split_one_item self)).

Definition _split_along_axis (axis : Axis) (items_spaces : Space (list Z))
    (items_mask : list bool) (key : PRNGKey) : Space (list Z) * list bool :=
  let '(item_key, split_key, mode_key) := split3 key in
  let item_id := drawn_item axis items_spaces items_mask item_key in
  let item_space := tree_slice items_spaces item_id in
  let item_axis_1 := get_axis_value item_space axis 1 in
  let item_axis_2 := get_axis_value item_space axis 2 in
  let axis_len := Int32.sub item_axis_2 item_axis_1 in
  if drawn_mode mode_key
  then _split_item_once item_space axis axis_len item_id
         items_spaces items_mask split_key
  else _split_item_multiple_times item_space axis axis_len item_id
         items_spaces items_mask split_key.

(** [jax.lax.switch] clamps its index into the list of branches. *)
Definition axis_of_index (axis : Z) : Axis :=
  if axis <=? 0 then AxisX else if axis =? 1 then AxisY else AxisZ.

Definition _split_space_into_sub_spaces (items_spaces : Space (list Z))
    (items_mask : list bool) (key : PRNGKey) : Space (list Z) * list bool :=
  let '(axis_key, split_key) := split key in
  let axis := randint axis_key 0 3 in
  let '(items_spaces, items_mask) :=
    _split_along_axis (axis_of_index axis) items_spaces items_mask split_key in
  let items_mask := zip_with andb items_mask (negb <$> is_empty items_spaces) in
  (items_spaces, items_mask).

Definition cond_fun (val : Space (list Z) * list bool * PRNGKey) : bool :=
  let '(_, items_mask, _) := val in
  let num_placed_items := mask_sum items_mask in
  num_placed_items <? Z.of_nat (max_num_items self) - split_num_same_items self + 1.

Definition body_fun (val : Space (list Z) * list bool * PRNGKey)
    : Space (list Z) * list bool * PRNGKey :=
  let '(items_spaces, items_mask, key) := val in
  let '(key, subkey) := split key in
  let '(items_spaces, items_mask) :=
    _split_space_into_sub_spaces items_spaces items_mask subkey in
  (items_spaces, items_mask, key).

(** The value the splitting loop starts from. *)
Definition init_val (container : Space Z) (key : PRNGKey)
    : Space (list Z) * list bool * PRNGKey :=
  let items_spaces :=
    tree_map (fun x => replicate (max_num_items self) (Int32.mul x 1)) container in
  let items_mask := <[0%nat := true]> (replicate (max_num_items self) false) in
  (items_spaces, items_mask, key).

Definition _split_container_into_items_spaces (fuel : nat) (container : Space Z)
    (key : PRNGKey) : option (Space (list Z) * list bool) :=
  match while_loop fuel cond_fun body_fun (init_val container key) with
  | Some (items_spaces, items_mask, _) => Some (items_spaces, items_mask)
  | None => None
  end.

End SplittingEngine.

(** ** Instance records and the object store

    A [State] is a mutable Python object: [_unpack_items] assigns to the
    attributes of the record it is given and returns that same record.
    Records therefore live in a store and are handled through references. *)

Section Instances.

Context {P : PRNG}.

(** Modelled from the spec: the [State] record of [types.py]. *)
Record State : Type := mkState {
  container : Space Z;
  ems : Space (list Z);
  ems_mask : list bool;
  items : Item (list Z);
  items_mask : list bool;
  items_placed : list bool;
  items_location : Location.t (list Z);
  action_mask : option (list bool);
  sorted_ems_indexes : list Z;
  key : PRNGKey
}.

Definition Ref : Type := nat.
Definition Store : Type := list State.

(** [State(...)]: a new object. *)
Definition new_state (st : State) (h : Store) : Ref * Store :=
  (length h, h ++ [st]).

(** [state.ems_mask = v], [state.items_placed = v] and
    [state.items_location = v]. *)
Definition set_ems_mask (v : list bool) (st : State) : State :=
  mkState (container st) (ems st) v (items st) (items_mask st)
    (items_placed st) (items_location st) (action_mask st)
    (sorted_ems_indexes st) (key st).

Definition set_items_placed (v : list bool) (st : State) : State :=
  mkState (container st) (ems st) (ems_mask st) (items st) (items_mask st)
    v (items_location st) (action_mask st) (sorted_ems_indexes st) (key st).

Definition set_items_location (v : Location.t (list Z)) (st : State) : State :=
  mkState (container st) (ems st) (ems_mask st) (items st) (items_mask st)
    (items_placed st) v (action_mask st) (sorted_ems_indexes st) (key st).

(** Assignment to an attribute of the object behind a reference. *)
Definition assign (state : Ref) (f : State -> State) (h : Store) : Store :=
  alter f state h.

(** [jnp.zeros(n, bool)], [jnp.zeros(n, jnp.int32)] and
    [jnp.arange(0, n, dtype=int)]. *)
Definition zeros_bool (n : nat) : list bool := replicate n false.
Definition zeros_int32 (n : nat) : list Z := replicate n 0.
Definition arange (n : nat) : list Z := Z.of_nat <$> seq 0 n.

Variable self : Config.

Definition _unpack_items (state : Ref) (h : Store) : Ref * Store :=
  let h := assign state
             (set_ems_mask (<[0%nat := true]> (zeros_bool (max_num_ems self)))) h in
  let h := assign state (set_items_placed (zeros_bool (max_num_items self))) h in
  let h := assign state
             (set_items_location
                (Location.mk (zeros_int32 (max_num_items self))
                             (zeros_int32 (max_num_items self))
                             (zeros_int32 (max_num_items self)))) h in
  (state, h).

(** [RandomInstanceGenerator._generate_solved_instance]. *)
Definition _generate_solved_instance (fuel : nat) (key : PRNGKey) (h : Store)
    : option (Ref * Store) :=
  let '(state_key, split_key) := split key in
  let container := make_container (container_dims self) in
  let list_of_ems := container :: replicate (max_num_ems self - 1) empty_ems in
  let ems := tree_transpose list_of_ems in
  let ems_mask := zeros_bool (max_num_ems self) in
  match _split_container_into_items_spaces self fuel container split_key with
  | None => None
  | Some (items_spaces, items_mask) =>
      let items := item_from_space items_spaces in
      let sorted_ems_indexes := arange (max_num_ems self) in
      let all_item_locations := location_from_space items_spaces in
      Some (new_state
              (mkState container ems ems_mask items items_mask items_mask
                 all_item_locations None sorted_ems_indexes state_key) h)
  end.

(** [RandomInstanceGenerator.generate_solution]. *)
Definition generate_solution (fuel : nat) (key : PRNGKey) (h : Store)
    : option (Ref * Store) :=
  _generate_solved_instance fuel key h.

(** [RandomInstanceGenerator.__call__]. *)
Definition __call__ (fuel : nat) (key : PRNGKey) (h : Store)
    : option (Ref * Store) :=
  match _generate_solved_instance fuel key h with
  | None => None
  | Some (solution, h) => Some (_unpack_items solution h)
  end.

End Instances.

(** ** CSV instances

    A CSV file is what [csv.reader] yields and [csv.writer] receives: a list
    of rows, each a list of fields. *)

Definition CSV_COLUMNS : list string :=
  ["Product_Name"; "Length"; "Width"; "Height"; "Quantity"]%string.

Inductive exn : Type :=
  | ValueError (msg : string)
  | IndexError.

(** [str(n)] on an integer: its decimal digits, after a minus sign when it
    is negative. *)
Definition str (n : Z) : string := DecimalString.NilZero.string_of_int (Z.to_int n).

(** [int(s)] on a decimal literal, an optional minus sign and digits, and
    the [ValueError] of a string that is not one.  (Python also reads a
    literal with blanks around it, a plus sign or underscores; nothing here
    depends on those.) *)

Definition int (s : string) : exn + Z :=
  match DecimalString.NilZero.int_of_string s with
  | Some d => inr (Z.of_int d)
  | None => inl (ValueError ("invalid literal for int() with base 10: '" ++ s ++ "'"))
  end.

(** [row[i]]. *)
Definition field (row : list string) (i : nat) : exn + string :=
  match row !! i with
  | Some s => inr s
  | None => inl IndexError
  end.

Definition bind_exn {A B} (m : exn + A) (f : A -> exn + B) : exn + B :=
  match m with
  | inl e => inl e
  | inr a => f a
  end.

Notation "'let!' x ':=' m 'in' k" := (bind_exn m (fun x => k))
  (at level 10, x name, m at level 100, k at level 200, only parsing).

Definition Row : Type := string * Z * Z * Z * Z.

(** The tuple built from a data row, its parts evaluated in order. *)
Definition parse_row (row : list string) : exn + Row :=
  let! name := field row 0 in
  let! s1 := field row 1 in let! x_len := int s1 in
  let! s2 := field row 2 in let! y_len := int s2 in
  let! s3 := field row 3 in let! z_len := int s3 in
  let! s4 := field row 4 in let! quantity := int s4 in
  inr (name, x_len, y_len, z_len, quantity).

Definition join (sep : string) (l : list string) : string :=
  match l with
  | [] => EmptyString
  | s :: rest => foldl (fun acc t => (acc ++ sep ++ t)%string) s rest
  end.

(** The loop of [_read_csv] over [enumerate(reader)], from [row_index] on,
    with the rows collected so far. *)
Fixpoint read_rows (row_index : nat) (reader : list (list string))
    (rows : list Row) : exn + list Row :=
  match reader with
  | [] => inr rows
  | row :: rest =>
      if (row_index =? 0)%nat then
        if negb (length row =? length CSV_COLUMNS)%nat then
          inl (ValueError ("Got wrong number of columns, expected: "
                             ++ join ", " CSV_COLUMNS))
        else if negb (bool_decide (row = CSV_COLUMNS)) then
          inl (ValueError "Columns in wrong order")
        else read_rows (S row_index) rest rows
      else
        let! r := parse_row row in
        read_rows (S row_index) rest (rows ++ [r])
  end.

Definition _read_csv (csvfile : list (list string)) : exn + list Row :=
  read_rows 0 csvfile [].

Definition _generate_list_of_items (rows : list Row) : list (Item Z) :=
  foldl
    (fun list_of_items '(_, x_len, y_len, z_len, quantity) =>
       let identical_items := replicate (Z.to_nat quantity) (mkItem x_len y_len z_len) in
       list_of_items ++ identical_items)
    [] rows.

(** Modelled from the spec: [tree_transpose] of a list of items. *)
Definition items_transpose (l : list (Item Z)) : Item (list Z) :=
  mkItem (x_len <$> l) (y_len <$> l) (z_len <$> l).

Section CSVInstance.

Context {P : PRNG}.

(** [jax.random.PRNGKey(0)], whatever key that is. *)
Variable PRNGKey_0 : PRNGKey.

Definition _parse_csv_file (csvfile : list (list string)) (max_num_ems : nat)
    (container_dims : Z * Z * Z) : exn + State :=
  let container := make_container container_dims in
  let list_of_ems := container :: replicate (max_num_ems - 1) empty_ems in
  let ems := tree_transpose list_of_ems in
  let ems_mask := <[0%nat := true]> (zeros_bool max_num_ems) in
  let! rows := _read_csv csvfile in
  let list_of_items := _generate_list_of_items rows in
  let items := items_transpose list_of_items in
  let num_items := length list_of_items in
  let items_mask := replicate num_items true in
  let items_placed := zeros_bool num_items in
  let items_location :=
    Location.mk (zeros_int32 num_items) (zeros_int32 num_items)
                (zeros_int32 num_items) in
  let sorted_ems_indexes := arange max_num_ems in
  inr (mkState container ems ems_mask items items_mask items_placed
         items_location None sorted_ems_indexes PRNGKey_0).

End CSVInstance.

(** [collections.Counter(items).items()]: the distinct items in order of
    first occurrence, with their counts. *)
Fixpoint count_up (item : Z * Z * Z) (counts : list (Z * Z * Z * Z))
    : list (Z * Z * Z * Z) :=
  match counts with
  | [] => [(item, 1)]
  | (k, c) :: rest =>
      if bool_decide (k = item) then (k, c + 1) :: rest
      else (k, c) :: count_up item rest
  end.

Definition Counter (items : list (Z * Z * Z)) : list (Z * Z * Z * Z) :=
  foldl (fun counts item => count_up item counts) [] items.

(** [list.sort(key=itemgetter(1), reverse=True)]: stable, by descending
    count. *)
Fixpoint insert_by_count (g : Z * Z * Z * Z) (sorted : list (Z * Z * Z * Z))
    : list (Z * Z * Z * Z) :=
  match sorted with
  | [] => [g]
  | g' :: rest =>
      if g.2 <? g'.2 then g' :: insert_by_count g rest else g :: g' :: rest
  end.

Definition sort_by_count (groups : list (Z * Z * Z * Z)) : list (Z * Z * Z * Z) :=
  foldr insert_by_count [] groups.

Section SaveInstance.

Context {P : PRNG}.

(** The items kept by [save_instance_to_csv]: masked-true, all extents
    positive. *)
Definition kept_items (state : State) : list (Z * Z * Z) :=
  let items :=
    zip (zip (x_len (items state)) (y_len (items state))) (z_len (items state)) in
  fst <$>
    filter (fun '((x, y, z), mask) =>
              mask = true /\ 0 < x /\ 0 < y /\ 0 < z)
           (zip items (items_mask state)).

(** The rows [save_instance_to_csv] hands to the writer, header first. *)
Definition save_instance_to_csv (state : State) : list (list string) :=
  let grouped_items := sort_by_count (Counter (kept_items state)) in
  let rows :=
    imap (fun i '((x, y, z), count) =>
            [("shape_" ++ str (Z.of_nat i + 1))%string; str x; str y; str z; str count])
         grouped_items in
  CSV_COLUMNS :: rows.

End SaveInstance.

(** * Specification *)

(** ** Tilings *)

Definition box_vol (b : Space Z) : Z :=
  (x2 b - x1 b) * (y2 b - y1 b) * (z2 b - z1 b).

(** [b] is a box (lower bounds below upper bounds) inside [c]. *)
Definition box_in (c b : Space Z) : Prop :=
  (x1 c <= x1 b /\ x1 b <= x2 b /\ x2 b <= x2 c) /\
  (y1 c <= y1 b /\ y1 b <= y2 b /\ y2 b <= y2 c) /\
  (z1 c <= z1 b /\ z1 b <= z2 b /\ z2 b <= z2 c).

(** Two boxes do not overlap: some axis separates them. *)
Definition box_sep (a b : Space Z) : Prop :=
  x2 a <= x1 b \/ x2 b <= x1 a \/
  y2 a <= y1 b \/ y2 b <= y1 a \/
  z2 a <= z1 b \/ z2 b <= z1 a.

Definition box_nonempty (b : Space Z) : Prop :=
  x1 b < x2 b /\ y1 b < y2 b /\ z1 b < z2 b.

Definition sumZ (n : nat) (t : nat -> Z) : Z :=
  foldr (fun i acc => t i + acc) 0 (seq 0 n).

Definition live (mask : list bool) (i : nat) : Prop := mask !! i = Some true.

(** Sum of the volumes of the masked-true boxes. *)
Definition live_volume (boxes : nat -> Space Z) (mask : list bool) : Z :=
  sumZ (length mask)
       (fun i => match mask !! i with Some true => box_vol (boxes i) | _ => 0 end).

(** The masked-true boxes tile the container [c]: each lies inside it, no
    two overlap, and their volumes add up to its volume. *)
Record tiling (c : Space Z) (boxes : nat -> Space Z) (mask : list bool) : Prop := {
  tiling_in : forall i, live mask i -> box_in c (boxes i);
  tiling_sep : forall i j, i <> j -> live mask i -> live mask j ->
               box_sep (boxes i) (boxes j);
  tiling_vol : live_volume boxes mask = box_vol c
}.

(** The masked-true boxes together with a pending box [r] tile [c]. *)
Record tiling_with (c r : Space Z) (boxes : nat -> Space Z) (mask : list bool)
    : Prop := {
  tw_in : forall i, live mask i -> box_in c (boxes i);
  tw_sep : forall i j, i <> j -> live mask i -> live mask j ->
           box_sep (boxes i) (boxes j);
  tw_pending_sep : forall i, live mask i -> box_sep (boxes i) r;
  tw_pending_in : box_in c r;
  tw_vol : live_volume boxes mask + box_vol r = box_vol c
}.

(** The parts of a box below and above a cut at [s] along an axis. *)
Definition cut_lo (b : Space Z) (ax : Axis) (s : Z) : Space Z := set_axis_value b ax 1 s.
Definition cut_hi (b : Space Z) (ax : Axis) (s : Z) : Space Z := set_axis_value b ax 2 s.

(** All six arrays of a buffer have [n] entries. *)
Definition wf (sp : Space (list Z)) (n : nat) : Prop :=
  length (x1 sp) = n /\ length (x2 sp) = n /\ length (y1 sp) = n /\
  length (y2 sp) = n /\ length (z1 sp) = n /\ length (z2 sp) = n.

(** Number of true entries. *)
Definition ctrue (mask : list bool) : nat := length (filter (fun b => b = true) mask).

(** Marking the slots [fs] occupied, in order. *)
Definition mark_all (mask : list bool) (fs : list nat) : list bool :=
  foldl (fun m f => <[f := true]> m) mask fs.

(** The cut points of a split in two at [s]. *)
Definition once_cut (a s b : Z) (k : nat) : Z :=
  match k with 0%nat => a | 1%nat => s | _ => b end.

(** [Space.is_empty] on one box. *)
Definition box_emptyb (b : Space Z) : bool :=
  (x1 b =? x2 b) || (y1 b =? y2 b) || (z1 b =? z2 b).

(** ** Valid configurations and the states of the splitting loop *)

(** The configuration surface of the specification, with capacity for at
    least one item and dimensions small enough for the int32 products and
    single-precision quotients of the engine to be exact. *)
Definition valid_config (cfg : Config) : Prop :=
  (0 < split_eps cfg)%Q /\ (split_eps cfg < 1 # 2)%Q /\
  (0 <= prob_split_one_item cfg)%Q /\ (prob_split_one_item cfg <= 1)%Q /\
  1 <= split_num_same_items cfg /\
  (1 <= max_num_items cfg)%nat /\
  let '(dx, dy, dz) := container_dims cfg in
  (0 < dx /\ split_num_same_items cfg * dx < 2 ^ 24) /\
  (0 < dy /\ split_num_same_items cfg * dy < 2 ^ 24) /\
  (0 < dz /\ split_num_same_items cfg * dz < 2 ^ 24).

(** What holds of the buffer between two rounds. *)
Definition engine_inv (c : Space Z) (N : nat) (sp : Space (list Z))
    (mask : list bool) : Prop :=
  wf sp N /\ length mask = N /\
  tiling c (tree_slice sp) mask /\
  (forall i, live mask i -> box_nonempty (tree_slice sp i)) /\
  (1 <= ctrue mask)%nat.

(** The values the splitting loop goes through. *)
Inductive reachable {P : PRNG} (self : Config) (container : Space Z) (key : PRNGKey)
    : Space (list Z) * list bool * PRNGKey -> Prop :=
  | reach_init : reachable self container key (init_val self container key)
  | reach_step val :
      reachable self container key val -> cond_fun self val = true ->
      reachable self container key (body_fun self val).

(** The mode the next round of the loop draws: true for a split in two. *)
Definition round_mode {P : PRNG} (self : Config)
    (val : Space (list Z) * list bool * PRNGKey) : bool :=
  let '(_, _, key) := val in
  let '(_, subkey) := split key in
  let '(_, split_key) := split subkey in
  let '(_, _, mode_key) := split3 split_key in
  drawn_mode self mode_key.

(** The configurations the specification calls valid: [split_eps] in
    (0, 0.5), [prob_split_one_item] in [0, 1], [split_num_same_items] at
    least one, positive container dimensions. *)
Definition stated_config (cfg : Config) : Prop :=
  (0 < split_eps cfg)%Q /\ (split_eps cfg < 1 # 2)%Q /\
  (0 <= prob_split_one_item cfg)%Q /\ (prob_split_one_item cfg <= 1)%Q /\
  1 <= split_num_same_items cfg /\
  let '(dx, dy, dz) := container_dims cfg in 0 < dx /\ 0 < dy /\ 0 < dz.

(** Container dimensions within the range where the int32 products and the
    single-precision quotients of the engine are exact: multiplied by the
    largest number of parts of a split, they stay below [2 ^ 24]. *)
Definition exact_dims (cfg : Config) : Prop :=
  let '(dx, dy, dz) := container_dims cfg in
  split_num_same_items cfg * dx < 2 ^ 24 /\
  split_num_same_items cfg * dy < 2 ^ 24 /\
  split_num_same_items cfg * dz < 2 ^ 24.

(** The integers of a configuration as the machine holds them: container
    dimensions that are int32 values, and a number of parts per split that
    is a single-precision float. *)
Definition machine_config (cfg : Config) : Prop :=
  split_num_same_items cfg < 2 ^ 24 /\
  let '(dx, dy, dz) := container_dims cfg in
  dx <= Int32.max_int /\ dy <= Int32.max_int /\ dz <= Int32.max_int.

(** The space of an item of an instance: its location and its extents. *)
Definition item_space {P : PRNG} (st : State) (i : nat) : Space Z :=
  let lx := gather (Location.x (items_location st)) i in
  let ly := gather (Location.y (items_location st)) i in
  let lz := gather (Location.z (items_location st)) i in
  mkSpace lx (lx + gather (x_len (items st)) i)
          ly (ly + gather (y_len (items st)) i)
          lz (lz + gather (z_len (items st)) i).

(** ** A concrete random source

    A linear congruential generator that meets the interface; it serves to
    run the generator on concrete inputs. *)

Module Lcg.

Definition next (k : Z) : Z := (k * 1103515245 + 12345) mod 2 ^ 31.

Definition split (k : Z) : Z * Z := (next k, next (k + 1)).

Definition split3 (k : Z) : Z * Z * Z := (next k, next (k + 1), next (k + 2)).

Definition randint (k lo hi : Z) : Z :=
  if lo <? hi then lo + k mod (hi - lo) else lo.

Definition uniform (k : Z) : F32.t := F32.mk (k mod 2 ^ 23) (- 23).

Definition choice (k : Z) (p : list Z) : nat :=
  match list_find (fun w => 0 < w) p with
  | Some (i, _) => i
  | None => 0%nat
  end.

End Lcg.

#[export] Instance lcg_prng : PRNG := {|
  PRNGKey := Z;
  split := Lcg.split;
  split3 := Lcg.split3;
  randint := Lcg.randint;
  uniform := Lcg.uniform;
  choice := Lcg.choice
|}.

(** The default configuration with room for six items, and a container a
    thousand kilometres wide. *)
Definition demo_config : Config :=
  mkConfig 6 10 (3 # 10) (7 # 10) 3 (5870, 2330, 2200).

Definition wide_config : Config :=
  mkConfig 3 10 (3 # 10) 0 2 (2 ^ 30, 2 ^ 30, 2 ^ 30).

(** The stores two runs of [generate_solution] produce, from no store at
    all: the default configuration with seed 42, the wide container with
    seed 1. *)
Definition demo_store : @Store lcg_prng :=
  Eval vm_compute in
    default [] (snd <$> generate_solution (P := lcg_prng) demo_config 50 42 []).

Definition wide_store : @Store lcg_prng :=
  Eval vm_compute in
    default [] (snd <$> generate_solution (P := lcg_prng) wide_config 50 1 []).

(** ** What a split leaves in the buffer *)

(** The slot [id] keeps the part below [sigma 1]; the slots [fs], free
    before, are marked and hold the parts between consecutive cuts; the
    rest of the buffer is as it was. *)
Definition split_result (sp : Space (list Z)) (mask : list bool) (N id : nat)
    (ax : Axis) (sigma : nat -> Z) (fs : list nat)
    (carry : Space (list Z) * list bool) : Prop :=
  let B := tree_slice sp id in
  NoDup fs /\
  (forall f, f ∈ fs -> mask !! f = Some false) /\
  wf (fst carry) N /\
  snd carry = mark_all mask fs /\
  tree_slice (fst carry) id = cut_hi B ax (sigma 1%nat) /\
  (forall k f, fs !! k = Some f ->
     tree_slice (fst carry) f
     = cut_hi (cut_lo B ax (sigma (S k))) ax (sigma (S (S k)))) /\
  (forall j, (j < N)%nat -> j <> id -> j ∉ fs ->
     tree_slice (fst carry) j = tree_slice sp j).

(** The cut points of the split of the box in slot [id] into [n] parts
    along [ax]. *)
Definition multi_cut (sp : Space (list Z)) (id : nat) (ax : Axis) (n : Z)
    (k : nat) : Z :=
  let B := tree_slice sp id in
  let a := get_axis_value B ax 1 in
  let b := get_axis_value B ax 2 in
  a + (Z.of_nat k * (b - a)) / n.

(** What [_split_along_axis] leaves behind. *)
Definition split_outcome (self : Config) (c : Space Z) (sp : Space (list Z))
    (mask : list bool) (carry : Space (list Z) * list bool) : Prop :=
  let N := max_num_items self in
  wf (fst carry) N /\ length (snd carry) = N /\
  tiling c (tree_slice (fst carry)) (snd carry) /\
  exists id, live mask id /\
    (forall j, live mask j -> j <> id ->
       live (snd carry) j /\ tree_slice (fst carry) j = tree_slice sp j) /\
    (exists w, live (snd carry) w /\ (w = id \/ ~ live mask w) /\
               box_nonempty (tree_slice (fst carry) w)).

(** A buffer and its mask have [N] slots. *)
Definition shaped (N : nat) (carry : Space (list Z) * list bool) : Prop :=
  wf (fst carry) N /\ length (snd carry) = N.

Section LoopState.

Context {P : PRNG}.

(** The parts of the value carried by the loop. *)
Definition val_spaces (val : Space (list Z) * list bool * PRNGKey) := fst (fst val).
Definition val_mask (val : Space (list Z) * list bool * PRNGKey) := snd (fst val).

End LoopState.

(** Every bound held by a buffer is an int32. *)
Definition all_in_range (sp : Space (list Z)) : Prop :=
  Forall Int32.in_range (x1 sp) /\ Forall Int32.in_range (x2 sp) /\
  Forall Int32.in_range (y1 sp) /\ Forall Int32.in_range (y2 sp) /\
  Forall Int32.in_range (z1 sp) /\ Forall Int32.in_range (z2 sp).

(** What the count of live slots rests on, whatever the magnitudes: the
    buffer and its mask have [N] slots, the bounds are int32 values, and no
    live slot holds an empty box. *)
Definition count_inv (N : nat) (sp : Space (list Z)) (mask : list bool) : Prop :=
  shaped N (sp, mask) /\ all_in_range sp /\
  forall j, live mask j -> box_emptyb (tree_slice sp j) = false.

(** The cut points of a split into [n] parts as the machine computes them,
    from the lower bound [a] and the length [len]. *)
Definition machine_cut (a len n : Z) (k : nat) : Z :=
  Int32.add a (int32_quotient (Int32.mul (Z.of_nat k) len) n).

(** A buffer of two slots holding one box, [x] wide on the first axis. *)
Definition two_slots (x : Z) : Space (list Z) :=
  mkSpace [0; 0] [x; x] [0; 0] [1; 1] [0; 0] [1; 1].

(** ** Instances and CSV files *)

(** The extent triples of the masked-true items of an instance. *)
Definition live_items {P : PRNG} (state : State) : list (Z * Z * Z) :=
  let items :=
    zip (zip (x_len (items state)) (y_len (items state))) (z_len (items state)) in
  fst <$> filter (fun p => p.2 = true) (zip items (items_mask state)).

(** The items a list of groups stands for: each triple, as many times as
    its count says. *)
Definition expand_groups (groups : list (Z * Z * Z * Z)) : list (Z * Z * Z) :=
  flat_map (fun g => replicate (Z.to_nat g.2) g.1) groups.

Definition item_triple (it : Item Z) : Z * Z * Z := (x_len it, y_len it, z_len it).

(** The two errors of the header check. *)
Definition wrong_number_of_columns : exn :=
  ValueError
    "Got wrong number of columns, expected: Product_Name, Length, Width, Height, Quantity".

Definition columns_in_wrong_order : exn := ValueError "Columns in wrong order".

(** The rows of a two-group file. *)
Definition demo_csv : list (list string) :=
  [CSV_COLUMNS;
   ["shape_1"; "1080"; "760"; "300"; "5"];
   ["shape_2"; "1100"; "430"; "250"; "3"]]%string.

(** The parts of a row read from a file. *)
Definition row_name (r : Row) : string := r.1.1.1.1.
Definition row_triple (r : Row) : Z * Z * Z := (r.1.1.1.2, r.1.1.2, r.1.2).
Definition row_quantity (r : Row) : Z := r.2.
Definition row_group (r : Row) : Z * Z * Z * Z := (row_triple r, row_quantity r).

Definition total_quantity (rows : list Row) : Z :=
  foldr (fun r acc => row_quantity r + acc) 0 rows.

(** Descending order of counts. *)
Definition count_ge (g g' : Z * Z * Z * Z) : Prop := g'.2 <= g.2.

Definition positive_triple (t : Z * Z * Z) : Prop := 0 < t.1.1 /\ 0 < t.1.2 /\ 0 < t.2.

(** The row read back from the [i]-th group written. *)
Definition written_row (i : nat) (g : Z * Z * Z * Z) : Row :=
  let '((x, y, z), count) := g in
  (("shape_" ++ str (Z.of_nat i + 1))%string, x, y, z, count).

(** The written form of a row. *)
Definition row_cells (r : Row) : list string :=
  [row_name r; str (row_triple r).1.1; str (row_triple r).1.2; str (row_triple r).2;
   str (row_quantity r)].

(** An instance of three items, two of them alike, in a buffer of four. *)
Definition three_items : @State lcg_prng :=
  mkState (make_container (4, 5, 5))
    (tree_transpose [make_container (4, 5, 5)]) [true]
    (mkItem [2; 3; 2; 0] [1; 1; 1; 0] [4; 5; 4; 0])
    [true; true; true; false] [false; false; false; false]
    (Location.mk [0; 0; 0; 0] [0; 0; 0; 0] [0; 0; 0; 0])
    None [0] 0.

(** ** The other generators *)

Definition TWENTY_FOOT_DIMS : Z * Z * Z := (5870, 2330, 2200).

(** [ToyInstanceGenerator]: one instance of twenty items, written out in
    the source. *)
Module ToyInstanceGenerator.

Section Toy.

Context {P : PRNG}.

(** [jax.random.PRNGKey(0)], whatever key that is. *)
Variable PRNGKey_0 : PRNGKey.

(** [__init__]: the three attributes of the base class; the fields of a
    random generator are not part of this one and are never read. *)
Definition __init__ : Config := mkConfig 20 80 0 0 0 TWENTY_FOOT_DIMS.

Definition _generate_solved_instance (self : Config) (h : Store) : Ref * Store :=
  let container := make_container (container_dims self) in
  let list_of_ems := container :: replicate (max_num_ems self - 1) empty_ems in
  let ems := tree_transpose list_of_ems in
  let ems_mask := zeros_bool (max_num_ems self) in
  let items :=
    mkItem
      [2445; 3083; 1950; 3425; 3083; 2787; 3425; 2787; 2787; 3425;
       3083; 2787; 1295; 2787; 3083; 3425; 3425; 837; 1150; 3425]
      [1306; 1429; 1301; 321; 1165; 2330; 291; 1504; 826; 466;
       901; 1029; 1024; 2330; 1165; 466; 663; 1301; 1024; 589]
      [1022; 549; 700; 1022; 629; 200; 1022; 157; 157; 363;
       549; 700; 1022; 121; 629; 659; 1022; 700; 1022; 1022] in
  let items_mask := replicate (max_num_items self) true in
  let sorted_ems_indexes := arange (max_num_ems self) in
  let all_item_locations :=
    Location.mk
      [0; 0; 3083; 2445; 0; 3083; 2445; 3083; 3083; 2445;
       0; 3083; 0; 3083; 0; 2445; 2445; 5033; 1295; 2445]
      [0; 0; 0; 0; 0; 0; 910; 0; 1504; 1864;
       1429; 1301; 1306; 0; 1165; 1864; 1201; 0; 1306; 321]
      [0; 1022; 1022; 0; 1571; 1722; 0; 2043; 2043; 0;
       1022; 1022; 0; 1922; 1571; 363; 0; 1022; 0; 0] in
  new_state
    (mkState container ems ems_mask items items_mask items_mask
       all_item_locations None sorted_ems_indexes PRNGKey_0) h.

(** [generate_solution]: the key is deleted. *)
Definition generate_solution (self : Config) (key : PRNGKey) (h : Store)
    : Ref * Store :=
  _generate_solved_instance self h.

(** [__call__]: the key is deleted. *)
Definition __call__ (self : Config) (key : PRNGKey) (h : Store) : Ref * Store :=
  let '(solution, h) := _generate_solved_instance self h in
  _unpack_items self solution h.

End Toy.

End ToyInstanceGenerator.

(** [CSVInstanceGenerator]: the attributes of the base class and the
    instance parsed once, when the generator is made. *)
Module CSVInstanceGenerator.

Section CSV.

Context {P : PRNG}.
Variable PRNGKey_0 : PRNGKey.

Record t : Type := mk {
  instance_from_csv : Ref;
  max_num_items : nat;
  max_num_ems : nat;
  container_dims : Z * Z * Z
}.

(** [__init__]: [instance_from_csv.items_mask.shape[0]] becomes
    [max_num_items]. *)
Definition __init__ (csvfile : list (list string)) (max_num_ems : nat)
    (container_dims : Z * Z * Z) (h : Store) : exn + (t * Store) :=
  let! instance := _parse_csv_file PRNGKey_0 csvfile max_num_ems container_dims in
  let '(instance_from_csv, h) := new_state instance h in
  let max_num_items := length (items_mask instance) in
  inr (mk instance_from_csv max_num_items max_num_ems container_dims, h).

(** [__call__]: the key is deleted and the one instance is returned. *)
Definition __call__ (self : t) (key : PRNGKey) (h : Store) : Ref * Store :=
  (instance_from_csv self, h).

End CSV.

End CSVInstanceGenerator.

(** ** Decidable forms of the geometry *)

Definition box_inb (c b : Space Z) : bool :=
  (x1 c <=? x1 b) && (x1 b <=? x2 b) && (x2 b <=? x2 c) &&
  (y1 c <=? y1 b) && (y1 b <=? y2 b) && (y2 b <=? y2 c) &&
  (z1 c <=? z1 b) && (z1 b <=? z2 b) && (z2 b <=? z2 c).

Definition box_sepb (a b : Space Z) : bool :=
  (x2 a <=? x1 b) || (x2 b <=? x1 a) ||
  (y2 a <=? y1 b) || (y2 b <=? y1 a) ||
  (z2 a <=? z1 b) || (z2 b <=? z1 a).

(** The first [n] boxes lie in [c] and are pairwise apart. *)
Definition packedb (c : Space Z) (boxes : nat -> Space Z) (n : nat) : bool :=
  forallb (fun i => box_inb c (boxes i)) (seq 0 n) &&
  forallb (fun i =>
    forallb (fun j => (i =? j)%nat || box_sepb (boxes i) (boxes j)) (seq 0 n))
    (seq 0 n).

(** The total of the quantities of the rows that have one. *)
Definition total_items (rows : list Row) : nat :=
  foldr (fun r acc => (Z.to_nat (row_quantity r) + acc)%nat) 0%nat rows.

(** A unit container asked for three items, one part per split. *)
Definition unit_config : Config := mkConfig 3 10 (3 # 10) (7 # 10) 1 (1, 1, 1).

(** The store a run of [__call__] produces from no store at all, for the
    default configuration with seed 42. *)
Definition demo_reset_store : @Store lcg_prng :=
  Eval vm_compute in
    default [] (snd <$> __call__ (P := lcg_prng) demo_config 50 42 []).

#[export] Instance positive_triple_dec (t : Z * Z * Z) : Decision (positive_triple t).
Proof. unfold positive_triple. apply _. Defined.

(** The instance read from the file of the docstring, with room for three
    EMS. *)
Definition demo_csv_state : @State lcg_prng :=
  Eval vm_compute in
    match _parse_csv_file (P := lcg_prng) 0 demo_csv 3 TWENTY_FOOT_DIMS with
    | inr st => st
    | inl _ => three_items
    end.

(** * Proofs *)

(** ** Single-precision arithmetic *)

Section Float32.

Import F32.

Lemma rne_cases num den :
  rne num den = num / den \/ (rne num den = num / den + 1 /\ den <= 2 * (num mod den)).
Proof.
  unfold rne. destruct (Z.ltb_spec (2 * (num mod den)) den); [now left|].
  destruct (Z.ltb_spec den (2 * (num mod den))); [right; lia|].
  destruct (Z.even (num / den)); [now left | right; lia].
Qed.

Lemma rne_le num den c : 0 < den -> num <= c * den -> rne num den <= c.
Proof.
  intros Hd Hle.
  pose proof (Z.mod_pos_bound num den Hd) as Hm.
  pose proof (Z.div_mod num den ltac:(lia)) as Hdm.
  destruct (rne_cases num den) as [-> | [-> Hr]]; nia.
Qed.

Lemma rne_ge num den c : 0 < den -> c * den <= num -> c <= rne num den.
Proof.
  intros Hd Hle.
  pose proof (Z.mod_pos_bound num den Hd) as Hm.
  pose proof (Z.div_mod num den ltac:(lia)) as Hdm.
  destruct (rne_cases num den) as [-> | [-> Hr]]; nia.
Qed.

Lemma rne_exact c den : 0 < den -> rne (c * den) den = c.
Proof.
  intros Hd. apply Z.le_antisymm; [apply rne_le | apply rne_ge]; lia.
Qed.

Lemma rne_one x : rne x 1 = x.
Proof. rewrite <- (Z.mul_1_r x) at 1. apply rne_exact. lia. Qed.

Lemma rne_scale num den c :
  0 < c -> 0 < den -> rne (num * c) (den * c) = rne num den.
Proof.
  intros Hc Hd. unfold rne.
  rewrite Z.div_mul_cancel_r by lia.
  rewrite Zmult_mod_distr_r.
  replace (2 * (num mod den * c)) with (2 * (num mod den) * c) by ring.
  destruct (Z.ltb_spec (2 * (num mod den)) den), (Z.ltb_spec (2 * (num mod den) * c) (den * c)); try nia; auto.
  destruct (Z.ltb_spec den (2 * (num mod den))), (Z.ltb_spec (den * c) (2 * (num mod den) * c)); try nia; auto.
Qed.

(** Truncating a rounded quotient: rounding does not reach the next
    integer as long as the divisor is below twice the scale. *)
Lemma rne_div_pow2 x n j :
  0 <= x -> 0 < n -> 0 <= j -> n < 2 ^ (j + 1) ->
  rne (x * 2 ^ j) n / 2 ^ j = x / n.
Proof.
  intros Hx Hn Hj Hlt.
  rewrite Z.pow_add_r, Z.pow_1_r in Hlt by lia.
  assert (Hp : 0 < 2 ^ j) by (apply Z.pow_pos_nonneg; lia).
  set (P := 2 ^ j) in *.
  pose proof (Z.div_mod x n ltac:(lia)) as Hx0.
  pose proof (Z.mod_pos_bound x n Hn) as Hr0.
  set (k0 := x / n) in *. set (r0 := x mod n) in *.
  symmetry. apply Z.div_unique_pos with (r := rne (x * P) n - k0 * P); [|lia].
  split.
  - enough (k0 * P <= rne (x * P) n) by lia. apply rne_ge; nia.
  - pose proof (Z.div_mod (x * P) n ltac:(lia)) as HN.
    pose proof (Z.mod_pos_bound (x * P) n Hn) as HrN.
    destruct (rne_cases (x * P) n) as [-> | [-> Hr]].
    + nia.
    + assert (x * P / n < (k0 + 1) * P) by nia.
      assert (x * P / n <> (k0 + 1) * P - 1); [|lia].
      intros Heq. rewrite Heq in HN. nia.
Qed.

Lemma ilog2_one p : 0 < p -> ilog2 p 1 = Z.log2 p.
Proof.
  intros Hp. unfold ilog2, pow2_le. change (Z.log2 1) with 0. rewrite Z.sub_0_r.
  pose proof (Z.log2_nonneg p). pose proof (Z.log2_spec p Hp).
  destruct (Z.leb_spec 0 (Z.log2 p)); [|lia].
  destruct (Z.leb_spec (2 ^ Z.log2 p * 1) p); [reflexivity | lia].
Qed.

Lemma saturate_small v :
  Int32.in_range v -> Z.max Int32.min_int (Z.min Int32.max_int v) = v.
Proof. unfold Int32.in_range. lia. Qed.

(** Integers below [2 ^ 24] are floats. *)
Lemma of_int_pos x :
  0 < x < 2 ^ 24 ->
  of_int x = mk (x * 2 ^ (23 - Z.log2 x)) (Z.log2 x - 23).
Proof.
  intros [Hx Hlt]. unfold of_int, round.
  destruct (Z.eqb_spec x 0); [lia|].
  destruct (Z.ltb_spec 0 x); [|lia].
  unfold round_pos. rewrite ilog2_one by lia.
  assert (Z.log2 x < 24) by (apply Z.log2_lt_pow2; lia).
  pose proof (Z.log2_nonneg x).
  rewrite Z.max_l by lia.
  destruct (Z.leb_spec 0 (23 - Z.log2 x)); [|lia].
  rewrite rne_one. f_equal. lia.
Qed.

Lemma mant_scaled_bounds x :
  0 < x -> 0 <= 23 - Z.log2 x ->
  2 ^ 23 <= x * 2 ^ (23 - Z.log2 x) < 2 ^ 24.
Proof.
  intros Hx Hk. pose proof (Z.log2_spec x Hx) as [Hlo Hhi].
  pose proof (Z.log2_nonneg x).
  assert (0 < 2 ^ (23 - Z.log2 x)) by (apply Z.pow_pos_nonneg; lia).
  replace (2 ^ 23) with (2 ^ Z.log2 x * 2 ^ (23 - Z.log2 x))
    by (rewrite <- Z.pow_add_r by lia; f_equal; lia).
  replace (2 ^ 24) with (2 ^ (Z.succ (Z.log2 x)) * 2 ^ (23 - Z.log2 x))
    by (rewrite <- Z.pow_add_r by lia; f_equal; lia).
  nia.
Qed.

Lemma ilog2_normal p q :
  2 ^ 23 <= p < 2 ^ 24 -> 2 ^ 23 <= q < 2 ^ 24 ->
  (q <= p /\ ilog2 p q = 0) \/ (p < q /\ ilog2 p q = -1).
Proof.
  intros Hp Hq. unfold ilog2.
  assert (Z.log2 p = 23) as -> by (apply Z.log2_unique; [lia | change (Z.succ 23) with 24; lia]).
  assert (Z.log2 q = 23) as -> by (apply Z.log2_unique; [lia | change (Z.succ 23) with 24; lia]).
  change (23 - 23) with 0. unfold pow2_le. change (0 <=? 0) with true.
  cbv iota. rewrite Z.pow_0_r, Z.mul_1_l.
  destruct (Z.leb_spec q p); [left; lia | right; lia].
Qed.

(** [jnp.int32(x / n)] on int32 operands below [2 ^ 24] is the integer
    quotient. *)
Lemma div_trunc_exact x n :
  0 <= x < 2 ^ 24 -> 0 < n < 2 ^ 24 ->
  to_int32 (div (of_int x) (of_int n)) = x / n.
Proof.
  intros Hx Hn.
  destruct (Z.eq_dec x 0) as [-> | Hx0].
  { unfold div. rewrite of_int_pos by lia. cbn [mant expo].
    pose proof (mant_scaled_bounds n ltac:(lia)) as Hb.
    assert (Z.log2 n < 24) by (apply Z.log2_lt_pow2; lia).
    destruct (Z.eqb_spec (n * 2 ^ (23 - Z.log2 n)) 0); [lia|].
    change (of_int 0) with zero. cbn [mant zero]. rewrite Z.mul_0_r.
    reflexivity. }
  rewrite !of_int_pos by lia. unfold div. cbn [mant expo].
  assert (Hlx : Z.log2 x < 24) by (apply Z.log2_lt_pow2; lia).
  assert (Hln : Z.log2 n < 24) by (apply Z.log2_lt_pow2; lia).
  pose proof (Z.log2_nonneg x). pose proof (Z.log2_nonneg n).
  set (kx := 23 - Z.log2 x) in *. set (kn := 23 - Z.log2 n) in *.
  pose proof (mant_scaled_bounds x ltac:(lia) ltac:(lia)) as Hbx.
  pose proof (mant_scaled_bounds n ltac:(lia) ltac:(lia)) as Hbn.
  fold kx in Hbx. fold kn in Hbn.
  set (p := x * 2 ^ kx) in *. set (q := n * 2 ^ kn) in *.
  destruct (Z.eqb_spec q 0); [lia|].
  rewrite Z.sgn_pos, Z.mul_1_l, Z.abs_eq by lia.
  unfold round. destruct (Z.eqb_spec p 0); [lia|].
  destruct (Z.ltb_spec 0 p); [|lia].
  unfold round_pos.
  replace (Z.log2 x - 23 - (Z.log2 n - 23)) with (kn - kx) by lia.
  assert (Hpkx : 0 < 2 ^ kx) by (apply Z.pow_pos_nonneg; lia).
  assert (Hpkn : 0 < 2 ^ kn) by (apply Z.pow_pos_nonneg; lia).
  assert (Hgen : forall E, (E = 0 \/ E = -1) -> 2 ^ (- E) * p >= q ->
    to_int32 {| mant := rne (p * 2 ^ (23 - E)) q; expo := kn - kx - (23 - E) |} = x / n).
  { intros E HE Hle. set (j := 23 - E + kx - kn).
    assert (Hj : 0 <= j) by lia.
    assert (Hm : rne (p * 2 ^ (23 - E)) q = rne (x * 2 ^ j) n).
    { destruct (Z.le_gt_cases kn (23 - E + kx)) as [Hc|Hc]; [|lia].
      replace (p * 2 ^ (23 - E)) with (x * 2 ^ j * 2 ^ kn).
      - apply rne_scale; lia.
      - unfold p, j. rewrite <- !Z.mul_assoc, <- !Z.pow_add_r by lia.
        do 2 f_equal. lia. }
    rewrite Hm. unfold to_int32. cbn [mant expo].
    assert (Hnj : n < 2 ^ (j + 1)).
    { assert (q < 2 ^ (- E) * 2 ^ 24 * 2 ^ kx).
      { assert (0 < 2 ^ (- E)) by (apply Z.pow_pos_nonneg; lia). unfold p in *. nia. }
      assert (2 ^ (- E) * 2 ^ 24 * 2 ^ kx = 2 ^ (j + 1) * 2 ^ kn) as Heq.
      { rewrite <- !Z.pow_add_r by lia. f_equal. lia. }
      unfold q in *. nia. }
    assert (Hq : rne (x * 2 ^ j) n / 2 ^ j = x / n) by (apply rne_div_pow2; lia).
    assert (0 <= x / n < 2 ^ 24).
    { split; [apply Z.div_pos; lia|]. apply Z.div_lt_upper_bound; nia. }
    assert (0 <= rne (x * 2 ^ j) n).
    { apply rne_ge; [lia|]. assert (0 < 2 ^ j) by (apply Z.pow_pos_nonneg; lia). nia. }
    replace (kn - kx - (23 - E)) with (- j) by lia.
    destruct (Z.leb_spec 0 (- j)).
    - assert (j = 0) as Hj0 by lia. rewrite Hj0 in *. simpl (- 0). rewrite Z.pow_0_r, Z.mul_1_r.
      rewrite Z.pow_0_r, Z.div_1_r in Hq. rewrite Hq.
      apply saturate_small. unfold Int32.in_range, Int32.min_int, Int32.max_int. lia.
    - rewrite Z.opp_involutive, Z.quot_div_nonneg by (try apply Z.pow_pos_nonneg; lia).
      rewrite Hq. apply saturate_small.
      unfold Int32.in_range, Int32.min_int, Int32.max_int. lia. }
  destruct (ilog2_normal p q Hbx Hbn) as [[Hc ->] | [Hc ->]].
  - rewrite Z.max_l by lia. change (23 - 0) with 23.
    destruct (Z.leb_spec 0 23); [|lia].
    apply (Hgen 0); [lia | simpl; lia].
  - rewrite Z.max_l by lia. change (23 - -1) with 24.
    destruct (Z.leb_spec 0 24); [|lia].
    apply (Hgen (-1)); [lia | simpl (- -1); lia].
Qed.

Lemma ilog2_le p q : ilog2 p q <= Z.log2 p - Z.log2 q.
Proof. unfold ilog2. destruct (pow2_le _ p q); lia. Qed.

(** A Python float below one half rounds to a float that is at most one
    half. *)
Lemma of_Q_half (eps : Q) :
  (0 < eps)%Q -> (eps < 1 # 2)%Q ->
  exists m k, of_Q eps = mk m (- k) /\ 23 <= k /\ 0 <= m <= 2 ^ (k - 1).
Proof.
  destruct eps as [p q]. unfold Qlt. cbn [Qnum Qden]. intros Hp Hhalf.
  rewrite Z.mul_1_r in Hp. change (Z.pos 2) with 2 in Hhalf.
  rewrite Z.mul_1_l in Hhalf.
  unfold of_Q, round. cbn [Qnum Qden].
  destruct (Z.eqb_spec p 0); [lia|].
  destruct (Z.ltb_spec 0 p); [|lia].
  unfold round_pos.
  pose proof (ilog2_le p (Z.pos q)) as Hle.
  assert (Z.log2 p <= Z.log2 (Z.pos q)) by (apply Z.log2_le_mono; lia).
  set (e := Z.max (ilog2 p (Z.pos q)) (- 126 - 0)).
  assert (He : e <= 0) by (unfold e; lia).
  destruct (Z.leb_spec 0 (23 - e)); [|lia].
  exists (rne (p * 2 ^ (23 - e)) (Z.pos q)), (23 - e).
  split; [f_equal; lia|]. split; [lia|].
  assert (0 < 2 ^ (23 - e - 1)) by (apply Z.pow_pos_nonneg; lia).
  assert (2 ^ (23 - e) = 2 * 2 ^ (23 - e - 1)) as Hpow.
  { rewrite <- Z.pow_succ_r by lia. f_equal. lia. }
  split.
  - apply rne_ge; [lia|]. nia.
  - apply rne_le; [lia|]. rewrite Hpow. nia.
Qed.

(** [jnp.int32(split_eps * axis_len)]: for a fraction below one half the
    margin lies between zero and the length. *)
Lemma mul_trunc_bounds (eps : Q) len :
  (0 < eps)%Q -> (eps < 1 # 2)%Q -> 0 <= len < 2 ^ 24 ->
  0 <= to_int32 (mul (of_Q eps) (of_int len)) <= len.
Proof.
  intros H0 Hhalf Hlen.
  destruct (of_Q_half eps H0 Hhalf) as (m & k & -> & Hk & Hm).
  destruct (Z.eq_dec len 0) as [-> | Hl0].
  { change (of_int 0) with zero. unfold mul. cbn [mant zero]. rewrite Z.mul_0_r.
    unfold round. simpl. unfold to_int32, Int32.min_int, Int32.max_int. simpl. lia. }
  rewrite of_int_pos by lia. unfold mul. cbn [mant expo].
  assert (Hll : Z.log2 len < 24) by (apply Z.log2_lt_pow2; lia).
  pose proof (Z.log2_nonneg len).
  set (kl := 23 - Z.log2 len) in *.
  pose proof (mant_scaled_bounds len ltac:(lia) ltac:(lia)) as Hbl. fold kl in Hbl.
  assert (Hpkl : 0 < 2 ^ kl) by (apply Z.pow_pos_nonneg; lia).
  replace (- k + (Z.log2 len - 23)) with (- (k + kl)) by lia.
  set (t := k + kl). assert (Ht : 23 <= t) by lia.
  set (P := m * (len * 2 ^ kl)).
  assert (HP : 0 <= P <= len * 2 ^ (t - 1)).
  { unfold P, t. replace (k + kl - 1) with (k - 1 + kl) by lia.
    rewrite Z.pow_add_r by lia. nia. }
  unfold round. destruct (Z.eqb_spec P 0) as [HP0 | HP0].
  { unfold to_int32, Int32.min_int, Int32.max_int. simpl. lia. }
  destruct (Z.ltb_spec 0 P); [|lia].
  assert (Hsat : forall v, 0 <= v <= len ->
    0 <= Z.max Int32.min_int (Z.min Int32.max_int v) <= len).
  { intros v Hv. rewrite saturate_small; [lia|].
    unfold Int32.in_range, Int32.min_int, Int32.max_int. lia. }
  assert (Hpt : 0 < 2 ^ (t - 1)) by (apply Z.pow_pos_nonneg; lia).
  assert (Hpt2 : 2 ^ t = 2 * 2 ^ (t - 1)).
  { rewrite <- Z.pow_succ_r by lia. f_equal. lia. }
  unfold round_pos. rewrite ilog2_one by lia.
  set (e := Z.max (Z.log2 P) (- 126 - - t)).
  assert (HlP : Z.log2 P < 23 + t).
  { apply Z.log2_lt_pow2; [lia|].
    replace (23 + t) with (24 + (t - 1)) by lia. rewrite Z.pow_add_r by lia. nia. }
  assert (He : e < 23 + t) by (unfold e; lia).
  unfold to_int32. cbn [mant expo].
  destruct (Z.leb_spec 0 (23 - e)) as [Hk' | Hk'].
  - rewrite rne_one.
    destruct (Z.leb_spec 0 (- t - (23 - e))); [lia|].
    replace (- (- t - (23 - e))) with (23 - e + t) by lia.
    assert (0 < 2 ^ (23 - e)) by (apply Z.pow_pos_nonneg; lia).
    rewrite Z.quot_div_nonneg by (try apply Z.pow_pos_nonneg; nia).
    rewrite Z.pow_add_r by lia.
    rewrite (Z.mul_comm (2 ^ (23 - e))), Z.div_mul_cancel_r by lia.
    apply Hsat. split; [apply Z.div_pos; lia|].
    apply Z.div_le_upper_bound; nia.
  - set (d := - (23 - e)). assert (Hd : 0 < d < t) by lia.
    rewrite Z.mul_1_l.
    destruct (Z.leb_spec 0 (- t - (23 - e))); [lia|].
    replace (- (- t - (23 - e))) with (t - d) by lia.
    assert (Hpd : 0 < 2 ^ d) by (apply Z.pow_pos_nonneg; lia).
    assert (Hptd : 0 < 2 ^ (t - 1 - d)) by (apply Z.pow_pos_nonneg; lia).
    assert (Hm' : 0 <= rne P (2 ^ d) <= len * 2 ^ (t - 1 - d)).
    { split; [apply rne_ge; lia|]. apply rne_le; [lia|].
      rewrite <- Z.mul_assoc, <- Z.pow_add_r by lia.
      replace (t - 1 - d + d) with (t - 1) by lia. lia. }
    assert (2 ^ (t - d) = 2 * 2 ^ (t - 1 - d)) as Hpow.
    { rewrite <- Z.pow_succ_r by lia. f_equal. lia. }
    rewrite Z.quot_div_nonneg by lia.
    apply Hsat. split; [apply Z.div_pos; lia|].
    apply Z.div_le_upper_bound; nia.
Qed.

(** ** Quotients that are not zero *)

(** A positive integer as a float: at least [2 ^ 23] in the mantissa. *)
Lemma of_int_large x :
  2 ^ 24 <= x <= 2 ^ 31 ->
  exists m, of_int x = mk m (Z.log2 x - 23) /\ 2 ^ 23 <= m <= 2 ^ 24 /\
            24 <= Z.log2 x <= 31.
Proof.
  intros [Hlo Hhi]. unfold of_int, round.
  destruct (Z.eqb_spec x 0); [lia|].
  destruct (Z.ltb_spec 0 x); [|lia].
  unfold round_pos. rewrite ilog2_one by lia.
  assert (He : 24 <= Z.log2 x <= 31).
  { split; [apply Z.log2_le_pow2; lia|].
    enough (Z.log2 x < 32) by lia. apply Z.log2_lt_pow2; lia. }
  pose proof (Z.log2_spec x ltac:(lia)) as [Hl Hu].
  rewrite Z.max_l by lia.
  destruct (Z.leb_spec 0 (23 - Z.log2 x)); [lia|].
  eexists. split; [f_equal; lia|]. split; [|exact He].
  replace (- (23 - Z.log2 x)) with (Z.log2 x - 23) by lia.
  rewrite Z.mul_1_l.
  assert (Hp : 0 < 2 ^ (Z.log2 x - 23)) by (apply Z.pow_pos_nonneg; lia).
  assert (H23 : 2 ^ 23 * 2 ^ (Z.log2 x - 23) = 2 ^ Z.log2 x)
    by (rewrite <- Z.pow_add_r by lia; f_equal; lia).
  assert (H24 : 2 ^ 24 * 2 ^ (Z.log2 x - 23) = 2 ^ Z.succ (Z.log2 x))
    by (rewrite <- Z.pow_add_r by lia; f_equal; lia).
  split; [apply rne_ge | apply rne_le]; lia.
Qed.

(** Truncation of a float that is at least one. *)
Lemma to_int32_pos m e :
  1 <= (if 0 <=? e then m * 2 ^ e else Z.quot m (2 ^ (- e))) ->
  1 <= to_int32 (mk m e).
Proof.
  unfold to_int32. cbn [mant expo]. unfold Int32.min_int, Int32.max_int. lia.
Qed.

Lemma to_int32_neg f : 1 <= to_int32 f -> to_int32 (neg f) <= -1.
Proof.
  unfold to_int32, neg. cbn [mant expo].
  destruct (Z.leb_spec 0 (expo f)).
  - unfold Int32.min_int, Int32.max_int. lia.
  - rewrite Z.quot_opp_l.
    + unfold Int32.min_int, Int32.max_int. lia.
    + apply Z.pow_nonzero; lia.
Qed.

Lemma quotient_large_pos x n :
  1 <= n < 2 ^ 24 -> 2 ^ 24 <= x <= 2 ^ 31 ->
  1 <= to_int32 (div (of_int x) (of_int n)).
Proof.
  intros Hn Hx.
  destruct (of_int_large x Hx) as (m & -> & Hm & He).
  rewrite (of_int_pos n) by lia. unfold div. cbn [mant expo].
  assert (Hln : Z.log2 n < 24) by (apply Z.log2_lt_pow2; lia).
  pose proof (Z.log2_nonneg n) as Hln0.
  pose proof (mant_scaled_bounds n ltac:(lia) ltac:(lia)) as Hbn.
  set (q := n * 2 ^ (23 - Z.log2 n)) in *.
  destruct (Z.eqb_spec q 0); [lia|].
  rewrite Z.sgn_pos, Z.mul_1_l, Z.abs_eq by lia.
  unfold round. destruct (Z.eqb_spec m 0); [lia|].
  destruct (Z.ltb_spec 0 m); [|lia].
  unfold round_pos.
  set (s := Z.log2 x - 23 - (Z.log2 n - 23)).
  assert (Hs : 1 <= s <= 31) by (unfold s; lia).
  assert (Hq23 : Z.log2 q = 23)
    by (apply Z.log2_unique; [lia | change (Z.succ 23) with 24; lia]).
  assert (Hm2324 : Z.log2 m = 23 \/ Z.log2 m = 24).
  { destruct (Z.eq_dec m (2 ^ 24)) as [-> | Hne]; [right; reflexivity|].
    left. apply Z.log2_unique; [lia | change (Z.succ 23) with 24; lia]. }
  assert (HE : -1 <= ilog2 m q <= 1).
  { unfold ilog2. rewrite Hq23. destruct (pow2_le _ m q); lia. }
  set (E := ilog2 m q) in *.
  rewrite Z.max_l by lia.
  destruct (Z.leb_spec 0 (23 - E)); [|lia].
  apply to_int32_pos.
  set (k := 23 - E) in *.
  assert (Hk : 22 <= k <= 24) by lia.
  assert (Hpk : 2 ^ (k - 1) <= rne (m * 2 ^ k) q).
  { apply rne_ge; [lia|].
    replace (2 ^ k) with (2 * 2 ^ (k - 1))
      by (rewrite <- Z.pow_succ_r by lia; f_equal; lia).
    assert (0 < 2 ^ (k - 1)) by (apply Z.pow_pos_nonneg; lia). nia. }
  set (m' := rne (m * 2 ^ k) q) in *.
  destruct (Z.leb_spec 0 (s - k)).
  - assert (0 < 2 ^ (k - 1)) by (apply Z.pow_pos_nonneg; lia).
    assert (0 < 2 ^ (s - k)) by (apply Z.pow_pos_nonneg; lia). nia.
  - replace (- (s - k)) with (k - s) by lia.
    assert (Hpos : 0 < 2 ^ (k - s)) by (apply Z.pow_pos_nonneg; lia).
    rewrite Z.quot_div_nonneg by lia.
    apply Z.div_le_lower_bound; [lia|].
    rewrite Z.mul_1_r.
    transitivity (2 ^ (k - 1)); [|exact Hpk].
    apply Z.pow_le_mono_r; lia.
Qed.

Lemma quotient_pos x n :
  1 <= n < 2 ^ 24 -> n <= x <= 2 ^ 31 ->
  1 <= to_int32 (div (of_int x) (of_int n)).
Proof.
  intros Hn Hx. destruct (Z_lt_le_dec x (2 ^ 24)) as [Hsmall | Hlarge].
  - rewrite div_trunc_exact by lia. apply Z.div_le_lower_bound; lia.
  - apply quotient_large_pos; lia.
Qed.

Lemma of_int_opp x : 0 < x -> of_int (- x) = neg (of_int x).
Proof.
  intros Hx. unfold of_int, round.
  destruct (Z.eqb_spec (- x) 0); [lia|].
  destruct (Z.ltb_spec 0 (- x)); [lia|].
  destruct (Z.eqb_spec x 0); [lia|].
  destruct (Z.ltb_spec 0 x); [|lia].
  rewrite Z.opp_involutive. reflexivity.
Qed.

Lemma of_int_mant_pos x : 0 < x <= 2 ^ 31 -> 0 < mant (of_int x).
Proof.
  intros Hx. destruct (Z_lt_le_dec x (2 ^ 24)).
  - rewrite of_int_pos by lia. cbn [mant].
    assert (Z.log2 x < 24) by (apply Z.log2_lt_pow2; lia).
    pose proof (mant_scaled_bounds x ltac:(lia) ltac:(lia)). lia.
  - destruct (of_int_large x ltac:(lia)) as (m & -> & Hm & _). cbn [mant]. lia.
Qed.

Lemma div_neg a b : 0 < mant a -> 0 < mant b -> div (neg a) b = neg (div a b).
Proof.
  intros Ha Hb. unfold div, neg at 1. cbn [mant expo].
  destruct (Z.eqb_spec (mant b) 0); [lia|].
  rewrite Z.sgn_pos, !Z.mul_1_l, Z.abs_eq by lia.
  unfold round.
  destruct (Z.eqb_spec (- mant a) 0); [lia|].
  destruct (Z.ltb_spec 0 (- mant a)); [lia|].
  destruct (Z.eqb_spec (mant a) 0); [lia|].
  destruct (Z.ltb_spec 0 (mant a)); [|lia].
  rewrite Z.opp_involutive. reflexivity.
Qed.

(** [jnp.int32(x / n)] is not zero when [x] is at least [n] in absolute
    value. *)
Lemma quotient_nonzero x n :
  1 <= n < 2 ^ 24 -> n <= Z.abs x <= 2 ^ 31 ->
  int32_quotient x n <> 0.
Proof.
  intros Hn Hx. unfold int32_quotient.
  destruct (Z_lt_le_dec x 0) as [Hneg | Hpos].
  - replace x with (- (- x)) by lia.
    rewrite of_int_opp by lia.
    rewrite div_neg by (apply of_int_mant_pos; lia).
    pose proof (to_int32_neg _ (quotient_pos (- x) n Hn ltac:(lia))). lia.
  - pose proof (quotient_pos x n Hn ltac:(lia)). lia.
Qed.

Lemma quotient_in_range x n : Int32.in_range (int32_quotient x n).
Proof.
  unfold int32_quotient, to_int32, Int32.in_range, Int32.min_int, Int32.max_int. lia.
Qed.

End Float32.

(** ** Masks *)

Lemma mask_sum_ctrue mask : mask_sum mask = Z.of_nat (ctrue mask).
Proof. reflexivity. Qed.

Lemma ctrue_cons b mask :
  ctrue (b :: mask) = ((if b then 1 else 0) + ctrue mask)%nat.
Proof.
  unfold ctrue. rewrite filter_cons. destruct b; simpl.
  - destruct (decide (true = true)); [reflexivity | congruence].
  - destruct (decide (false = true)); [congruence | reflexivity].
Qed.

Lemma ctrue_le_length mask : (ctrue mask <= length mask)%nat.
Proof. apply length_filter. Qed.

Lemma ctrue_full mask :
  Forall (fun b => b = true) mask -> ctrue mask = length mask.
Proof.
  induction 1 as [|b m Hb _ IH]; [reflexivity|].
  rewrite ctrue_cons, IH, Hb. reflexivity.
Qed.

Lemma ctrue_insert_free mask f :
  mask !! f = Some false -> ctrue (<[f := true]> mask) = S (ctrue mask).
Proof.
  revert f. induction mask as [|b m IH]; intros [|f] Hf; simpl in *; try discriminate.
  - injection Hf as ->. rewrite !ctrue_cons. reflexivity.
  - rewrite !ctrue_cons, (IH f Hf). lia.
Qed.

Lemma ctrue_insert_le mask f b :
  (ctrue (<[f := b]> mask) <= S (ctrue mask))%nat.
Proof.
  revert f. induction mask as [|c m IH]; intros [|f]; simpl; rewrite ?ctrue_cons;
    try lia.
  - destruct b, c; lia.
  - specialize (IH f). lia.
Qed.

Lemma ctrue_mono a b :
  length a = length b ->
  (forall i, a !! i = Some true -> b !! i = Some true) ->
  (ctrue a <= ctrue b)%nat.
Proof.
  revert b. induction a as [|x a IH]; intros [|y b] Hlen Hle; simpl in *;
    try discriminate; [lia|].
  rewrite !ctrue_cons.
  assert (ctrue a <= ctrue b)%nat.
  { apply IH; [lia|]. intros i Hi. exact (Hle (S i) Hi). }
  destruct x; [|lia]. specialize (Hle 0%nat eq_refl). simpl in Hle.
  injection Hle as ->. lia.
Qed.

Lemma ctrue_zip_and m e : (ctrue (zip_with andb m e) <= ctrue m)%nat.
Proof.
  revert e. induction m as [|b m IH]; intros [|c e]; simpl;
    try (change (ctrue []) with 0%nat; lia).
  rewrite !ctrue_cons. specialize (IH e). destruct b, c; simpl; lia.
Qed.

Lemma argmin_lt mask : mask <> [] -> (argmin mask < length mask)%nat.
Proof.
  intros Hne. unfold argmin.
  destruct (list_find _ mask) as [[i b]|] eqn:Hfind.
  - apply list_find_Some in Hfind as (Hi & _). eapply lookup_lt_Some, Hi.
  - destruct mask; [congruence | simpl; lia].
Qed.

Lemma argmin_free mask :
  (ctrue mask < length mask)%nat -> mask !! argmin mask = Some false.
Proof.
  intros Hlt. unfold argmin.
  destruct (list_find _ mask) as [[i b]|] eqn:Hfind.
  - apply list_find_Some in Hfind as (Hi & -> & _). exact Hi.
  - apply list_find_None in Hfind.
    rewrite ctrue_full in Hlt; [lia|].
    eapply Forall_impl; [exact Hfind|]. intros [] ?; congruence.
Qed.

Lemma argmin_first mask j :
  (j < argmin mask)%nat -> mask !! j = Some true.
Proof.
  unfold argmin. destruct (list_find _ mask) as [[i b]|] eqn:Hfind; [|lia].
  apply list_find_Some in Hfind as (Hi & -> & Hmin). intros Hj.
  assert (j < length mask)%nat as Hlen by (apply lookup_lt_Some in Hi; lia).
  destruct (lookup_lt_is_Some_2 _ _ Hlen) as [[] Hb]; [exact Hb|].
  exfalso. exact (Hmin j false Hb Hj eq_refl).
Qed.

(** ** Buffers seen slot by slot *)

Lemma gather_lookup l j : (j < length l)%nat -> l !! j = Some (gather l j).
Proof.
  intros Hj. unfold gather. rewrite Nat.min_l by lia.
  destruct (lookup_lt_is_Some_2 l j Hj) as [v ->]. reflexivity.
Qed.

Lemma gather_insert l i j v :
  (j < length l)%nat ->
  gather (<[i := v]> l) j = if decide (j = i) then v else gather l j.
Proof.
  intros Hj. unfold gather. rewrite length_insert, Nat.min_l by lia.
  case_decide as Hij.
  - subst. rewrite list_lookup_insert_eq by lia. reflexivity.
  - rewrite list_lookup_insert_ne by congruence. reflexivity.
Qed.

Lemma wf_copy_slot sp n f id : wf sp n -> wf (copy_slot f id sp) n.
Proof.
  unfold wf, copy_slot, tree_map. simpl. rewrite !length_insert. tauto.
Qed.

Lemma wf_set_axis sp n ax k i v :
  wf sp n -> wf (set_axis_value sp ax k (<[i := v]> (get_axis_value sp ax k))) n.
Proof.
  unfold wf. destruct sp, ax, k as [|[|k]]; simpl; rewrite ?length_insert; tauto.
Qed.

Lemma slot_copy sp n f id j :
  wf sp n -> (j < n)%nat ->
  tree_slice (copy_slot f id sp) j
  = if decide (j = f) then tree_slice sp id else tree_slice sp j.
Proof.
  intros (H1 & H2 & H3 & H4 & H5 & H6) Hj.
  unfold tree_slice, copy_slot, tree_map. simpl.
  rewrite !gather_insert by lia. case_decide; reflexivity.
Qed.

Lemma slot_set_axis sp n ax k i v j :
  wf sp n -> (j < n)%nat ->
  tree_slice (set_axis_value sp ax k (<[i := v]> (get_axis_value sp ax k))) j
  = if decide (j = i) then set_axis_value (tree_slice sp j) ax k v
    else tree_slice sp j.
Proof.
  intros (H1 & H2 & H3 & H4 & H5 & H6) Hj.
  destruct sp, ax, k as [|[|k]]; unfold tree_slice, tree_map; simpl in *;
    rewrite gather_insert by lia; case_decide; reflexivity.
Qed.

Lemma get_set_axis_same {A} (b : Space A) ax k v :
  get_axis_value (set_axis_value b ax k v) ax k = v.
Proof. destruct ax, k as [|[|k]]; reflexivity. Qed.

Lemma get_axis_slice sp ax k j :
  get_axis_value (tree_slice sp j) ax k = gather (get_axis_value sp ax k) j.
Proof. destruct ax, k as [|[|k]]; reflexivity. Qed.

Lemma set_axis_get {A} (b : Space A) ax k :
  set_axis_value b ax k (get_axis_value b ax k) = b.
Proof. destruct b, ax, k as [|[|k]]; reflexivity. Qed.

Lemma sumZ_S n t : sumZ (S n) t = sumZ n t + t n.
Proof.
  unfold sumZ. rewrite seq_S, foldr_app. simpl.
  generalize (seq 0 n). intros l. induction l as [|i l IH]; simpl; lia.
Qed.

Lemma sumZ_ext n t t' :
  (forall i, (i < n)%nat -> t i = t' i) -> sumZ n t = sumZ n t'.
Proof.
  induction n as [|n IH]; intros Heq; [reflexivity|].
  rewrite !sumZ_S, IH, (Heq n) by (intros; auto with lia). reflexivity.
Qed.

Lemma sumZ_update n t t' k :
  (k < n)%nat -> (forall i, (i < n)%nat -> i <> k -> t' i = t i) ->
  sumZ n t' = sumZ n t - t k + t' k.
Proof.
  induction n as [|n IH]; intros Hk Heq; [lia|].
  rewrite !sumZ_S. destruct (decide (k = n)) as [-> | Hne].
  - rewrite (sumZ_ext n t' t) by (intros; apply Heq; lia). lia.
  - rewrite IH by (intros; try apply Heq; lia).
    rewrite (Heq n) by lia. lia.
Qed.

(** *** Cutting a box along an axis *)

Lemma box_vol_cut b ax s :
  box_vol b = box_vol (cut_hi b ax s) + box_vol (cut_lo b ax s).
Proof. destruct b, ax; unfold box_vol, cut_hi, cut_lo; simpl; ring. Qed.

Lemma box_in_cut_hi c b ax s :
  box_in c b -> get_axis_value b ax 1 <= s <= get_axis_value b ax 2 ->
  box_in c (cut_hi b ax s).
Proof. destruct b, ax; unfold box_in, cut_hi; simpl; lia. Qed.

Lemma box_in_cut_lo c b ax s :
  box_in c b -> get_axis_value b ax 1 <= s <= get_axis_value b ax 2 ->
  box_in c (cut_lo b ax s).
Proof. destruct b, ax; unfold box_in, cut_lo; simpl; lia. Qed.

Lemma box_sep_cut_hi a b ax s :
  box_sep a b -> s <= get_axis_value b ax 2 -> box_sep a (cut_hi b ax s).
Proof. destruct b, ax; unfold box_sep, cut_hi; simpl; lia. Qed.

Lemma box_sep_cut_lo a b ax s :
  box_sep a b -> get_axis_value b ax 1 <= s -> box_sep a (cut_lo b ax s).
Proof. destruct b, ax; unfold box_sep, cut_lo; simpl; lia. Qed.

Lemma box_sep_sym a b : box_sep a b -> box_sep b a.
Proof. unfold box_sep. lia. Qed.

Lemma box_sep_cut_cut b ax s : box_sep (cut_hi b ax s) (cut_lo b ax s).
Proof. destruct b, ax; unfold box_sep, cut_hi, cut_lo; simpl; lia. Qed.

Lemma box_vol_thin b ax :
  get_axis_value b ax 1 = get_axis_value b ax 2 -> box_vol b = 0.
Proof. destruct b, ax; unfold box_vol; simpl; intros ->; ring. Qed.

(** *** Steps that keep a tiling *)

Section TilingSteps.

Variable c : Space Z.

Lemma live_lt mask i : live mask i -> (i < length mask)%nat.
Proof. apply lookup_lt_Some. Qed.

(** Shortening a live box leaves the cut-off part pending. *)
Lemma tiling_shrink boxes boxes' mask id ax s :
  tiling c boxes mask -> live mask id ->
  get_axis_value (boxes id) ax 1 <= s <= get_axis_value (boxes id) ax 2 ->
  boxes' id = cut_hi (boxes id) ax s ->
  (forall j, (j < length mask)%nat -> j <> id -> boxes' j = boxes j) ->
  tiling_with c (cut_lo (boxes id) ax s) boxes' mask.
Proof.
  intros [Hin Hsep Hvol] Hid Hs Hid' Hother.
  assert (Hbox : forall j, live mask j ->
    boxes' j = if decide (j = id) then cut_hi (boxes id) ax s else boxes j).
  { intros j Hj. case_decide; [subst; exact Hid' | apply Hother; [eapply live_lt, Hj | done]]. }
  split.
  - intros j Hj. rewrite (Hbox j Hj). case_decide.
    + apply box_in_cut_hi; auto.
    + auto.
  - intros i j Hij Hi Hj. rewrite (Hbox i Hi), (Hbox j Hj).
    repeat case_decide; subst; try congruence.
    + apply box_sep_sym, box_sep_cut_hi; [apply Hsep; auto | lia].
    + apply box_sep_cut_hi; [apply Hsep; auto | lia].
    + apply Hsep; auto.
  - intros j Hj. rewrite (Hbox j Hj). case_decide.
    + apply box_sep_cut_cut.
    + apply box_sep_cut_lo; [apply Hsep; auto | lia].
  - apply box_in_cut_lo; auto.
  - rewrite <- Hvol. unfold live_volume.
    rewrite (sumZ_update _ (fun i => match mask !! i with Some true => box_vol (boxes i) | _ => 0 end) _ id).
    + unfold live in Hid. rewrite Hid, Hid'.
      rewrite (box_vol_cut (boxes id) ax s). lia.
    + eapply live_lt, Hid.
    + intros i Hi Hne. rewrite (Hother i Hi Hne). reflexivity.
Qed.

(** Writing the lower part of the pending box into a free slot. *)
Lemma tiling_add_piece r boxes boxes' mask f ax s :
  tiling_with c r boxes mask -> mask !! f = Some false ->
  get_axis_value r ax 1 <= s <= get_axis_value r ax 2 ->
  boxes' f = cut_hi r ax s ->
  (forall j, (j < length mask)%nat -> j <> f -> boxes' j = boxes j) ->
  tiling_with c (cut_lo r ax s) boxes' (<[f := true]> mask).
Proof.
  intros [Hin Hsep HsepR HRin Hvol] Hf Hs Hf' Hother.
  assert (Hflt : (f < length mask)%nat) by (eapply lookup_lt_Some, Hf).
  assert (Hlive : forall j, live (<[f := true]> mask) j ->
    (j = f /\ boxes' j = cut_hi r ax s) \/ (j <> f /\ live mask j /\ boxes' j = boxes j)).
  { intros j Hj. unfold live in *. destruct (decide (j = f)) as [-> | Hne].
    - left. auto.
    - right. rewrite list_lookup_insert_ne in Hj by congruence.
      split; [done|]. split; [done|]. apply Hother; [eapply lookup_lt_Some, Hj | done]. }
  split.
  - intros j Hj. destruct (Hlive j Hj) as [[-> ->] | (_ & Hj' & ->)].
    + apply box_in_cut_hi; auto.
    + auto.
  - intros i j Hij Hi Hj.
    destruct (Hlive i Hi) as [[-> ->] | (_ & Hi' & ->)],
             (Hlive j Hj) as [[-> ->] | (_ & Hj' & ->)]; try congruence.
    + apply box_sep_sym, box_sep_cut_hi; [auto | lia].
    + apply box_sep_cut_hi; [auto | lia].
    + auto.
  - intros j Hj. destruct (Hlive j Hj) as [[-> ->] | (_ & Hj' & ->)].
    + apply box_sep_cut_cut.
    + apply box_sep_cut_lo; [auto | lia].
  - apply box_in_cut_lo; auto.
  - rewrite <- Hvol. unfold live_volume. rewrite length_insert.
    rewrite (sumZ_update _ (fun i => match mask !! i with Some true => box_vol (boxes i) | _ => 0 end) _ f).
    + rewrite Hf, list_lookup_insert_eq, Hf' by lia.
      rewrite (box_vol_cut r ax s). lia.
    + exact Hflt.
    + intros i Hi Hne. rewrite list_lookup_insert_ne by congruence.
      rewrite (Hother i Hi Hne). reflexivity.
Qed.

(** Nothing is pending once the pending box has no volume. *)
Lemma tiling_with_done r boxes mask :
  tiling_with c r boxes mask -> box_vol r = 0 -> tiling c boxes mask.
Proof. intros [Hin Hsep _ _ Hvol] H0. split; auto. lia. Qed.

(** Clearing the mask of boxes without volume. *)
Lemma tiling_clear boxes mask mask' :
  tiling c boxes mask -> length mask' = length mask ->
  (forall i, live mask' i -> live mask i) ->
  (forall i, live mask i -> ~ live mask' i -> box_vol (boxes i) = 0) ->
  tiling c boxes mask'.
Proof.
  intros [Hin Hsep Hvol] Hlen Hsub Hzero. split; auto.
  rewrite <- Hvol. unfold live_volume. rewrite Hlen. apply sumZ_ext.
  intros i Hi. unfold live in *.
  destruct (mask' !! i) as [[]|] eqn:H'.
  - rewrite (Hsub i H'). reflexivity.
  - destruct (mask !! i) as [[]|] eqn:Hm; try reflexivity.
    symmetry. apply Hzero; [exact Hm | congruence].
  - destruct (mask !! i) as [[]|] eqn:Hm; try reflexivity.
    symmetry. apply Hzero; [exact Hm | congruence].
Qed.

End TilingSteps.

(** ** Exact arithmetic on small operands *)

Lemma wrap_small z : Int32.in_range z -> Int32.wrap z = z.
Proof.
  unfold Int32.in_range, Int32.min_int, Int32.max_int, Int32.wrap. intros Hz.
  rewrite Z.mod_small; lia.
Qed.

Lemma small_in_range z : - 2 ^ 24 <= z <= 2 ^ 24 -> Int32.in_range z.
Proof. unfold Int32.in_range, Int32.min_int, Int32.max_int. lia. Qed.

Lemma quotient_exact i len n d :
  0 <= len <= d -> 1 <= n < 2 ^ 24 -> n * d < 2 ^ 24 -> 0 <= i <= n ->
  int32_quotient (Int32.mul i len) n = (i * len) / n.
Proof.
  intros Hlen Hn Hd Hi. unfold int32_quotient, Int32.mul.
  assert (0 <= i * len <= n * d) by nia.
  rewrite wrap_small by (apply small_in_range; lia).
  apply div_trunc_exact; lia.
Qed.

Lemma quotient_exact_1 len n d :
  0 <= len <= d -> 1 <= n < 2 ^ 24 -> n * d < 2 ^ 24 ->
  int32_quotient len n = (1 * len) / n.
Proof.
  intros Hlen Hn Hd. unfold int32_quotient. rewrite Z.mul_1_l.
  apply div_trunc_exact; nia.
Qed.

Lemma quotient_bounds i len n :
  0 <= len -> 1 <= n -> 0 <= i <= n -> 0 <= (i * len) / n <= len.
Proof.
  intros Hlen Hn Hi. split.
  - apply Z.div_pos; nia.
  - apply Z.div_le_upper_bound; nia.
Qed.

Lemma quotient_mono i len n :
  0 <= len -> 1 <= n -> 0 <= i -> (i * len) / n <= ((i + 1) * len) / n.
Proof. intros. apply Z.div_le_mono; nia. Qed.

Lemma quotient_full len n : 1 <= n -> (n * len) / n = len.
Proof. intros. rewrite Z.mul_comm. apply Z.div_mul. lia. Qed.

(** ** Marking slots *)

Lemma mark_all_snoc mask fs f :
  mark_all mask (fs ++ [f]) = <[f := true]> (mark_all mask fs).
Proof. unfold mark_all. rewrite foldl_app. reflexivity. Qed.

Lemma length_mark_all mask fs : length (mark_all mask fs) = length mask.
Proof.
  revert mask. induction fs as [|f fs IH]; intros mask; simpl; [reflexivity|].
  rewrite IH, length_insert. reflexivity.
Qed.

Lemma lookup_mark_all mask fs j :
  (forall f, f ∈ fs -> (f < length mask)%nat) ->
  mark_all mask fs !! j = if decide (j ∈ fs) then Some true else mask !! j.
Proof.
  revert mask. induction fs as [|f fs IH]; intros mask Hlt; simpl.
  - destruct (decide (j ∈ [])) as [Hin | _]; [by apply elem_of_nil in Hin | reflexivity].
  - rewrite IH.
    2:{ intros g Hg. rewrite length_insert. apply Hlt, elem_of_cons. right. exact Hg. }
    destruct (decide (j ∈ fs)) as [Hin | Hnin].
    + rewrite decide_True by (apply elem_of_cons; right; exact Hin). reflexivity.
    + destruct (decide (j = f)) as [-> | Hne].
      * rewrite decide_True by (apply elem_of_cons; left; reflexivity).
        apply list_lookup_insert_eq. apply Hlt, elem_of_cons. left; reflexivity.
      * rewrite decide_False by (rewrite elem_of_cons; tauto).
        apply list_lookup_insert_ne. congruence.
Qed.

Lemma ctrue_mark_all mask fs :
  NoDup fs -> (forall f, f ∈ fs -> mask !! f = Some false) ->
  ctrue (mark_all mask fs) = (ctrue mask + length fs)%nat.
Proof.
  revert mask. induction fs as [|f fs IH]; intros mask Hnd Hfree; simpl; [lia|].
  apply NoDup_cons in Hnd as [Hnin Hnd'].
  rewrite IH; [| exact Hnd' |].
  - rewrite ctrue_insert_free by (apply Hfree, elem_of_cons; left; reflexivity). lia.
  - intros g Hg. rewrite list_lookup_insert_ne.
    + apply Hfree, elem_of_cons. right. exact Hg.
    + intros ->. tauto.
Qed.

Lemma cut_hi_cut_lo_cut_hi b ax s v1 v2 :
  cut_hi (cut_lo (cut_hi b ax s) ax v1) ax v2 = cut_hi (cut_lo b ax v1) ax v2.
Proof. destruct b, ax; reflexivity. Qed.

Lemma cut_hi_self b ax : cut_hi b ax (get_axis_value b ax 2) = b.
Proof. apply set_axis_get. Qed.

Lemma cut_lo_lo b ax s : get_axis_value (cut_lo b ax s) ax 1 = s.
Proof. apply get_set_axis_same. Qed.

Lemma cut_lo_hi b ax s : get_axis_value (cut_lo b ax s) ax 2 = get_axis_value b ax 2.
Proof. destruct b, ax; reflexivity. Qed.

Lemma cut_lo_cut_lo b ax s s' : cut_lo (cut_lo b ax s) ax s' = cut_lo b ax s'.
Proof. destruct b, ax; reflexivity. Qed.

(** ** What a split does to the buffer *)

Section SplitSpec.

Variables (sp : Space (list Z)) (mask : list bool) (N id : nat) (ax : Axis).
Hypothesis Hwf : wf sp N.
Hypothesis Hlen : length mask = N.
Hypothesis Hid : live mask id.

Let B := tree_slice sp id.
Let a := get_axis_value B ax 1.
Let b := get_axis_value B ax 2.

Lemma id_lt : (id < N)%nat.
Proof. rewrite <- Hlen. eapply lookup_lt_Some, Hid. Qed.

(** Writing one more part into the first free slot. *)
Lemma split_result_step sigma fs sp_i mask_i v1 v2 :
  split_result sp mask N id ax sigma fs (sp_i, mask_i) ->
  (ctrue mask + length fs < N)%nat ->
  v1 = sigma (S (length fs)) -> v2 = sigma (S (S (length fs))) ->
  let f := argmin mask_i in
  let sp1 := copy_slot f id sp_i in
  let sp2 := set_axis_value sp1 ax 1 (<[f := v1]> (get_axis_value sp1 ax 1)) in
  let sp3 := set_axis_value sp2 ax 2 (<[f := v2]> (get_axis_value sp2 ax 2)) in
  split_result sp mask N id ax sigma (fs ++ [f]) (sp3, <[f := true]> mask_i).
Proof.
  intros (Hnd & Hfree & Hwf_i & Hmask & Hslot_id & Hslots & Hrest) Hroom -> ->.
  simpl in Hwf_i, Hmask, Hslot_id, Hslots, Hrest. subst mask_i.
  intros f sp1 sp2 sp3.
  assert (Hfs_lt : forall g, g ∈ fs -> (g < length mask)%nat).
  { intros g Hg. eapply lookup_lt_Some, Hfree, Hg. }
  assert (Hf : mark_all mask fs !! f = Some false).
  { apply argmin_free. rewrite ctrue_mark_all, length_mark_all by assumption. lia. }
  assert (Hf_nin : f ∉ fs).
  { intros Hin. rewrite lookup_mark_all, decide_True in Hf by assumption. discriminate. }
  assert (Hf_free : mask !! f = Some false).
  { rewrite lookup_mark_all, decide_False in Hf by assumption. exact Hf. }
  assert (Hf_lt : (f < N)%nat) by (rewrite <- Hlen; eapply lookup_lt_Some, Hf_free).
  assert (Hf_id : f <> id) by (intros ->; unfold live in Hid; congruence).
  assert (Hwf1 : wf sp1 N) by apply wf_copy_slot, Hwf_i.
  assert (Hwf2 : wf sp2 N) by apply wf_set_axis, Hwf1.
  assert (Hwf3 : wf sp3 N) by apply wf_set_axis, Hwf2.
  assert (Hslot3 : forall j, (j < N)%nat ->
    tree_slice sp3 j
    = if decide (j = f)
      then cut_hi (cut_lo B ax (sigma (S (length fs)))) ax (sigma (S (S (length fs))))
      else tree_slice sp_i j).
  { intros j Hj. unfold sp3. rewrite (slot_set_axis _ N) by assumption.
    unfold sp2. rewrite (slot_set_axis _ N) by assumption.
    unfold sp1. rewrite (slot_copy _ N) by assumption.
    destruct (decide (j = f)) as [-> | Hne]; [|reflexivity].
    rewrite Hslot_id. apply cut_hi_cut_lo_cut_hi. }
  repeat split; simpl.
  - apply NoDup_app. split; [exact Hnd|]. split.
    + intros g Hg Hg'. apply list_elem_of_singleton in Hg'. subst. tauto.
    + apply NoDup_singleton.
  - intros g Hg. apply elem_of_app in Hg as [Hg | Hg]; [auto|].
    apply list_elem_of_singleton in Hg. subst. exact Hf_free.
  - apply Hwf3.
  - apply Hwf3.
  - apply Hwf3.
  - apply Hwf3.
  - apply Hwf3.
  - apply Hwf3.
  - symmetry. apply mark_all_snoc.
  - rewrite Hslot3 by apply id_lt. rewrite decide_False by congruence. exact Hslot_id.
  - intros k g Hk.
    assert (Hg_lt : (g < N)%nat).
    { rewrite <- Hlen. destruct (decide (g = f)) as [-> | ?]; [lia|].
      apply Hfs_lt. apply list_elem_of_lookup_2 in Hk.
      apply elem_of_app in Hk as [Hk | Hk]; [exact Hk|].
      apply list_elem_of_singleton in Hk. congruence. }
    rewrite Hslot3 by exact Hg_lt.
    apply lookup_app_Some in Hk as [Hk | [Hge Hk]].
    + rewrite decide_False.
      * apply Hslots, Hk.
      * intros ->. apply Hf_nin. eapply list_elem_of_lookup_2, Hk.
    + apply list_lookup_singleton_Some in Hk as [Hk0 ->].
      rewrite decide_True by reflexivity.
      replace k with (length fs) by lia. reflexivity.
  - intros j Hj Hjid Hjnin. rewrite Hslot3 by exact Hj.
    rewrite decide_False.
    + apply Hrest; [exact Hj | exact Hjid |].
      intros Hin. apply Hjnin, elem_of_app. left. exact Hin.
    + intros ->. apply Hjnin, elem_of_app. right. apply list_elem_of_singleton. reflexivity.
Qed.

End SplitSpec.

Lemma add_small a b : - 2 ^ 24 <= a + b <= 2 ^ 24 -> Int32.add a b = a + b.
Proof. intros. unfold Int32.add. apply wrap_small, small_in_range. lia. Qed.

Lemma sub_small a b : - 2 ^ 24 <= a - b <= 2 ^ 24 -> Int32.sub a b = a - b.
Proof. intros. unfold Int32.sub. apply wrap_small, small_in_range. lia. Qed.

(** ** The split into several parts *)

(** Whatever the machine computes for the cut points, as long as [sigma]
    names them. *)
Section MultiSplit.

Variables (sp : Space (list Z)) (mask : list bool) (N id : nat) (ax : Axis).
Hypothesis Hwf : wf sp N.
Hypothesis Hlen : length mask = N.
Hypothesis Hid : live mask id.

Let B := tree_slice sp id.
Let a := get_axis_value B ax 1.

Variables (n len : Z) (sigma : nat -> Z).
Hypothesis Hn : 1 <= n < 2 ^ 24.
Hypothesis Hsig1 : Int32.add a (int32_quotient len n) = sigma 1%nat.
Hypothesis Hsig : forall i, 1 <= i <= n ->
  Int32.add a (int32_quotient (Int32.mul i len) n) = sigma (Z.to_nat i).
Hypothesis Hroom : (ctrue mask + Z.to_nat (n - 1) <= N)%nat.

Lemma multi_loop m : forall fs carry,
  split_result sp mask N id ax sigma fs carry ->
  (length fs + m = Z.to_nat (n - 1))%nat ->
  exists fs', length fs' = (length fs + m)%nat /\
    split_result sp mask N id ax sigma fs'
      (fori_iter m (Z.of_nat (length fs) + 1)
         (body_fn ax len id a n) carry).
Proof.
  induction m as [|m IH]; intros fs [sp_i mask_i] Hres Hm.
  - exists fs. split; [lia | exact Hres].
  - cbn [fori_iter].
    set (i := Z.of_nat (length fs) + 1).
    assert (Hi : 1 <= i < n) by lia.
    assert (Hstep := split_result_step sp mask N id ax Hwf Hlen Hid sigma fs
                       sp_i mask_i
                       (Int32.add a (int32_quotient (Int32.mul i len) n))
                       (Int32.add a (int32_quotient (Int32.mul (Int32.add i 1) len) n))
                       Hres ltac:(lia)).
    rewrite (add_small i 1) in * by lia.
    rewrite (Hsig i), (Hsig (i + 1)) in Hstep by lia.
    specialize (Hstep ltac:(f_equal; lia) ltac:(f_equal; lia)).
    cbv zeta in Hstep.
    destruct (IH (fs ++ [argmin mask_i]) _ Hstep) as (fs' & Hlen' & Hres').
    { rewrite length_app. simpl. lia. }
    exists fs'. split.
    + rewrite Hlen', length_app. simpl. lia.
    + rewrite length_app in Hres'. simpl in Hres'.
      replace (Z.of_nat (length fs + 1) + 1) with (i + 1) in Hres' by lia.
      unfold body_fn. rewrite (add_small i 1) by lia.
      rewrite (Hsig i), (Hsig (i + 1)) by lia.
      exact Hres'.
Qed.

(** The whole of [split_item_into]. *)
Lemma split_item_into_cuts :
  exists fs, length fs = Z.to_nat (n - 1) /\
    split_result sp mask N id ax sigma fs
      (split_item_into n B ax len id sp mask).
Proof.
  unfold split_item_into, fori_loop. fold a.
  destruct (multi_loop (Z.to_nat (n - 1)) []
              (set_axis_value sp ax 2
                 (<[id := Int32.add a (int32_quotient len n)]>
                    (get_axis_value sp ax 2)), mask))
    as (fs & Hfs & Hres).
  - repeat split; simpl; try apply wf_set_axis, Hwf.
    + apply NoDup_nil_2.
    + intros f Hf. by apply elem_of_nil in Hf.
    + rewrite (slot_set_axis _ N) by (try apply (id_lt mask N id); assumption).
      rewrite decide_True by reflexivity.
      rewrite Hsig1. reflexivity.
    + intros k f Hk. discriminate.
    + intros j Hj Hne _. rewrite (slot_set_axis _ N) by assumption.
      rewrite decide_False by exact Hne. reflexivity.
  - simpl. lia.
  - exists fs. split; [simpl in Hfs; lia|]. exact Hres.
Qed.

End MultiSplit.

(** Within the exact range the cut points are the floor quotients. *)
Section ExactSplit.

Variables (sp : Space (list Z)) (mask : list bool) (N id : nat) (ax : Axis).
Hypothesis Hwf : wf sp N.
Hypothesis Hlen : length mask = N.
Hypothesis Hid : live mask id.

Let B := tree_slice sp id.
Let a := get_axis_value B ax 1.
Let b := get_axis_value B ax 2.

Variables (n d : Z).
Hypothesis Ha : 0 <= a.
Hypothesis Hab : a <= b.
Hypothesis Hb : b <= d.
Hypothesis Hn : 1 <= n < 2 ^ 24.
Hypothesis Hnd : n * d < 2 ^ 24.
Hypothesis Hroom : (ctrue mask + Z.to_nat (n - 1) <= N)%nat.

Lemma multi_cut_exact i :
  0 <= i <= n ->
  Int32.add a (int32_quotient (Int32.mul i (b - a)) n)
  = multi_cut sp id ax n (Z.to_nat i).
Proof.
  intros Hi. unfold multi_cut; cbv zeta; fold B a b. rewrite Z2Nat.id by lia.
  rewrite (quotient_exact i (b - a) n d) by lia.
  pose proof (quotient_bounds i (b - a) n ltac:(lia) ltac:(lia) Hi).
  apply add_small. nia.
Qed.

Lemma split_item_into_spec :
  exists fs, length fs = Z.to_nat (n - 1) /\
    split_result sp mask N id ax (multi_cut sp id ax n) fs
      (split_item_into n B ax (b - a) id sp mask).
Proof.
  apply (split_item_into_cuts sp mask N id ax Hwf Hlen Hid n (b - a)
           (multi_cut sp id ax n) Hn); [| | exact Hroom].
  - fold B a. unfold multi_cut; cbv zeta; fold B a b.
    rewrite (quotient_exact_1 (b - a) n d) by lia.
    pose proof (quotient_bounds 1 (b - a) n ltac:(lia) ltac:(lia) ltac:(lia)).
    rewrite add_small by nia. reflexivity.
  - fold B a. intros i Hi. apply multi_cut_exact. lia.
Qed.

End ExactSplit.

Lemma tiling_with_ext c r boxes boxes' mask :
  tiling_with c r boxes mask ->
  (forall j, (j < length mask)%nat -> boxes' j = boxes j) ->
  tiling_with c r boxes' mask.
Proof.
  intros [Hin Hsep HsepR HRin Hvol] Heq.
  assert (Hl : forall j, live mask j -> boxes' j = boxes j).
  { intros j Hj. apply Heq. eapply lookup_lt_Some, Hj. }
  split; auto.
  - intros j Hj. rewrite (Hl j Hj). auto.
  - intros i j Hij Hi Hj. rewrite (Hl i Hi), (Hl j Hj). auto.
  - intros j Hj. rewrite (Hl j Hj). auto.
  - rewrite <- Hvol. unfold live_volume. f_equal. apply sumZ_ext. intros i Hi.
    rewrite (Heq i Hi). reflexivity.
Qed.

(** Writing the parts of the pending box into free slots, one after the
    other. *)
Lemma tiling_add_pieces c B ax (sigma : nat -> Z) fs : forall k0 boxes boxes' mask,
  tiling_with c (cut_lo B ax (sigma k0)) boxes mask ->
  NoDup fs -> (forall f, f ∈ fs -> mask !! f = Some false) ->
  (forall t, (t < length fs)%nat -> sigma (k0 + t)%nat <= sigma (S (k0 + t))) ->
  sigma (k0 + length fs)%nat <= get_axis_value B ax 2 ->
  (forall t f, fs !! t = Some f ->
     boxes' f = cut_hi (cut_lo B ax (sigma (k0 + t)%nat)) ax (sigma (S (k0 + t)))) ->
  (forall j, (j < length mask)%nat -> j ∉ fs -> boxes' j = boxes j) ->
  tiling_with c (cut_lo B ax (sigma (k0 + length fs)%nat)) boxes' (mark_all mask fs).
Proof.
  induction fs as [|f fs IH]; intros k0 boxes boxes' mask Ht Hnd Hfree Hmono Hend Hpieces Hrest.
  - simpl. rewrite Nat.add_0_r. apply (tiling_with_ext c _ boxes); [exact Ht|].
    intros j Hj. apply Hrest; [exact Hj|]. intros Hin. by apply elem_of_nil in Hin.
  - apply NoDup_cons in Hnd as [Hnin Hnd].
    assert (Hf : mask !! f = Some false) by (apply Hfree, elem_of_cons; left; reflexivity).
    assert (Hchain : forall t, (t <= length fs)%nat ->
              sigma (k0 + t)%nat <= sigma (k0 + S (length fs))%nat).
    { intros t Ht'. remember (length fs - t)%nat as u eqn:Hu.
      revert t Ht' Hu. induction u as [|u IHu]; intros t Ht' Hu.
      - replace t with (length fs) by lia.
        specialize (Hmono (length fs) ltac:(simpl; lia)).
        replace (k0 + S (length fs))%nat with (S (k0 + length fs)) by lia. exact Hmono.
      - specialize (IHu (S t) ltac:(lia) ltac:(lia)).
        specialize (Hmono t ltac:(simpl; lia)).
        replace (k0 + S t)%nat with (S (k0 + t)) in IHu by lia. lia. }
    simpl in Hend.
    set (boxes1 := fun j => if decide (j = f) then boxes' f else boxes j).
    assert (H1 : tiling_with c (cut_lo (cut_lo B ax (sigma k0)) ax (sigma (S k0)))
                   boxes1 (<[f := true]> mask)).
    { apply (tiling_add_piece c _ boxes); [exact Ht | exact Hf | | |].
      - rewrite cut_lo_lo, cut_lo_hi.
        specialize (Hmono 0%nat ltac:(simpl; lia)). rewrite Nat.add_0_r in Hmono.
        specialize (Hchain 1%nat). pose proof (Hchain0 := Hchain).
        split; [exact Hmono|].
        destruct fs as [|g fs'].
        + simpl in *. replace (k0 + 1)%nat with (S k0) in Hend by lia. exact Hend.
        + specialize (Hchain ltac:(simpl; lia)).
          replace (k0 + 1)%nat with (S k0) in Hchain by lia. lia.
      - unfold boxes1. rewrite decide_True by reflexivity.
        specialize (Hpieces 0%nat f eq_refl). rewrite Nat.add_0_r in Hpieces. exact Hpieces.
      - intros j Hj Hne. unfold boxes1. rewrite decide_False by exact Hne. reflexivity. }
    rewrite cut_lo_cut_lo in H1.
    simpl. replace (k0 + S (length fs))%nat with (S k0 + length fs)%nat by lia.
    apply (IH (S k0) boxes1).
    + exact H1.
    + exact Hnd.
    + intros g Hg. rewrite list_lookup_insert_ne by (intros ->; tauto).
      apply Hfree, elem_of_cons. right. exact Hg.
    + intros t Ht'. specialize (Hmono (S t) ltac:(simpl; lia)).
      replace (S k0 + t)%nat with (k0 + S t)%nat by lia. exact Hmono.
    + replace (S k0 + length fs)%nat with (k0 + S (length fs))%nat by lia. exact Hend.
    + intros t g Hg. specialize (Hpieces (S t) g Hg).
      replace (S k0 + t)%nat with (k0 + S t)%nat by lia. exact Hpieces.
    + intros j Hj Hjnin. unfold boxes1. rewrite length_insert in Hj.
      destruct (decide (j = f)) as [-> | Hne]; [reflexivity|].
      apply Hrest; [exact Hj|]. rewrite elem_of_cons. tauto.
Qed.

Lemma exists_increase (tau : nat -> Z) L :
  tau 0%nat < tau L -> exists k, (k < L)%nat /\ tau k < tau (S k).
Proof.
  induction L as [|L IH]; intros Hlt; [lia|].
  destruct (Z_lt_le_dec (tau L) (tau (S L))) as [Hl | Hl].
  - exists L. split; [lia | exact Hl].
  - destruct IH as (k & Hk & Hk'); [lia|]. exists k. split; [lia | exact Hk'].
Qed.

Lemma box_nonempty_cut B ax s1 s2 :
  box_nonempty B -> s1 < s2 -> box_nonempty (cut_hi (cut_lo B ax s1) ax s2).
Proof. destruct B, ax; unfold box_nonempty, cut_hi, cut_lo; simpl; lia. Qed.

Lemma cut_hi_cut_lo_self B ax s :
  cut_hi (cut_lo B ax (get_axis_value B ax 1)) ax s = cut_hi B ax s.
Proof. destruct B, ax; reflexivity. Qed.

(** ** A split keeps the tiling *)

Section SplitTiling.

Variables (c : Space Z) (sp : Space (list Z)) (mask : list bool) (N id : nat)
          (ax : Axis).
Hypothesis Hwf : wf sp N.
Hypothesis Hlen : length mask = N.
Hypothesis Hid : live mask id.
Hypothesis Htiling : tiling c (tree_slice sp) mask.
Hypothesis Hnonempty : forall i, live mask i -> box_nonempty (tree_slice sp i).

Let B := tree_slice sp id.
Let a := get_axis_value B ax 1.
Let b := get_axis_value B ax 2.

Variables (sigma : nat -> Z) (fs : list nat) (carry : Space (list Z) * list bool).
Hypothesis Hres : split_result sp mask N id ax sigma fs carry.
Hypothesis Hsigma0 : sigma 0%nat = a.
Hypothesis Hmono : forall k, (k <= length fs)%nat -> sigma k <= sigma (S k).
Hypothesis Hend : sigma (S (length fs)) = b.

Lemma fs_lt f : f ∈ fs -> (f < length mask)%nat.
Proof.
  intros Hf. destruct Hres as (_ & Hfree & _). eapply lookup_lt_Some, Hfree, Hf.
Qed.

Lemma sigma_le_end k : (k <= S (length fs))%nat -> sigma k <= b.
Proof.
  intros Hk. rewrite <- Hend. remember (S (length fs) - k)%nat as u eqn:Hu.
  revert k Hk Hu. induction u as [|u IH]; intros k Hk Hu.
  - replace k with (S (length fs)) by lia. lia.
  - specialize (IH (S k) ltac:(lia) ltac:(lia)).
    specialize (Hmono k ltac:(lia)). lia.
Qed.

Lemma split_keeps_length : length (snd carry) = N.
Proof.
  destruct Hres as (_ & _ & _ & -> & _). rewrite length_mark_all. exact Hlen.
Qed.

Lemma split_keeps_tiling : tiling c (tree_slice (fst carry)) (snd carry).
Proof.
  destruct Hres as (Hnd & Hfree & Hwf' & Hmask & Hslot_id & Hslots & Hrest).
  rewrite Hmask.
  set (boxes0 := fun j => if decide (j = id) then cut_hi B ax (sigma 1%nat)
                          else tree_slice sp j).
  assert (H0 : tiling_with c (cut_lo B ax (sigma 1%nat)) boxes0 mask).
  { apply (tiling_shrink c (tree_slice sp)); [exact Htiling | exact Hid | | |].
    - fold B. fold a. fold b. rewrite <- Hsigma0. split.
      + apply Hmono. lia.
      + apply sigma_le_end. lia.
    - unfold boxes0. rewrite decide_True by reflexivity. reflexivity.
    - intros j _ Hne. unfold boxes0. rewrite decide_False by exact Hne. reflexivity. }
  assert (H1 := tiling_add_pieces c B ax sigma fs 1%nat boxes0
                  (tree_slice (fst carry)) mask H0 Hnd Hfree).
  apply (tiling_with_done c (cut_lo B ax (sigma (1 + length fs)%nat))).
  - apply H1.
    + intros t Ht. apply (Hmono (S t)). lia.
    + fold b. apply sigma_le_end. lia.
    + intros t f Hf. apply Hslots, Hf.
    + intros j Hj Hjnin. unfold boxes0. destruct (decide (j = id)) as [-> | Hne].
      * exact Hslot_id.
      * apply Hrest; [lia | exact Hne | exact Hjnin].
  - apply (box_vol_thin _ ax). rewrite cut_lo_lo, cut_lo_hi.
    simpl. fold B. fold b. exact Hend.
Qed.

Lemma split_keeps_others j :
  live mask j -> j <> id ->
  live (snd carry) j /\ tree_slice (fst carry) j = tree_slice sp j.
Proof.
  intros Hj Hne.
  destruct Hres as (Hnd & Hfree & Hwf' & Hmask & Hslot_id & Hslots & Hrest).
  assert (Hjnin : j ∉ fs).
  { intros Hin. apply Hfree in Hin. unfold live in Hj. congruence. }
  split.
  - unfold live. rewrite Hmask, lookup_mark_all by apply fs_lt.
    rewrite decide_False by exact Hjnin. exact Hj.
  - apply Hrest; [|exact Hne | exact Hjnin].
    rewrite <- Hlen. eapply lookup_lt_Some, Hj.
Qed.

Lemma split_count : ctrue (snd carry) = (ctrue mask + length fs)%nat.
Proof.
  destruct Hres as (Hnd & Hfree & _ & -> & _). apply ctrue_mark_all; assumption.
Qed.

(** Some part of a box that is not empty is not empty. *)
Lemma split_leaves_part :
  exists w, live (snd carry) w /\ (w = id \/ ~ live mask w) /\
            box_nonempty (tree_slice (fst carry) w).
Proof.
  destruct Hres as (Hnd & Hfree & Hwf' & Hmask & Hslot_id & Hslots & Hrest).
  assert (HB : box_nonempty B) by apply Hnonempty, Hid.
  assert (Hab : a < b).
  { unfold a, b. destruct ax, B; unfold box_nonempty in HB; simpl in *; lia. }
  destruct (exists_increase sigma (S (length fs))) as (k & Hk & Hinc).
  { rewrite Hsigma0, Hend. exact Hab. }
  destruct k as [|k].
  - exists id. split; [|split; [left; reflexivity|]].
    + unfold live. rewrite Hmask, lookup_mark_all by apply fs_lt.
      rewrite decide_False; [exact Hid|].
      intros Hin. apply Hfree in Hin. unfold live in Hid. congruence.
    + rewrite Hslot_id, <- (cut_hi_cut_lo_self B ax).
      apply box_nonempty_cut; [exact HB|]. fold a. rewrite <- Hsigma0. exact Hinc.
  - destruct (lookup_lt_is_Some_2 fs k ltac:(lia)) as [f Hf].
    assert (Hfin : f ∈ fs) by (eapply list_elem_of_lookup_2, Hf).
    exists f. split; [|split].
    + unfold live. rewrite Hmask, lookup_mark_all by apply fs_lt.
      rewrite decide_True by exact Hfin. reflexivity.
    + right. unfold live. rewrite (Hfree f Hfin). discriminate.
    + rewrite (Hslots k f Hf). apply box_nonempty_cut; [exact HB | exact Hinc].
Qed.

End SplitTiling.

Lemma ctrue_insert_live mask i :
  mask !! i = Some true -> S (ctrue (<[i := false]> mask)) = ctrue mask.
Proof.
  revert i. induction mask as [|b m IH]; intros [|i] Hi; simpl in *; try discriminate.
  - injection Hi as ->. rewrite !ctrue_cons. reflexivity.
  - rewrite !ctrue_cons, <- (IH i Hi). lia.
Qed.

Lemma ctrue_pos_live mask : (1 <= ctrue mask)%nat -> exists j, live mask j.
Proof.
  induction mask as [|b m IH]; [unfold ctrue; simpl; lia|].
  rewrite ctrue_cons. destruct b.
  - intros _. exists 0%nat. reflexivity.
  - intros Hm. destruct (IH ltac:(simpl in Hm; lia)) as [j Hj]. exists (S j). exact Hj.
Qed.

(** Moving one mark does not lower the count. *)
Lemma count_swap m m' id w :
  length m' = length m -> live m id -> live m' w ->
  (w = id \/ ~ live m w) ->
  (forall j, live m j -> j <> id -> live m' j) ->
  (ctrue m <= ctrue m')%nat.
Proof.
  intros Hlen Hid Hw Hcase Hrest.
  destruct (decide (w = id)) as [-> | Hne].
  - apply ctrue_mono; [congruence|]. intros j Hj.
    destruct (decide (j = id)) as [-> | Hj']; [exact Hw | apply Hrest; assumption].
  - destruct Hcase as [? | Hnl]; [congruence|].
    assert (Hwlt : (w < length m)%nat).
    { rewrite <- Hlen. eapply lookup_lt_Some, Hw. }
    assert (Hmw : m !! w = Some false).
    { destruct (lookup_lt_is_Some_2 m w Hwlt) as [[] Hb]; [contradiction | exact Hb]. }
    transitivity (ctrue (<[w := true]> (<[id := false]> m))).
    + rewrite ctrue_insert_free.
      * rewrite ctrue_insert_live by exact Hid. lia.
      * rewrite list_lookup_insert_ne by congruence. exact Hmw.
    + apply ctrue_mono; [rewrite !length_insert; congruence|].
      intros j Hj. destruct (decide (j = w)) as [-> | Hjw]; [exact Hw|].
      rewrite list_lookup_insert_ne in Hj by congruence.
      destruct (decide (j = id)) as [-> | Hjid].
      * rewrite list_lookup_insert_eq in Hj; [discriminate|].
        eapply lookup_lt_Some, Hid.
      * rewrite list_lookup_insert_ne in Hj by congruence.
        apply Hrest; assumption.
Qed.

(** ** Clearing the mask of empty boxes *)

Lemma is_empty_lookup sp N j :
  wf sp N -> (j < N)%nat ->
  is_empty sp !! j = Some (box_emptyb (tree_slice sp j)).
Proof.
  intros (H1 & H2 & H3 & H4 & H5 & H6) Hj. unfold is_empty, box_emptyb.
  rewrite !lookup_zip_with.
  rewrite (gather_lookup (x1 sp) j), (gather_lookup (x2 sp) j),
          (gather_lookup (y1 sp) j), (gather_lookup (y2 sp) j),
          (gather_lookup (z1 sp) j), (gather_lookup (z2 sp) j) by lia.
  reflexivity.
Qed.

Lemma length_is_empty sp N : wf sp N -> length (is_empty sp) = N.
Proof.
  intros (H1 & H2 & H3 & H4 & H5 & H6). unfold is_empty.
  rewrite !length_zip_with. lia.
Qed.

Lemma clear_lookup sp mask N j :
  wf sp N -> length mask = N ->
  live (zip_with andb mask (negb <$> is_empty sp)) j
  <-> live mask j /\ box_emptyb (tree_slice sp j) = false.
Proof.
  intros Hwf Hlen. unfold live. rewrite lookup_zip_with, list_lookup_fmap.
  destruct (mask !! j) as [bj|] eqn:Hm; simpl.
  - assert (Hj : (j < N)%nat) by (rewrite <- Hlen; eapply lookup_lt_Some, Hm).
    rewrite (is_empty_lookup sp N j Hwf Hj). simpl.
    destruct bj, (box_emptyb (tree_slice sp j)); simpl; split;
      try intros [? ?]; try congruence; auto.
  - split; [discriminate | intros [? _]; discriminate].
Qed.

Lemma length_clear sp mask N :
  wf sp N -> length mask = N ->
  length (zip_with andb mask (negb <$> is_empty sp)) = N.
Proof.
  intros Hwf Hlen. rewrite length_zip_with, length_fmap, (length_is_empty sp N Hwf). lia.
Qed.

Lemma box_emptyb_vol b : box_emptyb b = true -> box_vol b = 0.
Proof.
  unfold box_emptyb, box_vol. intros Hb.
  apply orb_true_iff in Hb as [Hb | Hb]; [apply orb_true_iff in Hb as [Hb | Hb]|];
    apply Z.eqb_eq in Hb; rewrite Hb; ring.
Qed.

Lemma box_in_nonempty c b :
  box_in c b -> box_emptyb b = false -> box_nonempty b.
Proof.
  unfold box_in, box_emptyb, box_nonempty. intros Hin Hb.
  apply orb_false_iff in Hb as [Hb Hz]. apply orb_false_iff in Hb as [Hx Hy].
  apply Z.eqb_neq in Hx. apply Z.eqb_neq in Hy. apply Z.eqb_neq in Hz. lia.
Qed.

(** ** Weights of the draw *)

Lemma weights_lookup sp (mask : list bool) N ax j (bj : bool) :
  wf sp N -> mask !! j = Some bj -> (j < N)%nat ->
  where_mask mask (axis_len_of (item_from_space sp) ax) !! j
  = Some (if bj then Int32.sub (get_axis_value (tree_slice sp j) ax 2)
                                (get_axis_value (tree_slice sp j) ax 1)
          else 0).
Proof.
  intros (H1 & H2 & H3 & H4 & H5 & H6) Hm Hj. unfold where_mask.
  rewrite lookup_zip_with, Hm. simpl.
  destruct ax; simpl; rewrite lookup_zip_with;
    unfold tree_slice, tree_map; simpl.
  - rewrite (gather_lookup (x2 sp) j), (gather_lookup (x1 sp) j) by lia. reflexivity.
  - rewrite (gather_lookup (y2 sp) j), (gather_lookup (y1 sp) j) by lia. reflexivity.
  - rewrite (gather_lookup (z2 sp) j), (gather_lookup (z1 sp) j) by lia. reflexivity.
Qed.

Lemma length_weights sp mask N ax :
  wf sp N -> length mask = N ->
  length (where_mask mask (axis_len_of (item_from_space sp) ax)) = N.
Proof.
  intros (H1 & H2 & H3 & H4 & H5 & H6) Hlen. unfold where_mask.
  destruct ax; simpl; rewrite !length_zip_with; lia.
Qed.

Lemma box_in_axis c b ax :
  box_in c b ->
  get_axis_value c ax 1 <= get_axis_value b ax 1 /\
  get_axis_value b ax 1 <= get_axis_value b ax 2 /\
  get_axis_value b ax 2 <= get_axis_value c ax 2.
Proof. destruct ax; unfold box_in; simpl; tauto. Qed.

Lemma box_nonempty_axis b ax :
  box_nonempty b -> get_axis_value b ax 1 < get_axis_value b ax 2.
Proof. destruct ax; unfold box_nonempty; simpl; tauto. Qed.

(** ** The split in two *)

(** Wherever the cut falls. *)
Section OnceCut.

Context {P : PRNG}.
Variable self : Config.

Variables (sp : Space (list Z)) (mask : list bool) (N id : nat) (ax : Axis).
Hypothesis Hwf : wf sp N.
Hypothesis Hlen : length mask = N.
Hypothesis Hid : live mask id.
Hypothesis Hroom : (ctrue mask < N)%nat.

Let B := tree_slice sp id.
Let a := get_axis_value B ax 1.
Let b := get_axis_value B ax 2.

Lemma split_item_once_cut axis_len key :
  let m := split_margin self axis_len in
  let s := randint key (Int32.add a m) (Int32.sub b m) in
  split_result sp mask N id ax (once_cut a s b) [argmin mask]
    (_split_item_once self B ax axis_len id sp mask key).
Proof.
  intros m s. unfold _split_item_once. fold a. fold b. fold m. fold s.
  set (f := argmin mask).
  assert (Hf : mask !! f = Some false) by (apply argmin_free; lia).
  assert (Hf_lt : (f < N)%nat) by (rewrite <- Hlen; eapply lookup_lt_Some, Hf).
  assert (Hf_id : f <> id) by (intros Heq; unfold live in Hid; congruence).
  assert (Hid_lt : (id < N)%nat) by (apply (id_lt mask N id); assumption).
  set (sp1 := copy_slot f id sp).
  set (sp2 := set_axis_value sp1 ax 2 (<[id := s]> (get_axis_value sp1 ax 2))).
  set (sp3 := set_axis_value sp2 ax 1 (<[f := s]> (get_axis_value sp2 ax 1))).
  assert (Hwf1 : wf sp1 N) by apply wf_copy_slot, Hwf.
  assert (Hwf2 : wf sp2 N) by apply wf_set_axis, Hwf1.
  assert (Hwf3 : wf sp3 N) by apply wf_set_axis, Hwf2.
  assert (Hslot : forall j, (j < N)%nat ->
    tree_slice sp3 j
    = if decide (j = f) then cut_lo B ax s
      else if decide (j = id) then cut_hi B ax s else tree_slice sp j).
  { intros j Hj. unfold sp3. rewrite (slot_set_axis _ N) by assumption.
    unfold sp2. rewrite (slot_set_axis _ N) by assumption.
    unfold sp1. rewrite (slot_copy _ N) by assumption.
    destruct (decide (j = f)) as [-> | Hjf].
    - rewrite decide_False by exact Hf_id. reflexivity.
    - destruct (decide (j = id)) as [-> | Hjid]; reflexivity. }
  repeat split; simpl; try apply Hwf3.
  - apply NoDup_singleton.
  - intros g Hg. apply list_elem_of_singleton in Hg. subst. exact Hf.
  - rewrite Hslot by exact Hid_lt.
    rewrite decide_False by congruence. rewrite decide_True by reflexivity. reflexivity.
  - intros k g Hk. apply list_lookup_singleton_Some in Hk as [-> <-].
    rewrite Hslot by exact Hf_lt. rewrite decide_True by reflexivity.
    simpl. symmetry.
    replace b with (get_axis_value (cut_lo B ax s) ax 2) by apply cut_lo_hi.
    apply cut_hi_self.
  - intros j Hj Hjid Hjnin. rewrite Hslot by exact Hj.
    rewrite decide_False.
    + rewrite decide_False by exact Hjid. reflexivity.
    + intros ->. apply Hjnin, list_elem_of_singleton. reflexivity.
Qed.

End OnceCut.

(** Within the exact range the cut falls inside the box. *)
Section OnceSplit.

Context {P : PRNG} {L : PRNGLaws P}.
Variable self : Config.
Hypothesis Heps0 : (0 < split_eps self)%Q.
Hypothesis Heps1 : (split_eps self < 1 # 2)%Q.

Variables (sp : Space (list Z)) (mask : list bool) (N id : nat) (ax : Axis).
Hypothesis Hwf : wf sp N.
Hypothesis Hlen : length mask = N.
Hypothesis Hid : live mask id.
Hypothesis Hroom : (ctrue mask < N)%nat.

Let B := tree_slice sp id.
Let a := get_axis_value B ax 1.
Let b := get_axis_value B ax 2.

Variable d : Z.
Hypothesis Ha : 0 <= a.
Hypothesis Hab : a <= b.
Hypothesis Hb : b <= d.
Hypothesis Hd : d < 2 ^ 24.

Lemma split_margin_bounds : 0 <= split_margin self (b - a) <= b - a.
Proof. unfold split_margin. apply mul_trunc_bounds; [assumption | assumption | lia]. Qed.

Lemma split_item_once_spec key :
  exists s, a <= s <= b /\
    split_result sp mask N id ax (once_cut a s b) [argmin mask]
      (_split_item_once self B ax (b - a) id sp mask key).
Proof.
  pose proof split_margin_bounds as Hm.
  pose proof (split_item_once_cut self sp mask N id ax Hwf Hlen Hid Hroom
                (b - a) key) as Hcut.
  cbv zeta in Hcut. fold B a b in Hcut.
  set (m := split_margin self (b - a)) in *.
  rewrite (add_small a m), (sub_small b m) in Hcut by lia.
  set (s := randint key (a + m) (b - m)) in *.
  assert (Hs : a <= s <= b).
  { unfold s. destruct (Z_lt_le_dec (a + m) (b - m)) as [Hlt | Hge].
    - pose proof (randint_range key _ _ Hlt). lia.
    - rewrite (randint_empty key _ _ Hge). lia. }
  exists s. split; [exact Hs | exact Hcut].
Qed.

End OnceSplit.

(** ** One round of the engine *)

Section EngineRound.

Context {P : PRNG} {L : PRNGLaws P}.
Variables (self : Config) (c : Space Z).

Let N := max_num_items self.
Let S := split_num_same_items self.

Hypothesis Heps0 : (0 < split_eps self)%Q.
Hypothesis Heps1 : (split_eps self < 1 # 2)%Q.
Hypothesis HS : 1 <= S.
Hypothesis Hc_lo : forall ax, get_axis_value c ax 1 = 0.
Hypothesis Hc_hi : forall ax, S * get_axis_value c ax 2 < 2 ^ 24.

Lemma live_box_bounds sp mask ax j :
  engine_inv c N sp mask -> live mask j ->
  0 <= get_axis_value (tree_slice sp j) ax 1 /\
  get_axis_value (tree_slice sp j) ax 1 < get_axis_value (tree_slice sp j) ax 2 /\
  get_axis_value (tree_slice sp j) ax 2 <= get_axis_value c ax 2 /\
  get_axis_value c ax 2 < 2 ^ 24 /\ 1 <= get_axis_value c ax 2.
Proof.
  intros (Hwf & Hlen & Ht & Hne & Hpos) Hj.
  pose proof (box_in_axis c _ ax (tiling_in _ _ _ Ht j Hj)) as (H1 & H2 & H3).
  pose proof (box_nonempty_axis _ ax (Hne j Hj)) as H4.
  rewrite Hc_lo in H1. specialize (Hc_hi ax). fold S in Hc_hi. repeat split; try lia; nia.
Qed.

Lemma drawn_item_live sp mask ax k :
  engine_inv c N sp mask -> live mask (drawn_item ax sp mask k).
Proof.
  intros Hinv. pose proof Hinv as (Hwf & Hlen & Ht & Hne & Hpos).
  unfold drawn_item.
  set (p := where_mask mask (axis_len_of (item_from_space sp) ax)).
  assert (Hp : forall j (bj : bool), mask !! j = Some bj ->
            p !! j = Some (if bj then get_axis_value (tree_slice sp j) ax 2
                                      - get_axis_value (tree_slice sp j) ax 1
                           else 0)).
  { intros j bj Hj.
    assert (Hjlt : (j < N)%nat) by (rewrite <- Hlen; eapply lookup_lt_Some, Hj).
    unfold p. rewrite (weights_lookup sp mask N ax j bj Hwf Hj Hjlt).
    destruct bj; [|reflexivity].
    pose proof (live_box_bounds sp mask ax j Hinv Hj). rewrite sub_small by lia.
    reflexivity. }
  assert (Hplen : length p = N) by (apply length_weights; assumption).
  destruct (choice_positive k p) as (w & Hw & Hwpos).
  - apply Forall_lookup. intros j v Hv.
    assert (Hjlt : (j < length mask)%nat).
    { rewrite Hlen, <- Hplen. eapply lookup_lt_Some, Hv. }
    destruct (lookup_lt_is_Some_2 mask j Hjlt) as [bj Hbj].
    rewrite (Hp j bj Hbj) in Hv. injection Hv as <-.
    destruct bj; [|lia].
    pose proof (live_box_bounds sp mask ax j Hinv Hbj). lia.
  - destruct (ctrue_pos_live mask Hpos) as [j Hj].
    apply Exists_exists. eexists. split.
    + eapply list_elem_of_lookup_2. apply (Hp j true Hj).
    + pose proof (live_box_bounds sp mask ax j Hinv Hj). lia.
  - assert (Hjlt : (choice k p < length mask)%nat).
    { rewrite Hlen, <- Hplen. eapply lookup_lt_Some, Hw. }
    destruct (lookup_lt_is_Some_2 mask _ Hjlt) as [bj Hbj].
    rewrite (Hp _ bj Hbj) in Hw. injection Hw as <-.
    destruct bj; [exact Hbj | lia].
Qed.

Lemma split_result_outcome sp mask id ax sigma fs carry :
  engine_inv c N sp mask -> live mask id ->
  split_result sp mask N id ax sigma fs carry ->
  sigma 0%nat = get_axis_value (tree_slice sp id) ax 1 ->
  (forall k, (k <= length fs)%nat -> sigma k <= sigma (Datatypes.S k)) ->
  sigma (Datatypes.S (length fs)) = get_axis_value (tree_slice sp id) ax 2 ->
  split_outcome self c sp mask carry.
Proof.
  intros (Hwf & Hlen & Ht & Hne & Hpos) Hid Hres H0 Hmono Hend.
  split; [apply Hres|]. split.
  { eapply split_keeps_length; eassumption. }
  split.
  { eapply split_keeps_tiling; eassumption. }
  exists id. split; [exact Hid|]. split.
  - intros j Hj Hjid. eapply split_keeps_others; eassumption.
  - eapply split_leaves_part; eassumption.
Qed.

Lemma split_along_axis_outcome sp mask ax key :
  engine_inv c N sp mask ->
  Z.of_nat (ctrue mask) + S <= Z.of_nat N ->
  split_outcome self c sp mask (_split_along_axis self ax sp mask key).
Proof.
  intros Hinv Hcond. pose proof Hinv as (Hwf & Hlen & Ht & Hne & Hpos).
  unfold _split_along_axis.
  destruct (split3 key) as [[item_key split_key] mode_key].
  set (id := drawn_item ax sp mask item_key).
  assert (Hid : live mask id) by (apply drawn_item_live; exact Hinv).
  pose proof (live_box_bounds sp mask ax id Hinv Hid) as (Ha & Hab & Hb & Hd & Hd1).
  set (B := tree_slice sp id) in *.
  set (a := get_axis_value B ax 1) in *.
  set (b := get_axis_value B ax 2) in *.
  set (d := get_axis_value c ax 2) in *.
  rewrite (sub_small b a) by lia.
  destruct (drawn_mode self mode_key).
  - destruct (split_item_once_spec self Heps0 Heps1 sp mask N id ax Hwf Hlen Hid
                ltac:(lia) d Ha ltac:(fold B a b; lia) Hb Hd split_key)
      as (s & Hs & Hres).
    apply (split_result_outcome sp mask id ax _ _ _ Hinv Hid Hres).
    + reflexivity.
    + intros k Hk. simpl in Hk. unfold a, b, B in *.
      destruct k as [|[|k]]; simpl; lia.
    + reflexivity.
  - unfold _split_item_multiple_times. fold S.
    set (n := randint split_key 1 (S + 1)).
    assert (Hn : 1 <= n <= S).
    { pose proof (randint_range split_key 1 (S + 1) ltac:(lia)). unfold n. lia. }
    specialize (Hc_hi ax). fold S d in Hc_hi.
    destruct (split_item_into_spec sp mask N id ax Hwf Hlen Hid n d Ha
                ltac:(fold B a b; lia) Hb ltac:(nia) ltac:(nia) ltac:(lia))
      as (fs & Hfs & Hres).
    apply (split_result_outcome sp mask id ax _ _ _ Hinv Hid Hres).
    + unfold multi_cut. simpl. rewrite Z.div_0_l by lia. fold B a. lia.
    + intros k Hk. unfold multi_cut. fold B a b.
      pose proof (quotient_mono (Z.of_nat k) (b - a) n ltac:(lia) ltac:(lia) ltac:(lia)).
      replace (Z.of_nat (Datatypes.S k)) with (Z.of_nat k + 1) by lia. lia.
    + unfold multi_cut. fold B a b. rewrite Hfs.
      replace (Z.of_nat (Datatypes.S (Z.to_nat (n - 1)))) with n by lia.
      rewrite quotient_full by lia. lia.
Qed.

(** One round keeps the invariant and does not lower the count. *)
Lemma round_keeps_inv sp mask key :
  engine_inv c N sp mask ->
  Z.of_nat (ctrue mask) + S <= Z.of_nat N ->
  engine_inv c N (fst (_split_space_into_sub_spaces self sp mask key))
                 (snd (_split_space_into_sub_spaces self sp mask key)) /\
  (ctrue mask <= ctrue (snd (_split_space_into_sub_spaces self sp mask key)))%nat.
Proof.
  intros Hinv Hcond. pose proof Hinv as (Hwf & Hlen & Ht & Hne & Hpos).
  unfold _split_space_into_sub_spaces.
  destruct (split key) as [axis_key split_key].
  set (ax := axis_of_index (randint axis_key 0 3)).
  pose proof (split_along_axis_outcome sp mask ax split_key Hinv Hcond) as Hout.
  destruct (_split_along_axis self ax sp mask split_key) as [sp' mask'].
  destruct Hout as (Hwf' & Hlen' & Ht' & id & Hid & Hothers & w & Hw & Hwcase & Hwne).
  fold N in Hwf', Hlen'.
  simpl in *.
  set (mask'' := zip_with andb mask' (negb <$> is_empty sp')).
  assert (Hlive'' : forall j, live mask'' j <->
            live mask' j /\ box_emptyb (tree_slice sp' j) = false).
  { intros j. apply (clear_lookup sp' mask' N); assumption. }
  assert (Hlen'' : length mask'' = N) by (apply length_clear; assumption).
  assert (Hcount : (ctrue mask <= ctrue mask'')%nat).
  { apply (count_swap mask mask'' id w); [congruence | exact Hid | | exact Hwcase |].
    - apply Hlive''. split; [exact Hw|].
      destruct (box_emptyb (tree_slice sp' w)) eqn:He; [|reflexivity].
      exfalso. unfold box_emptyb in He. unfold box_nonempty in Hwne.
      apply orb_true_iff in He as [He | He]; [apply orb_true_iff in He as [He | He]|];
        apply Z.eqb_eq in He; lia.
    - intros j Hj Hjid. destruct (Hothers j Hj Hjid) as [Hj' Heq].
      apply Hlive''. split; [exact Hj'|]. rewrite Heq.
      specialize (Hne j Hj).
      destruct (box_emptyb (tree_slice sp j)) eqn:He; [|reflexivity].
      exfalso. unfold box_emptyb in He. unfold box_nonempty in Hne.
      apply orb_true_iff in He as [He | He]; [apply orb_true_iff in He as [He | He]|];
        apply Z.eqb_eq in He; lia. }
  split; [|exact Hcount].
  split; [exact Hwf'|]. split; [exact Hlen''|]. split; [|split].
  - apply (tiling_clear c _ mask'); [exact Ht' | congruence | |].
    + intros j Hj. apply Hlive'' in Hj. tauto.
    + intros j Hj Hnj. apply box_emptyb_vol.
      destruct (box_emptyb (tree_slice sp' j)) eqn:He; [reflexivity|].
      exfalso. apply Hnj, Hlive''. tauto.
  - intros j Hj. apply Hlive'' in Hj as [Hj He].
    apply (box_in_nonempty c); [|exact He]. apply (tiling_in _ _ _ Ht' j Hj).
  - lia.
Qed.

End EngineRound.

(** ** Shape and count, whatever the buffer holds *)

Section Shape.

Context {P : PRNG} {L : PRNGLaws P}.
Variable self : Config.
Let S := split_num_same_items self.

Lemma once_shape N item_space ax axis_len id sp mask key :
  shaped N (sp, mask) ->
  shaped N (_split_item_once self item_space ax axis_len id sp mask key) /\
  (ctrue (snd (_split_item_once self item_space ax axis_len id sp mask key))
   <= ctrue mask + 1)%nat.
Proof.
  intros [Hwf Hlen]. simpl in *. unfold _split_item_once. simpl.
  split; [split|].
  - simpl. apply wf_set_axis, wf_set_axis, wf_copy_slot, Hwf.
  - simpl. rewrite length_insert. exact Hlen.
  - pose proof (ctrue_insert_le mask (argmin mask) true). lia.
Qed.

Lemma body_shape N ax axis_len id a n i carry :
  shaped N carry ->
  shaped N (body_fn ax axis_len id a n i carry) /\
  (ctrue (snd (body_fn ax axis_len id a n i carry)) <= ctrue (snd carry) + 1)%nat.
Proof.
  destruct carry as [sp mask]. intros [Hwf Hlen]. simpl in *.
  split; [split|]; simpl.
  - apply wf_set_axis, wf_set_axis, wf_copy_slot, Hwf.
  - rewrite length_insert. exact Hlen.
  - pose proof (ctrue_insert_le mask (argmin mask) true). lia.
Qed.

Lemma fori_shape N ax axis_len id a n m : forall i carry,
  shaped N carry ->
  shaped N (fori_iter m i (body_fn ax axis_len id a n) carry) /\
  (ctrue (snd (fori_iter m i (body_fn ax axis_len id a n) carry))
   <= ctrue (snd carry) + m)%nat.
Proof.
  induction m as [|m IH]; intros i carry Hs; simpl.
  - split; [exact Hs | lia].
  - destruct (body_shape N ax axis_len id a n i carry Hs) as [Hs' Hc].
    destruct (IH (Int32.add i 1) _ Hs') as [Hs'' Hc'].
    split; [exact Hs'' | lia].
Qed.

Lemma multi_shape N item_space ax axis_len id sp mask key :
  1 <= S -> shaped N (sp, mask) ->
  shaped N (_split_item_multiple_times self item_space ax axis_len id sp mask key) /\
  Z.of_nat (ctrue (snd (_split_item_multiple_times self item_space ax axis_len
                          id sp mask key)))
  <= Z.of_nat (ctrue mask) + (S - 1).
Proof.
  intros HS [Hwf Hlen]. simpl in *.
  unfold _split_item_multiple_times, split_item_into, fori_loop. fold S.
  pose proof (randint_range key 1 (S + 1) ltac:(lia)) as Hn.
  set (n := randint key 1 (S + 1)) in *.
  match goal with |- context [fori_iter ?m ?i ?f ?c] =>
    destruct (fori_shape N ax axis_len id (get_axis_value item_space ax 1) n m i c)
      as [Hs Hc]
  end.
  { split; simpl; [apply wf_set_axis, Hwf | exact Hlen]. }
  split; [exact Hs|]. simpl in Hc. lia.
Qed.

Lemma along_axis_shape N ax sp mask key :
  1 <= S -> shaped N (sp, mask) ->
  shaped N (_split_along_axis self ax sp mask key) /\
  Z.of_nat (ctrue (snd (_split_along_axis self ax sp mask key)))
  <= Z.of_nat (ctrue mask) + Z.max 1 (S - 1).
Proof.
  intros HS Hs. unfold _split_along_axis.
  destruct (split3 key) as [[item_key split_key] mode_key].
  destruct (drawn_mode self mode_key).
  - match goal with |- context [_split_item_once self ?b ?x ?l ?i sp mask ?k] =>
      destruct (once_shape N b x l i sp mask k Hs) as [Hs' Hc] end.
    split; [exact Hs' | lia].
  - match goal with |- context [_split_item_multiple_times self ?b ?x ?l ?i sp mask ?k] =>
      destruct (multi_shape N b x l i sp mask k HS Hs) as [Hs' Hc] end.
    split; [exact Hs' | lia].
Qed.

Lemma round_shape N sp mask key :
  1 <= S -> shaped N (sp, mask) ->
  shaped N (_split_space_into_sub_spaces self sp mask key) /\
  Z.of_nat (ctrue (snd (_split_space_into_sub_spaces self sp mask key)))
  <= Z.of_nat (ctrue mask) + Z.max 1 (S - 1).
Proof.
  intros HS Hs. unfold _split_space_into_sub_spaces.
  destruct (split key) as [axis_key split_key].
  set (ax := axis_of_index (randint axis_key 0 3)).
  destruct (along_axis_shape N ax sp mask split_key HS Hs) as [[Hwf' Hlen'] Hc].
  destruct (_split_along_axis self ax sp mask split_key) as [sp' mask'].
  simpl in *. split; [split|]; simpl.
  - exact Hwf'.
  - apply length_clear; assumption.
  - pose proof (ctrue_zip_and mask' (negb <$> is_empty sp')). lia.
Qed.

End Shape.

(** ** The loop *)

Lemma ctrue_replicate_false n : ctrue (replicate n false) = 0%nat.
Proof. induction n as [|n IH]; [reflexivity|]. simpl. rewrite ctrue_cons, IH. reflexivity. Qed.

Lemma sumZ_zero n : sumZ n (fun _ => 0) = 0.
Proof. induction n as [|n IH]; [reflexivity|]. rewrite sumZ_S, IH. reflexivity. Qed.

Lemma gather_replicate n v j : (j < n)%nat -> gather (replicate n v) j = v.
Proof.
  intros Hj. unfold gather. rewrite length_replicate, Nat.min_l by lia.
  rewrite lookup_replicate_2 by lia. reflexivity.
Qed.

Lemma mul_one_small x : - 2 ^ 24 <= x <= 2 ^ 24 -> Int32.mul x 1 = x.
Proof. intros. unfold Int32.mul. rewrite Z.mul_1_r. apply wrap_small, small_in_range. lia. Qed.

Section Loop.

Context {P : PRNG} {L : PRNGLaws P}.
Variable self : Config.
Let N := max_num_items self.
Let S := split_num_same_items self.
Let c := make_container (container_dims self).

Lemma cond_fun_true val :
  cond_fun self val = true <-> Z.of_nat (ctrue (val_mask val)) + S <= Z.of_nat N.
Proof.
  destruct val as [[sp mask] k]. unfold cond_fun, val_mask. simpl.
  rewrite Z.ltb_lt, mask_sum_ctrue. fold N S. lia.
Qed.

Lemma init_shaped key : shaped N (fst (init_val self c key)).
Proof.
  unfold init_val. simpl. split; simpl.
  - unfold wf, tree_map. simpl. rewrite !length_replicate. tauto.
  - rewrite length_insert, length_replicate. reflexivity.
Qed.

Lemma reachable_shaped key val :
  1 <= S -> reachable self c key val -> shaped N (fst val).
Proof.
  intros HS. induction 1 as [|[[sp mask] k] Hr IH Hc].
  - apply init_shaped.
  - unfold body_fun. destruct (split k) as [k1 k2].
    pose proof (round_shape self N sp mask k2 HS IH) as [Hs _].
    destruct (_split_space_into_sub_spaces self sp mask k2). exact Hs.
Qed.

Hypothesis Hvalid : valid_config self.

Lemma valid_axis ax :
  get_axis_value c ax 1 = 0 /\ 0 < get_axis_value c ax 2 /\
  S * get_axis_value c ax 2 < 2 ^ 24.
Proof.
  destruct Hvalid as (_ & _ & _ & _ & _ & _ & Hd).
  unfold c, S, make_container. destruct (container_dims self) as [[dx dy] dz].
  destruct ax; simpl; tauto.
Qed.

Lemma valid_S : 1 <= S.
Proof. apply Hvalid. Qed.

Lemma init_inv key :
  engine_inv c N (val_spaces (init_val self c key)) (val_mask (init_val self c key)).
Proof.
  destruct Hvalid as (_ & _ & _ & _ & HS & HN & _). fold N in HN.
  pose proof (init_shaped key) as [Hwf Hlen].
  unfold init_val, val_spaces, val_mask in *. simpl in *.
  set (sp := tree_map (fun x => replicate N (Int32.mul x 1)) c) in *.
  set (mask := <[0%nat := true]> (replicate N false)) in *.
  assert (Hslot : forall j, (j < N)%nat -> tree_slice sp j = c).
  { intros j Hj. unfold sp, tree_slice, tree_map. simpl.
    rewrite !gather_replicate by exact Hj.
    pose proof (valid_axis AxisX) as (Hx1 & Hx2 & Hx3).
    pose proof (valid_axis AxisY) as (Hy1 & Hy2 & Hy3).
    pose proof (valid_axis AxisZ) as (Hz1 & Hz2 & Hz3).
    simpl in *. fold S in HS.
    rewrite !mul_one_small by nia. destruct c; reflexivity. }
  assert (Hlive : forall j, live mask j -> j = 0%nat).
  { intros j Hj. unfold live, mask in Hj. destruct (decide (j = 0%nat)) as [-> | Hne]; [reflexivity|].
    rewrite list_lookup_insert_ne in Hj by congruence.
    apply lookup_replicate in Hj as [? _]. discriminate. }
  assert (Hc_box : box_in c c /\ box_nonempty c).
  { pose proof (valid_axis AxisX) as (Hx1 & Hx2 & Hx3).
    pose proof (valid_axis AxisY) as (Hy1 & Hy2 & Hy3).
    pose proof (valid_axis AxisZ) as (Hz1 & Hz2 & Hz3).
    unfold box_in, box_nonempty. simpl in *. lia. }
  split; [exact Hwf|]. split; [exact Hlen|]. split; [split|split].
  - intros j Hj. rewrite (Hlive j Hj), Hslot by lia. apply Hc_box.
  - intros i j Hij Hi Hj. rewrite (Hlive i Hi), (Hlive j Hj) in Hij. congruence.
  - unfold live_volume. rewrite Hlen.
    rewrite (sumZ_update N (fun _ => 0) _ 0%nat) by (try lia; intros i Hi Hne;
      unfold mask; rewrite list_lookup_insert_ne by congruence;
      rewrite lookup_replicate_2 by lia; reflexivity).
    rewrite sumZ_zero. unfold mask.
    rewrite list_lookup_insert_eq by (rewrite length_replicate; lia).
    rewrite Hslot by lia. lia.
  - intros j Hj. rewrite (Hlive j Hj), Hslot by lia. apply Hc_box.
  - unfold mask. rewrite ctrue_insert_free, ctrue_replicate_false; [lia|].
    apply lookup_replicate_2. lia.
Qed.

Lemma reachable_inv key val :
  reachable self c key val -> engine_inv c N (val_spaces val) (val_mask val).
Proof.
  induction 1 as [|[[sp mask] k] Hr IH Hc].
  - apply init_inv.
  - apply cond_fun_true in Hc. unfold val_spaces, val_mask in *. simpl in *.
    unfold body_fun. destruct (split k) as [k1 k2].
    destruct Hvalid as (He0 & He1 & _ & _ & HS & _).
    pose proof (round_keeps_inv self c He0 He1 HS
                  (fun ax => proj1 (valid_axis ax))
                  (fun ax => proj2 (proj2 (valid_axis ax)))
                  sp mask k2 IH Hc) as [Hinv _].
    destruct (_split_space_into_sub_spaces self sp mask k2). exact Hinv.
Qed.

End Loop.

Lemma while_loop_reachable {P : PRNG} {L : PRNGLaws P} (self : Config) container key fuel : forall val res,
  reachable self container key val ->
  while_loop fuel (cond_fun self) (body_fun self) val = Some res ->
  reachable self container key res /\ cond_fun self res = false.
Proof.
  induction fuel as [|fuel IH]; intros val res Hr; simpl.
  - destruct (cond_fun self val) eqn:Hc; [discriminate|].
    intros [= <-]. auto.
  - destruct (cond_fun self val) eqn:Hc.
    + apply IH. apply reach_step; assumption.
    + intros [= <-]. auto.
Qed.

Lemma lcg_randint_range k lo hi : lo < hi -> lo <= Lcg.randint k lo hi < hi.
Proof.
  intros Hlt. unfold Lcg.randint. destruct (Z.ltb_spec lo hi); [|lia].
  pose proof (Z.mod_pos_bound k (hi - lo) ltac:(lia)). lia.
Qed.

Lemma lcg_randint_empty k lo hi : hi <= lo -> Lcg.randint k lo hi = lo.
Proof. intros Hle. unfold Lcg.randint. destruct (Z.ltb_spec lo hi); [lia | reflexivity]. Qed.

Lemma lcg_choice_index k (p : list Z) : p <> [] -> (Lcg.choice k p < length p)%nat.
Proof.
  intros Hne. unfold Lcg.choice.
  destruct (list_find _ p) as [[i w]|] eqn:Hfind.
  - apply list_find_Some in Hfind as (Hi & _). eapply lookup_lt_Some, Hi.
  - destruct p; [congruence | simpl; lia].
Qed.

Lemma lcg_choice_positive k (p : list Z) :
  Forall (fun w => 0 <= w) p -> Exists (fun w => 0 < w) p ->
  exists w, p !! Lcg.choice k p = Some w /\ 0 < w.
Proof.
  intros _ Hex. unfold Lcg.choice.
  destruct (list_find _ p) as [[i w]|] eqn:Hfind.
  - apply list_find_Some in Hfind as (Hi & Hw & _). eauto.
  - apply list_find_None in Hfind. apply Exists_exists in Hex as (w & Hin & Hw).
    rewrite Forall_forall in Hfind. exfalso. exact (Hfind w Hin Hw).
Qed.

(** The generator of the examples keeps the laws. *)
Lemma lcg_laws : PRNGLaws lcg_prng.
Proof.
  constructor.
  - exact lcg_randint_range.
  - exact lcg_randint_empty.
  - exact lcg_choice_index.
  - exact lcg_choice_positive.
Qed.

Lemma stated_valid cfg :
  stated_config cfg -> (1 <= max_num_items cfg)%nat -> exact_dims cfg ->
  valid_config cfg.
Proof.
  unfold stated_config, exact_dims, valid_config.
  destruct (container_dims cfg) as [[dx dy] dz]. tauto.
Qed.

Lemma demo_config_stated : stated_config demo_config.
Proof. unfold stated_config, demo_config, Qlt, Qle. simpl. lia. Qed.

Lemma demo_config_machine : machine_config demo_config.
Proof. unfold machine_config, demo_config, Int32.max_int. simpl. lia. Qed.

Lemma demo_config_exact : exact_dims demo_config.
Proof. unfold exact_dims, demo_config. simpl. lia. Qed.

Lemma wide_config_stated : stated_config wide_config.
Proof. unfold stated_config, wide_config, Qlt, Qle. simpl. lia. Qed.

(** ** The generated instance *)

Lemma gather_zip_with (f : Z -> Z -> Z) l k j :
  (j < length l)%nat -> (j < length k)%nat ->
  gather (zip_with f l k) j = f (gather l j) (gather k j).
Proof.
  intros Hl Hk. unfold gather at 1. rewrite length_zip_with, Nat.min_l by lia.
  rewrite lookup_zip_with, (gather_lookup l j Hl), (gather_lookup k j Hk). reflexivity.
Qed.

Lemma tiling_ext_live c boxes boxes' mask :
  tiling c boxes mask -> (forall j, live mask j -> boxes' j = boxes j) ->
  tiling c boxes' mask.
Proof.
  intros [Hin Hsep Hvol] Heq. split.
  - intros j Hj. rewrite (Heq j Hj). auto.
  - intros i j Hij Hi Hj. rewrite (Heq i Hi), (Heq j Hj). auto.
  - rewrite <- Hvol. unfold live_volume. apply sumZ_ext. intros i Hi.
    destruct (mask !! i) as [[]|] eqn:Hm; try reflexivity.
    rewrite (Heq i Hm). reflexivity.
Qed.

Section Generated.

Context {P : PRNG} {L : PRNGLaws P}.
Variable self : Config.
Hypothesis Hvalid : valid_config self.

Let c := make_container (container_dims self).
Let N := max_num_items self.

Lemma split_container_inv fuel key sp mask :
  _split_container_into_items_spaces self fuel c key = Some (sp, mask) ->
  engine_inv c N sp mask.
Proof.
  unfold _split_container_into_items_spaces.
  destruct (while_loop _ _ _ _) as [[[sp' mask'] k]|] eqn:Hloop; [|discriminate].
  intros [= <- <-].
  destruct (while_loop_reachable self c key fuel _ _ (reach_init self c key) Hloop)
    as [Hr _].
  exact (reachable_inv self Hvalid key _ Hr).
Qed.

Lemma solved_item_space sp mask st j :
  engine_inv c N sp mask ->
  items st = item_from_space sp -> items_location st = location_from_space sp ->
  live mask j -> item_space st j = tree_slice sp j.
Proof.
  intros Hinv Hitems Hloc Hj. pose proof Hinv as (Hwf & Hlen & _).
  assert (Hjlt : (j < N)%nat) by (rewrite <- Hlen; eapply lookup_lt_Some, Hj).
  destruct Hvalid as (He0 & He1 & _ & _ & HS & _).
  pose proof (fun ax => live_box_bounds self c HS
                (fun ax => proj1 (valid_axis self Hvalid ax))
                (fun ax => proj2 (proj2 (valid_axis self Hvalid ax)))
                sp mask ax j Hinv Hj) as Hb.
  pose proof (Hb AxisX) as Hx. pose proof (Hb AxisY) as Hy. pose proof (Hb AxisZ) as Hz.
  destruct Hwf as (H1 & H2 & H3 & H4 & H5 & H6).
  unfold item_space. rewrite Hitems, Hloc. unfold item_from_space, location_from_space.
  simpl. rewrite !gather_zip_with by lia.
  unfold tree_slice, tree_map in *. simpl in *.
  rewrite !sub_small by lia. f_equal; lia.
Qed.

End Generated.

(** ** The live count, whatever the magnitudes

    Beyond the exact range the boxes need not tile the container, but the
    count of live slots still does not go down: a round rewrites the slot
    it drew and free slots only, and of the parts it makes of a box that is
    not empty, one is not empty. *)

Lemma wrap_in_range z : Int32.in_range (Int32.wrap z).
Proof.
  unfold Int32.in_range, Int32.wrap, Int32.min_int, Int32.max_int.
  pose proof (Z.mod_pos_bound (z + 2 ^ 31) (2 ^ 32) ltac:(lia)). lia.
Qed.

Lemma add_moves a q :
  Int32.in_range a -> Int32.in_range q -> q <> 0 -> Int32.add a q <> a.
Proof.
  unfold Int32.add, Int32.wrap, Int32.in_range, Int32.min_int, Int32.max_int.
  intros Ha Hq Hne Heq.
  pose proof (Z.div_mod (a + q + 2 ^ 31) (2 ^ 32) ltac:(lia)).
  pose proof (Z.mod_pos_bound (a + q + 2 ^ 31) (2 ^ 32) ltac:(lia)).
  lia.
Qed.

Lemma sub_nonzero a b :
  Int32.in_range a -> Int32.in_range b -> a <> b -> Int32.sub b a <> 0.
Proof.
  unfold Int32.sub, Int32.wrap, Int32.in_range, Int32.min_int, Int32.max_int.
  intros Ha Hb Hne Heq.
  pose proof (Z.div_mod (b - a + 2 ^ 31) (2 ^ 32) ltac:(lia)).
  pose proof (Z.mod_pos_bound (b - a + 2 ^ 31) (2 ^ 32) ltac:(lia)).
  lia.
Qed.

Lemma gather_in_range l j : Forall Int32.in_range l -> Int32.in_range (gather l j).
Proof.
  intros Hl. unfold gather.
  destruct (l !! _) as [v|] eqn:Hv; simpl.
  - eapply Forall_lookup_1; eassumption.
  - unfold Int32.in_range, Int32.min_int, Int32.max_int. lia.
Qed.

Lemma copy_slot_in_range f id sp :
  all_in_range sp -> all_in_range (copy_slot f id sp).
Proof.
  intros (H1 & H2 & H3 & H4 & H5 & H6). unfold all_in_range, copy_slot, tree_map.
  simpl. repeat split; apply Forall_insert; auto using gather_in_range.
Qed.

Lemma set_axis_in_range sp ax k i v :
  all_in_range sp -> Int32.in_range v ->
  all_in_range (set_axis_value sp ax k (<[i := v]> (get_axis_value sp ax k))).
Proof.
  intros (H1 & H2 & H3 & H4 & H5 & H6) Hv.
  destruct sp, ax, k as [|[|k]]; unfold all_in_range; simpl in *;
    repeat split; try assumption; apply Forall_insert; assumption.
Qed.

Lemma slot_in_range sp j ax k :
  all_in_range sp -> Int32.in_range (get_axis_value (tree_slice sp j) ax k).
Proof.
  intros (H1 & H2 & H3 & H4 & H5 & H6). rewrite get_axis_slice.
  apply gather_in_range. destruct ax, k as [|[|k]]; assumption.
Qed.

Lemma add_in_range a b : Int32.in_range (Int32.add a b).
Proof. apply wrap_in_range. Qed.

Lemma sub_in_range a b : Int32.in_range (Int32.sub a b).
Proof. apply wrap_in_range. Qed.

(** *** Boxes that are not empty *)

Lemma box_axis_nonzero B ax :
  box_emptyb B = false -> get_axis_value B ax 1 <> get_axis_value B ax 2.
Proof.
  unfold box_emptyb. intros Hb.
  apply orb_false_iff in Hb as [Hb Hz]. apply orb_false_iff in Hb as [Hx Hy].
  apply Z.eqb_neq in Hx. apply Z.eqb_neq in Hy. apply Z.eqb_neq in Hz.
  destruct ax; simpl; assumption.
Qed.

Lemma cut_nonempty B ax lo hi :
  box_emptyb B = false -> lo <> hi ->
  box_emptyb (cut_hi (cut_lo B ax lo) ax hi) = false.
Proof.
  unfold box_emptyb. intros Hb Hne.
  apply orb_false_iff in Hb as [Hb Hz]. apply orb_false_iff in Hb as [Hx Hy].
  apply Z.eqb_neq in Hne.
  destruct B, ax; unfold cut_hi, cut_lo; simpl in *;
    rewrite ?Hx, ?Hy, ?Hz, ?Hne; reflexivity.
Qed.

Lemma cut_hi_nonempty B ax s :
  box_emptyb B = false -> get_axis_value B ax 1 <> s ->
  box_emptyb (cut_hi B ax s) = false.
Proof.
  intros Hb Hne. rewrite <- cut_hi_cut_lo_self. apply cut_nonempty; assumption.
Qed.

(** A sequence that leaves its first value changes somewhere. *)
Lemma exists_change (tau : nat -> Z) i :
  (1 <= i)%nat -> tau i <> tau 1%nat ->
  exists k, (1 <= k < i)%nat /\ tau k <> tau (S k).
Proof.
  induction i as [|i IH]; intros Hi Hne; [lia|].
  destruct (Z.eq_dec (tau i) (tau (S i))) as [Heq | Hch].
  - destruct (Nat.eq_dec i 0%nat) as [-> | Hi0]; [congruence|].
    destruct IH as (k & Hk & Hk'); [lia | congruence |].
    exists k. split; [lia | exact Hk'].
  - destruct (Nat.eq_dec i 0%nat) as [-> | Hi0]; [congruence|].
    exists i. split; [lia | exact Hch].
Qed.

(** Some cut point of a split lies away from the lower bound. *)
Lemma machine_cut_moves a len n :
  Int32.in_range a -> Int32.in_range len -> len <> 0 -> 1 <= n < 2 ^ 24 ->
  exists i, 1 <= i <= n /\ machine_cut a len n (Z.to_nat i) <> a.
Proof.
  intros Ha Hlen Hne Hn.
  set (l := Z.abs len).
  assert (Hl : 1 <= l <= 2 ^ 31)
    by (unfold l, Int32.in_range, Int32.min_int, Int32.max_int in *; lia).
  assert (Hex : exists i, 1 <= i <= n /\ n <= i * l /\
                          (i = 1 \/ i * l < 2 ^ 25)).
  { destruct (Z_lt_le_dec l n) as [Hsmall | Hbig].
    - exists ((n + l - 1) / l).
      pose proof (Z.div_mod (n + l - 1) l ltac:(lia)) as Hdm.
      pose proof (Z.mod_pos_bound (n + l - 1) l ltac:(lia)) as Hr.
      set (i := (n + l - 1) / l) in *.
      assert (Hil : n <= i * l <= n + l - 1) by nia.
      assert (1 <= i) by nia.
      assert (i <= n) by nia.
      repeat split; lia.
    - exists 1. repeat split; lia. }
  destruct Hex as (i & Hi & Hil & Hcase).
  exists i. split; [exact Hi|].
  unfold machine_cut. rewrite Z2Nat.id by lia.
  assert (Hmul : Int32.mul i len = i * len /\ n <= Z.abs (i * len) <= 2 ^ 31).
  { assert (Habs : Z.abs (i * len) = i * l) by (unfold l; rewrite Z.abs_mul; lia).
    split; [|destruct Hcase as [-> | Hlt]; lia].
    unfold Int32.mul. apply wrap_small.
    destruct Hcase as [-> | Hlt].
    - rewrite Z.mul_1_l. exact Hlen.
    - unfold Int32.in_range, Int32.min_int, Int32.max_int. lia. }
  destruct Hmul as [-> Habs].
  apply add_moves; [exact Ha | apply quotient_in_range |].
  apply quotient_nonzero; assumption.
Qed.

Section CountRound.

Context {P : PRNG} {L : PRNGLaws P}.
Variable self : Config.
Let N := max_num_items self.
Let S := split_num_same_items self.

(** *** The bounds stay int32 values *)

Lemma randint_in_range key lo hi :
  Int32.in_range lo -> Int32.in_range hi -> Int32.in_range (randint key lo hi).
Proof.
  intros Hlo Hhi. destruct (Z_lt_le_dec lo hi) as [Hlt | Hge].
  - pose proof (randint_range key lo hi Hlt).
    unfold Int32.in_range in *. lia.
  - rewrite randint_empty by exact Hge. exact Hlo.
Qed.

Lemma once_in_range item_space ax axis_len id sp mask key :
  all_in_range sp ->
  all_in_range (fst (_split_item_once self item_space ax axis_len id sp mask key)).
Proof.
  intros Hsp. unfold _split_item_once. cbn [fst].
  apply set_axis_in_range; [apply set_axis_in_range; [apply copy_slot_in_range, Hsp|]|];
    apply randint_in_range; (apply add_in_range || apply sub_in_range).
Qed.

Lemma body_in_range ax axis_len id a n i carry :
  all_in_range (fst carry) ->
  all_in_range (fst (body_fn ax axis_len id a n i carry)).
Proof.
  destruct carry as [sp mask]. intros Hsp. unfold body_fn. cbn [fst] in *.
  apply set_axis_in_range; [apply set_axis_in_range; [apply copy_slot_in_range, Hsp|]|];
    apply add_in_range.
Qed.

Lemma fori_in_range ax axis_len id a n m : forall i carry,
  all_in_range (fst carry) ->
  all_in_range (fst (fori_iter m i (body_fn ax axis_len id a n) carry)).
Proof.
  induction m as [|m IH]; intros i carry Hc; simpl; [exact Hc|].
  apply IH, body_in_range, Hc.
Qed.

Lemma multi_in_range item_space ax axis_len id sp mask key :
  all_in_range sp ->
  all_in_range
    (fst (_split_item_multiple_times self item_space ax axis_len id sp mask key)).
Proof.
  intros Hsp. unfold _split_item_multiple_times, split_item_into, fori_loop.
  apply fori_in_range. cbn [fst].
  apply set_axis_in_range; [exact Hsp | apply add_in_range].
Qed.

Lemma along_axis_in_range ax sp mask key :
  all_in_range sp -> all_in_range (fst (_split_along_axis self ax sp mask key)).
Proof.
  intros Hsp. unfold _split_along_axis.
  destruct (split3 key) as [[item_key split_key] mode_key].
  destruct (drawn_mode self mode_key);
    [apply once_in_range | apply multi_in_range]; exact Hsp.
Qed.

(** *** The slots a split leaves alone *)

Lemma once_frame item_space ax axis_len id sp mask key j :
  shaped N (sp, mask) -> (ctrue mask < N)%nat -> live mask j -> j <> id ->
  live (snd (_split_item_once self item_space ax axis_len id sp mask key)) j /\
  tree_slice (fst (_split_item_once self item_space ax axis_len id sp mask key)) j
  = tree_slice sp j.
Proof.
  intros [Hwf Hlen] Hroom Hj Hjid. cbn [fst snd] in Hwf, Hlen.
  assert (Hf : mask !! argmin mask = Some false) by (apply argmin_free; lia).
  assert (Hjf : j <> argmin mask) by (intros ->; unfold live in Hj; congruence).
  assert (Hjlt : (j < N)%nat) by (rewrite <- Hlen; eapply lookup_lt_Some, Hj).
  unfold _split_item_once. cbn [fst snd]. split.
  - unfold live. rewrite list_lookup_insert_ne by congruence. exact Hj.
  - rewrite (slot_set_axis _ N) by (try apply wf_set_axis, wf_copy_slot; assumption).
    rewrite decide_False by exact Hjf.
    rewrite (slot_set_axis _ N) by (try apply wf_copy_slot; assumption).
    rewrite decide_False by exact Hjid.
    rewrite (slot_copy _ N) by assumption.
    rewrite decide_False by exact Hjf. reflexivity.
Qed.

Lemma body_frame ax axis_len id a n i carry j :
  shaped N carry -> (ctrue (snd carry) < N)%nat -> live (snd carry) j -> j <> id ->
  live (snd (body_fn ax axis_len id a n i carry)) j /\
  tree_slice (fst (body_fn ax axis_len id a n i carry)) j = tree_slice (fst carry) j.
Proof.
  destruct carry as [sp mask]. intros [Hwf Hlen] Hroom Hj Hjid.
  cbn [fst snd] in *.
  assert (Hf : mask !! argmin mask = Some false) by (apply argmin_free; lia).
  assert (Hjf : j <> argmin mask) by (intros ->; unfold live in Hj; congruence).
  assert (Hjlt : (j < N)%nat) by (rewrite <- Hlen; eapply lookup_lt_Some, Hj).
  unfold body_fn. cbn [fst snd]. split.
  - unfold live. rewrite list_lookup_insert_ne by congruence. exact Hj.
  - rewrite (slot_set_axis _ N) by (try apply wf_set_axis, wf_copy_slot; assumption).
    rewrite decide_False by exact Hjf.
    rewrite (slot_set_axis _ N) by (try apply wf_copy_slot; assumption).
    rewrite decide_False by exact Hjf.
    rewrite (slot_copy _ N) by assumption.
    rewrite decide_False by exact Hjf. reflexivity.
Qed.

Lemma fori_frame ax axis_len id a n j m : forall i carry,
  shaped N carry -> (ctrue (snd carry) + m <= N)%nat ->
  live (snd carry) j -> j <> id ->
  live (snd (fori_iter m i (body_fn ax axis_len id a n) carry)) j /\
  tree_slice (fst (fori_iter m i (body_fn ax axis_len id a n) carry)) j
  = tree_slice (fst carry) j.
Proof.
  induction m as [|m IH]; intros i carry Hs Hroom Hj Hjid; simpl; [auto|].
  destruct (body_shape self N ax axis_len id a n i carry Hs) as [Hs' Hc].
  destruct (body_frame ax axis_len id a n i carry j Hs ltac:(lia) Hj Hjid)
    as [Hj' Heq].
  destruct (IH (Int32.add i 1) _ Hs' ltac:(lia) Hj' Hjid) as [Hj'' Heq'].
  split; [exact Hj'' | congruence].
Qed.

Hypothesis HS : 1 <= S.

Lemma multi_frame item_space ax axis_len id sp mask key j :
  shaped N (sp, mask) -> Z.of_nat (ctrue mask) + S <= Z.of_nat N ->
  live mask j -> j <> id ->
  live (snd (_split_item_multiple_times self item_space ax axis_len id sp mask key)) j /\
  tree_slice
    (fst (_split_item_multiple_times self item_space ax axis_len id sp mask key)) j
  = tree_slice sp j.
Proof.
  intros [Hwf Hlen] Hroom Hj Hjid. cbn [fst snd] in Hwf, Hlen.
  assert (Hjlt : (j < N)%nat) by (rewrite <- Hlen; eapply lookup_lt_Some, Hj).
  unfold _split_item_multiple_times, split_item_into, fori_loop. fold S.
  pose proof (randint_range key 1 (S + 1) ltac:(lia)) as Hn.
  set (n := randint key 1 (S + 1)) in *.
  match goal with |- context [fori_iter ?m ?i ?f ?c] =>
    destruct (fori_frame ax axis_len id (get_axis_value item_space ax 1) n j m i c)
      as [Hj' Heq]
  end.
  - split; cbn [fst snd]; [apply wf_set_axis, Hwf | exact Hlen].
  - cbn [snd]. lia.
  - exact Hj.
  - exact Hjid.
  - split; [exact Hj'|]. rewrite Heq. cbn [fst].
    rewrite (slot_set_axis _ N) by assumption.
    rewrite decide_False by exact Hjid. reflexivity.
Qed.

(** *** The part that is not empty *)

Lemma once_keeps_part id ax sp mask key :
  count_inv N sp mask -> live mask id -> (ctrue mask < N)%nat ->
  exists w,
    live (snd (_split_item_once self (tree_slice sp id) ax
                 (Int32.sub (get_axis_value (tree_slice sp id) ax 2)
                            (get_axis_value (tree_slice sp id) ax 1))
                 id sp mask key)) w /\
    (w = id \/ ~ live mask w) /\
    box_emptyb
      (tree_slice
         (fst (_split_item_once self (tree_slice sp id) ax
                 (Int32.sub (get_axis_value (tree_slice sp id) ax 2)
                            (get_axis_value (tree_slice sp id) ax 1))
                 id sp mask key)) w) = false.
Proof.
  intros ([Hwf Hlen] & Hair & Hne) Hid Hroom. cbn [fst snd] in Hwf, Hlen.
  pose proof (Hne id Hid) as HB.
  pose proof (box_axis_nonzero _ ax HB) as Hab.
  set (B := tree_slice sp id) in *.
  set (a := get_axis_value B ax 1) in *. set (b := get_axis_value B ax 2) in *.
  pose proof (split_item_once_cut self sp mask N id ax Hwf Hlen Hid Hroom
                (Int32.sub b a) key) as Hres.
  cbv zeta in Hres. fold B a b in Hres.
  set (res := _split_item_once self B ax (Int32.sub b a) id sp mask key) in *.
  set (s := randint key _ _) in Hres.
  destruct Hres as (Hnd & Hfree & Hwf' & Hmask & Hslot_id & Hslots & Hothers).
  set (f := argmin mask) in *.
  assert (Hf : mask !! f = Some false)
    by (apply Hfree, list_elem_of_singleton; reflexivity).
  destruct (Z.eq_dec a s) as [Has | Has].
  - exists f. split; [|split].
    + rewrite Hmask. unfold live, mark_all. simpl.
      apply list_lookup_insert_eq. eapply lookup_lt_Some, Hf.
    + right. unfold live. congruence.
    + rewrite (Hslots 0%nat f eq_refl). simpl.
      apply cut_nonempty; [exact HB | congruence].
  - exists id. split; [|split].
    + rewrite Hmask. unfold live, mark_all. simpl.
      rewrite list_lookup_insert_ne; [exact Hid|].
      intros Heq. unfold live in Hid. congruence.
    + left. reflexivity.
    + rewrite Hslot_id. simpl. apply cut_hi_nonempty; assumption.
Qed.

Hypothesis HS24 : S < 2 ^ 24.

Lemma multi_keeps_part id ax sp mask key :
  count_inv N sp mask -> live mask id ->
  Z.of_nat (ctrue mask) + S <= Z.of_nat N ->
  exists w,
    live (snd (_split_item_multiple_times self (tree_slice sp id) ax
                 (Int32.sub (get_axis_value (tree_slice sp id) ax 2)
                            (get_axis_value (tree_slice sp id) ax 1))
                 id sp mask key)) w /\
    (w = id \/ ~ live mask w) /\
    box_emptyb
      (tree_slice
         (fst (_split_item_multiple_times self (tree_slice sp id) ax
                 (Int32.sub (get_axis_value (tree_slice sp id) ax 2)
                            (get_axis_value (tree_slice sp id) ax 1))
                 id sp mask key)) w) = false.
Proof.
  intros ([Hwf Hlen] & Hair & Hne) Hid Hroom. cbn [fst snd] in Hwf, Hlen.
  pose proof (Hne id Hid) as HB.
  pose proof (box_axis_nonzero _ ax HB) as Hab.
  pose proof (slot_in_range sp id ax 1 Hair) as Ha_r.
  pose proof (slot_in_range sp id ax 2 Hair) as Hb_r.
  unfold _split_item_multiple_times. fold S.
  pose proof (randint_range key 1 (S + 1) ltac:(lia)) as Hn.
  set (n := randint key 1 (S + 1)) in *.
  set (B := tree_slice sp id) in *.
  set (a := get_axis_value B ax 1) in *. set (b := get_axis_value B ax 2) in *.
  set (len := Int32.sub b a) in *.
  assert (Hlen_r : Int32.in_range len) by apply sub_in_range.
  assert (Hlen0 : len <> 0) by (apply sub_nonzero; assumption).
  destruct (split_item_into_cuts sp mask N id ax Hwf Hlen Hid n len
              (machine_cut a len n) ltac:(lia)) as (fs & Hfs & Hres).
  { fold B a. unfold machine_cut. change (Z.of_nat 1) with 1.
    unfold Int32.mul. rewrite Z.mul_1_l, wrap_small by exact Hlen_r. reflexivity. }
  { intros i Hi. fold B a. unfold machine_cut. rewrite Z2Nat.id by lia. reflexivity. }
  { lia. }
  fold B in Hres.
  set (res := split_item_into n B ax len id sp mask) in *.
  destruct Hres as (Hnd & Hfree & Hwf' & Hmask & Hslot_id & Hslots & Hothers).
  assert (Hlt : forall g, g ∈ fs -> (g < length mask)%nat)
    by (intros g Hg; eapply lookup_lt_Some, Hfree, Hg).
  destruct (Z.eq_dec a (machine_cut a len n 1)) as [Ha1 | Ha1].
  - destruct (machine_cut_moves a len n Ha_r Hlen_r Hlen0 ltac:(lia))
      as (i & Hi & Hmove).
    destruct (exists_change (machine_cut a len n) (Z.to_nat i) ltac:(lia)
                ltac:(congruence)) as (k & Hk & Hch).
    destruct (lookup_lt_is_Some_2 fs (k - 1)) as [f Hf]; [lia|].
    assert (Hfin : f ∈ fs) by (eapply list_elem_of_lookup_2; exact Hf).
    exists f. split; [|split].
    + rewrite Hmask. unfold live. rewrite lookup_mark_all by exact Hlt.
      rewrite decide_True by exact Hfin. reflexivity.
    + right. unfold live. rewrite (Hfree f Hfin). discriminate.
    + rewrite (Hslots (k - 1)%nat f Hf).
      replace (Datatypes.S (k - 1)) with k by lia.
      apply cut_nonempty; assumption.
  - exists id. split; [|split].
    + rewrite Hmask. unfold live. rewrite lookup_mark_all by exact Hlt.
      destruct (decide (id ∈ fs)); [reflexivity | exact Hid].
    + left. reflexivity.
    + rewrite Hslot_id. apply cut_hi_nonempty; assumption.
Qed.

(** *** One round *)

Lemma along_axis_parts ax sp mask key :
  count_inv N sp mask -> Z.of_nat (ctrue mask) + S <= Z.of_nat N ->
  exists id,
    (forall j, live mask j -> j <> id ->
       live (snd (_split_along_axis self ax sp mask key)) j /\
       tree_slice (fst (_split_along_axis self ax sp mask key)) j = tree_slice sp j) /\
    (live mask id ->
       exists w, live (snd (_split_along_axis self ax sp mask key)) w /\
         (w = id \/ ~ live mask w) /\
         box_emptyb (tree_slice (fst (_split_along_axis self ax sp mask key)) w)
         = false).
Proof.
  intros Hinv Hroom. pose proof Hinv as (Hs & _ & _).
  unfold _split_along_axis.
  destruct (split3 key) as [[item_key split_key] mode_key].
  set (id := drawn_item ax sp mask item_key).
  exists id. destruct (drawn_mode self mode_key).
  - split.
    + intros j Hj Hjid. apply once_frame; [exact Hs | lia | exact Hj | exact Hjid].
    + intros Hid. apply once_keeps_part; [exact Hinv | exact Hid | lia].
  - split.
    + intros j Hj Hjid. apply multi_frame; assumption.
    + intros Hid. apply multi_keeps_part; assumption.
Qed.

(** One round keeps what the count rests on and does not lower the
    count. *)
Lemma round_keeps_count sp mask key :
  count_inv N sp mask -> Z.of_nat (ctrue mask) + S <= Z.of_nat N ->
  count_inv N (fst (_split_space_into_sub_spaces self sp mask key))
              (snd (_split_space_into_sub_spaces self sp mask key)) /\
  (ctrue mask <= ctrue (snd (_split_space_into_sub_spaces self sp mask key)))%nat.
Proof.
  intros Hinv Hroom. pose proof Hinv as (Hs & Hair & Hne).
  pose proof Hs as [Hwf Hlen]. cbn [fst snd] in Hwf, Hlen.
  unfold _split_space_into_sub_spaces.
  destruct (split key) as [axis_key split_key].
  set (ax := axis_of_index (randint axis_key 0 3)).
  pose proof (along_axis_shape self N ax sp mask split_key HS Hs) as [[Hwf' Hlen'] _].
  pose proof (along_axis_in_range ax sp mask split_key Hair) as Hair'.
  destruct (along_axis_parts ax sp mask split_key Hinv Hroom)
    as (id & Hframe & Hpart).
  destruct (_split_along_axis self ax sp mask split_key) as [sp' mask'].
  cbn [fst snd] in *.
  set (mask'' := zip_with andb mask' (negb <$> is_empty sp')).
  assert (Hlive'' : forall j, live mask'' j <->
            live mask' j /\ box_emptyb (tree_slice sp' j) = false).
  { intros j. apply (clear_lookup sp' mask' N); assumption. }
  assert (Hlen'' : length mask'' = N) by (apply length_clear; assumption).
  assert (Hrest : forall j, live mask j -> j <> id -> live mask'' j).
  { intros j Hj Hjid. destruct (Hframe j Hj Hjid) as [Hj' Heq].
    apply Hlive''. split; [exact Hj'|]. rewrite Heq. apply Hne, Hj. }
  split.
  - split; [split; assumption|]. split; [exact Hair'|].
    intros j Hj. apply Hlive'' in Hj. tauto.
  - destruct (mask !! id) as [[|]|] eqn:Hid.
    + destruct (Hpart Hid) as (w & Hw & Hwcase & Hwne).
      apply (count_swap mask mask'' id w); [congruence | exact Hid | | exact Hwcase
                                           | exact Hrest].
      apply Hlive''. split; assumption.
    + apply ctrue_mono; [congruence|]. intros j Hj. apply Hrest; [exact Hj|].
      intros ->. congruence.
    + apply ctrue_mono; [congruence|]. intros j Hj. apply Hrest; [exact Hj|].
      intros ->. congruence.
Qed.

End CountRound.

(** *** The loop *)

Section CountLoop.

Context {P : PRNG} {L : PRNGLaws P}.
Variable self : Config.
Let N := max_num_items self.
Let S := split_num_same_items self.
Let c := make_container (container_dims self).

Hypothesis Hstated : stated_config self.
Hypothesis Hmachine : machine_config self.

Lemma init_count_inv key :
  count_inv N (val_spaces (init_val self c key)) (val_mask (init_val self c key)).
Proof.
  pose proof (init_shaped self key) as Hs. fold N c in Hs.
  pose proof Hs as [Hwf Hlen].
  split; [exact Hs|]. split.
  - unfold init_val, val_spaces, all_in_range, tree_map. simpl.
    repeat split; apply Forall_replicate, wrap_in_range.
  - intros j Hj.
    assert (Hjlt : (j < N)%nat).
    { apply lookup_lt_Some in Hj. cbn [fst snd] in Hlen.
      unfold val_mask in Hj. rewrite Hlen in Hj. exact Hj. }
    destruct Hstated as (_ & _ & _ & _ & _ & Hd).
    destruct Hmachine as (_ & Hm).
    unfold init_val, val_spaces, tree_slice, tree_map, c, make_container.
    destruct (container_dims self) as [[dx dy] dz]. simpl.
    rewrite !gather_replicate by exact Hjlt.
    unfold Int32.mul. rewrite !Z.mul_1_r.
    unfold Int32.max_int in Hm.
    rewrite !wrap_small
      by (unfold Int32.in_range, Int32.min_int, Int32.max_int; lia).
    unfold box_emptyb. cbn [x1 x2 y1 y2 z1 z2].
    destruct (Z.eqb_spec 0 dx); [lia|].
    destruct (Z.eqb_spec 0 dy); [lia|].
    destruct (Z.eqb_spec 0 dz); [lia|]. reflexivity.
Qed.

Lemma reachable_count_inv key val :
  reachable self c key val -> count_inv N (val_spaces val) (val_mask val).
Proof.
  induction 1 as [|[[sp mask] k] Hr IH Hc].
  - apply init_count_inv.
  - apply cond_fun_true in Hc. unfold val_spaces, val_mask in *. simpl in *.
    unfold body_fun. destruct (split k) as [k1 k2].
    destruct Hstated as (_ & _ & _ & _ & HS & _). destruct Hmachine as (HS24 & _).
    pose proof (round_keeps_count self HS HS24 sp mask k2 IH Hc) as [Hinv _].
    destruct (_split_space_into_sub_spaces self sp mask k2). exact Hinv.
Qed.

Lemma round_never_lowers key val :
  reachable self c key val -> cond_fun self val = true ->
  (ctrue (val_mask val) <= ctrue (val_mask (body_fun self val)))%nat.
Proof.
  intros Hr Hc. pose proof (reachable_count_inv key val Hr) as IH.
  destruct val as [[sp mask] k].
  apply cond_fun_true in Hc. unfold val_spaces, val_mask in *. simpl in *.
  unfold body_fun. destruct (split k) as [k1 k2].
  destruct Hstated as (_ & _ & _ & _ & HS & _). destruct Hmachine as (HS24 & _).
  pose proof (round_keeps_count self HS HS24 sp mask k2 IH Hc) as [_ Hm].
  destruct (_split_space_into_sub_spaces self sp mask k2). exact Hm.
Qed.

End CountLoop.

(** ** The tiling invariant *)

(** C1.  For every configuration with [split_eps] in (0, 0.5),
    [prob_split_one_item] in [0, 1], [split_num_same_items >= 1], capacity
    for at least one item and positive container dimensions [d] with
    [split_num_same_items * d < 2 ^ 24], every random source and every
    seed, the solved instance that [generate_solution] returns satisfies:
    the spaces (location and extents) of its masked-true items lie within
    the container, no two overlap, and their volumes add up to the volume
    of the container. *)
Theorem generated_instance_tiles {P : PRNG} {L : PRNGLaws P} (self : Config) (fuel : nat)
    (key : PRNGKey) (h : Store) (r : Ref) (h' : Store) :
  stated_config self -> (1 <= max_num_items self)%nat -> exact_dims self ->
  generate_solution self fuel key h = Some (r, h') ->
  exists st, h' !! r = Some st /\
    container st = make_container (container_dims self) /\
    tiling (container st) (item_space st) (items_mask st).
Proof.
  intros Hstated Hcap Hexact.
  pose proof (stated_valid self Hstated Hcap Hexact) as Hvalid.
  unfold generate_solution, _generate_solved_instance.
  destruct (split key) as [state_key split_key].
  destruct (_split_container_into_items_spaces _ _ _ _) as [[sp mask]|] eqn:Hsplit;
    [|discriminate].
  unfold new_state. intros [= <- <-].
  pose proof (split_container_inv self Hvalid fuel split_key sp mask Hsplit) as Hinv.
  eexists. split; [apply list_lookup_middle; reflexivity|].
  split; [reflexivity|]. simpl.
  apply (tiling_ext_live _ (tree_slice sp)); [apply Hinv|].
  intros j Hj. apply (solved_item_space self Hvalid sp mask); auto.
Qed.

Lemma generated_instance_tiles_witness :
  exists st : @State lcg_prng,
    demo_store !! 0%nat = Some st /\
    tiling (container st) (item_space st) (items_mask st).
Proof.
  destruct (generated_instance_tiles (P := lcg_prng) (L := lcg_laws) demo_config 50 42 [] 0%nat
              demo_store demo_config_stated)
    as (st & Hst & _ & Ht).
  - simpl. lia.
  - exact demo_config_exact.
  - reflexivity.
  - exists st. split; assumption.
Defined.

(** C1, as stated, fails.  On a container of side [2 ^ 30] split in two
    equal parts, the product [2 * axis_len] wraps around in int32 and the
    second part gets a negative upper bound: the second item of the solved
    instance does not lie within the container. *)
Lemma tiling_fails_beyond_int32 :
  ~ (forall (P : PRNG) (L : PRNGLaws P) (self : Config) (fuel : nat)
            (key : PRNGKey) (h : Store) (r : Ref) (h' : Store) (st : State),
       stated_config self ->
       generate_solution self fuel key h = Some (r, h') ->
       h' !! r = Some st ->
       tiling (container st) (item_space st) (items_mask st)).
Proof.
  intros Hall.
  pose proof (fun st => Hall lcg_prng lcg_laws wide_config 50%nat 1 [] 0%nat
                          wide_store st wide_config_stated eq_refl) as Hst.
  unfold wide_store in Hst. specialize (Hst _ eq_refl).
  destruct Hst as [Hin _ _]. specialize (Hin 1%nat eq_refl).
  unfold box_in, item_space, gather in Hin. simpl in Hin. lia.
Qed.

(** Without capacity there is no item at all, and nothing fills the
    container. *)
Example no_capacity_no_tiling :
  exists st : @State lcg_prng,
    generate_solution (P := lcg_prng)
      (mkConfig 0 10 (3 # 10) (7 # 10) 3 (5870, 2330, 2200)) 50 42 []
    = Some (0%nat, [st]) /\
    live_volume (item_space st) (items_mask st) = 0 /\
    box_vol (container st) = 5870 * 2330 * 2200.
Proof. eexists. split; [reflexivity|]. split; reflexivity. Qed.

(** ** The capacity margin *)

Lemma once_count {P : PRNG} self item_space ax axis_len id sp mask key :
  mask_sum (snd (_split_item_once self item_space ax axis_len id sp mask key))
  <= mask_sum mask + 1.
Proof.
  unfold _split_item_once. simpl. rewrite !mask_sum_ctrue.
  pose proof (ctrue_insert_le mask (argmin mask) true). lia.
Qed.

Lemma fori_count ax axis_len id a n m : forall i carry,
  (ctrue (snd (fori_iter m i (body_fn ax axis_len id a n) carry))
   <= ctrue (snd carry) + m)%nat.
Proof.
  induction m as [|m IH]; intros i [sp mask]; simpl; [lia|].
  etransitivity; [apply IH|]. simpl.
  pose proof (ctrue_insert_le mask (argmin mask) true). lia.
Qed.

Lemma multi_count {P : PRNG} {L : PRNGLaws P} self item_space ax axis_len id sp mask key :
  1 <= split_num_same_items self ->
  mask_sum (snd (_split_item_multiple_times self item_space ax axis_len id sp mask key))
  <= mask_sum mask + (split_num_same_items self - 1).
Proof.
  intros HS. unfold _split_item_multiple_times, split_item_into, fori_loop.
  pose proof (randint_range key 1 (split_num_same_items self + 1) ltac:(lia)) as Hn.
  set (n := randint key 1 (split_num_same_items self + 1)) in *.
  rewrite !mask_sum_ctrue.
  match goal with |- context [fori_iter ?m ?i ?f ?c] =>
    pose proof (fori_count ax axis_len id (get_axis_value item_space ax 1) n m i c) as Hc
  end.
  simpl in Hc. lia.
Qed.

Lemma round_count {P : PRNG} {L : PRNGLaws P} self val :
  1 <= split_num_same_items self ->
  mask_sum (val_mask (body_fun self val))
  <= mask_sum (val_mask val)
     + (if round_mode self val then 1 else split_num_same_items self - 1).
Proof.
  intros HS. destruct val as [[sp mask] k]. unfold body_fun, round_mode, val_mask.
  simpl. destruct (split k) as [k1 k2].
  unfold _split_space_into_sub_spaces. destruct (split k2) as [axis_key split_key].
  unfold _split_along_axis. destruct (split3 split_key) as [[item_key sk] mode_key].
  destruct (drawn_mode self mode_key).
  - match goal with |- context [_split_item_once self ?b ?x ?l ?i sp mask ?k] =>
      pose proof (once_count self b x l i sp mask k) as Hc;
      destruct (_split_item_once self b x l i sp mask k) as [sp' mask'] end.
    simpl in *. rewrite !mask_sum_ctrue in *.
    pose proof (ctrue_zip_and mask' (negb <$> is_empty sp')). lia.
  - match goal with |- context [_split_item_multiple_times self ?b ?x ?l ?i sp mask ?k] =>
      pose proof (multi_count self b x l i sp mask k HS) as Hc;
      destruct (_split_item_multiple_times self b x l i sp mask k) as [sp' mask'] end.
    simpl in *. rewrite !mask_sum_ctrue in *.
    pose proof (ctrue_zip_and mask' (negb <$> is_empty sp')). lia.
Qed.

(** C2.  Whenever [split_num_same_items >= 1], for every random source and
    seed: every value [val] of the splitting loop has a mask of
    [max_num_items] entries, of which at most [max_num_items] are true; the
    body is entered only when the live count is below
    [max_num_items - split_num_same_items + 1]; a round then adds at most
    one to the live count when it splits in two and at most
    [split_num_same_items - 1] otherwise, which stays within
    [max_num_items]; and the value the loop ends with has the same
    bound. *)
Theorem capacity_margin {P : PRNG} {L : PRNGLaws P} (self : Config) (key : PRNGKey)
    (val : Space (list Z) * list bool * PRNGKey) :
  1 <= split_num_same_items self ->
  reachable self (make_container (container_dims self)) key val ->
  length (val_mask val) = max_num_items self /\
  mask_sum (val_mask val) <= Z.of_nat (max_num_items self) /\
  (cond_fun self val = true ->
     mask_sum (val_mask val)
       < Z.of_nat (max_num_items self) - split_num_same_items self + 1 /\
     mask_sum (val_mask (body_fun self val))
       <= mask_sum (val_mask val)
          + (if round_mode self val then 1 else split_num_same_items self - 1) /\
     mask_sum (val_mask val)
       + (if round_mode self val then 1 else split_num_same_items self - 1)
       <= Z.of_nat (max_num_items self)) /\
  (forall fuel sp mask,
     _split_container_into_items_spaces self fuel
       (make_container (container_dims self)) key = Some (sp, mask) ->
     mask_sum mask <= Z.of_nat (max_num_items self) /\
     Z.of_nat (max_num_items self) - split_num_same_items self + 1 <= mask_sum mask).
Proof.
  intros HS Hr.
  assert (Hbound : forall v, reachable self (make_container (container_dims self)) key v ->
            length (val_mask v) = max_num_items self /\
            mask_sum (val_mask v) <= Z.of_nat (max_num_items self)).
  { intros v Hv. pose proof (reachable_shaped self key v HS Hv) as [_ Hlen].
    unfold val_mask. split; [exact Hlen|].
    rewrite mask_sum_ctrue, <- Hlen. pose proof (ctrue_le_length (snd (fst v))). lia. }
  destruct (Hbound val Hr) as [Hlen Hle].
  split; [exact Hlen|]. split; [exact Hle|]. split.
  - intros Hc. pose proof (proj1 (cond_fun_true self val) Hc) as Hc'.
    rewrite !mask_sum_ctrue in *. split; [lia|]. split.
    + rewrite <- !mask_sum_ctrue. apply round_count. exact HS.
    + destruct (round_mode self val); lia.
  - intros fuel sp mask. unfold _split_container_into_items_spaces.
    destruct (while_loop _ _ _ _) as [[[sp' mask'] k]|] eqn:Hloop; [|discriminate].
    intros [= <- <-].
    destruct (while_loop_reachable self _ key fuel _ _ (reach_init self _ key) Hloop)
      as [Hr' Hc'].
    destruct (Hbound _ Hr') as [_ Hle']. unfold val_mask in Hle'. simpl in Hle'.
    split; [exact Hle'|].
    unfold cond_fun in Hc'. apply Z.ltb_ge in Hc'. lia.
Qed.

Lemma capacity_margin_witness :
  1 <= split_num_same_items demo_config /\
  mask_sum (val_mask (init_val (P := lcg_prng) demo_config
                        (make_container (container_dims demo_config)) 42))
  <= 6.
Proof.
  assert (HS : 1 <= split_num_same_items demo_config) by (simpl; lia).
  split; [exact HS|].
  exact (proj1 (proj2 (capacity_margin (P := lcg_prng) (L := lcg_laws) demo_config 42
                         (init_val (P := lcg_prng) demo_config
                            (make_container (container_dims demo_config)) 42)
                         HS (reach_init _ _ _)))).
Defined.

(** ** Monotonicity of the live count *)

(** C3.  For every configuration with [split_eps] in (0, 0.5),
    [prob_split_one_item] in [0, 1], [split_num_same_items >= 1] and
    positive container dimensions (the dimensions being int32 values and
    [split_num_same_items] below [2 ^ 24], as the machine holds them),
    every random source and seed, every value [val] the splitting loop
    reaches and on which it runs its body: the number of true entries of
    the mask after the round is at least the number before it.  No bound
    on the magnitudes is needed here: the count does not go down even
    where the int32 products wrap around. *)
Theorem live_count_monotone {P : PRNG} {L : PRNGLaws P} (self : Config) (key : PRNGKey)
    (val : Space (list Z) * list bool * PRNGKey) :
  stated_config self -> machine_config self ->
  reachable self (make_container (container_dims self)) key val ->
  cond_fun self val = true ->
  mask_sum (val_mask val) <= mask_sum (val_mask (body_fun self val)).
Proof.
  intros Hstated Hmachine Hr Hc. rewrite !mask_sum_ctrue.
  pose proof (round_never_lowers self Hstated Hmachine key val Hr Hc). lia.
Qed.

Lemma live_count_monotone_witness :
  mask_sum (val_mask (init_val (P := lcg_prng) demo_config
                        (make_container (container_dims demo_config)) 42))
  <= mask_sum (val_mask (body_fun demo_config
        (init_val demo_config (make_container (container_dims demo_config)) 42))).
Proof.
  apply (live_count_monotone (P := lcg_prng) (L := lcg_laws) demo_config 42).
  - exact demo_config_stated.
  - exact demo_config_machine.
  - apply reach_init.
  - reflexivity.
Defined.

(** ** The split into several parts, part by part *)

(** C5.  Let a multi-split with sampled count [n] act on a live
    slot [id] whose interval on the chosen axis is [a, b], in a buffer of
    [N] slots with at least [n - 1] free ones, where [0 <= a <= b <= d] and
    [n * d < 2 ^ 24].  Afterwards the slot [id] holds the interval
    [a, a + (b - a) / n] on that axis; [n - 1] distinct slots that were
    free are marked occupied, the [i]-th of them ([i = 1 .. n - 1]) holding
    the interval [a + i * (b - a) / n, a + (i + 1) * (b - a) / n] and the
    bounds of the original box on the two other axes; every other slot and
    mask entry is unchanged.  Quotients are floor quotients. *)
Theorem multi_split_parts {P : PRNG} (self : Config) (sp : Space (list Z))
    (mask : list bool) (N id : nat) (ax : Axis) (key : PRNGKey) (n d : Z) :
  let B := tree_slice sp id in
  let a := get_axis_value B ax 1 in
  let b := get_axis_value B ax 2 in
  wf sp N -> length mask = N -> live mask id ->
  randint key 1 (split_num_same_items self + 1) = n ->
  0 <= a -> a <= b -> b <= d -> 1 <= n < 2 ^ 24 -> n * d < 2 ^ 24 ->
  (ctrue mask + Z.to_nat (n - 1) <= N)%nat ->
  let res := _split_item_multiple_times self B ax (b - a) id sp mask key in
  exists fs,
    length fs = Z.to_nat (n - 1) /\ NoDup fs /\
    (forall f, f ∈ fs -> mask !! f = Some false) /\
    snd res = mark_all mask fs /\
    tree_slice (fst res) id = cut_hi B ax (a + (b - a) / n) /\
    (forall i f, fs !! i = Some f ->
       tree_slice (fst res) f
       = cut_hi (cut_lo B ax (a + ((Z.of_nat i + 1) * (b - a)) / n))
                ax (a + ((Z.of_nat i + 2) * (b - a)) / n)) /\
    (forall j, (j < N)%nat -> j <> id -> j ∉ fs ->
       tree_slice (fst res) j = tree_slice sp j).
Proof.
  intros B a b Hwf Hlen Hid Hdraw Ha Hab Hb Hn Hnd Hroom res.
  subst res. subst a b B.
  destruct (split_item_into_spec sp mask N id ax Hwf Hlen Hid n d Ha Hab Hb Hn Hnd Hroom)
    as (fs & Hfs & Hnodup & Hfree & _ & Hmask & Hslot_id & Hslots & Hrest).
  unfold _split_item_multiple_times. rewrite Hdraw.
  exists fs. repeat split; try assumption.
  - rewrite Hslot_id. unfold multi_cut.
    rewrite Z.mul_1_l. reflexivity.
  - intros i f Hf. rewrite (Hslots i f Hf). unfold multi_cut.
    replace (Z.of_nat (S i)) with (Z.of_nat i + 1) by lia.
    replace (Z.of_nat (S (S i))) with (Z.of_nat i + 2) by lia. reflexivity.
Qed.

Lemma multi_split_parts_witness :
  tree_slice
    (fst (_split_item_multiple_times (P := lcg_prng) wide_config
            (tree_slice (two_slots 5870) 0) AxisX (5870 - 0) 0 (two_slots 5870)
            [true; false] 1)) 0
  = cut_hi (tree_slice (two_slots 5870) 0) AxisX (0 + (5870 - 0) / 2).
Proof.
  destruct (multi_split_parts (P := lcg_prng) wide_config (two_slots 5870)
              [true; false] 2 0 AxisX 1 2 5870)
    as (fs & _ & _ & _ & _ & Hid & _).
  - vm_compute. tauto.
  - reflexivity.
  - reflexivity.
  - vm_compute. reflexivity.
  - vm_compute. discriminate.
  - vm_compute. discriminate.
  - vm_compute. discriminate.
  - lia.
  - lia.
  - vm_compute. lia.
  - exact Hid.
Defined.

(** C5, as stated, fails.  On a box [2 ^ 30] wide split in two, the second
    part should hold [2 ^ 29, 2 ^ 30]; the product [2 * 2 ^ 30] wraps
    around in int32 and the slot holds [2 ^ 29, - 2 ^ 30]. *)
Lemma multi_split_parts_overflow :
  ~ (forall (P : PRNG) (self : Config) (sp : Space (list Z)) (mask : list bool)
            (N id : nat) (ax : Axis) (key : PRNGKey) (n : Z),
       let B := tree_slice sp id in
       let a := get_axis_value B ax 1 in
       let b := get_axis_value B ax 2 in
       wf sp N -> length mask = N -> live mask id ->
       randint key 1 (split_num_same_items self + 1) = n ->
       a <= b -> (ctrue mask + Z.to_nat (n - 1) <= N)%nat ->
       let res := _split_item_multiple_times self B ax (b - a) id sp mask key in
       exists fs,
         length fs = Z.to_nat (n - 1) /\
         (forall f, f ∈ fs -> mask !! f = Some false) /\
         (forall i f, fs !! i = Some f ->
            tree_slice (fst res) f
            = cut_hi (cut_lo B ax (a + ((Z.of_nat i + 1) * (b - a)) / n))
                     ax (a + ((Z.of_nat i + 2) * (b - a)) / n))).
Proof.
  intros Hall.
  destruct (Hall lcg_prng wide_config (two_slots (2 ^ 30)) [true; false]
              2%nat 0%nat AxisX 1 2) as (fs & Hlen & Hfree & Hparts).
  - vm_compute. tauto.
  - reflexivity.
  - reflexivity.
  - reflexivity.
  - vm_compute. discriminate.
  - vm_compute. lia.
  - destruct fs as [|f [|g fs]]; try discriminate Hlen.
    assert (Hf : f = 1%nat).
    { specialize (Hfree f ltac:(apply list_elem_of_singleton; reflexivity)).
      destruct f as [|[|f]]; [discriminate | reflexivity | discriminate]. }
    subst f. specialize (Hparts 0%nat 1%nat eq_refl).
    vm_compute in Hparts. discriminate.
Qed.

(** ** A split into one part *)

(** C10.  When a multi-split draws the count 1 on a slot whose
    interval on the chosen axis is [a, b] with [0 <= b - a < 2 ^ 24] (and
    [b] an int32), it leaves the buffer and the mask as they are: the upper
    bound of the slot is rewritten to [a + (b - a) / 1 = b] and no slot is
    marked. *)
Theorem multi_split_one_is_identity {P : PRNG} (self : Config)
    (sp : Space (list Z)) (mask : list bool) (id : nat) (ax : Axis)
    (key : PRNGKey) :
  let B := tree_slice sp id in
  let a := get_axis_value B ax 1 in
  let b := get_axis_value B ax 2 in
  randint key 1 (split_num_same_items self + 1) = 1 ->
  0 <= b - a < 2 ^ 24 -> Int32.in_range b ->
  _split_item_multiple_times self B ax (b - a) id sp mask key = (sp, mask).
Proof.
  intros B a b Hdraw Hlen Hb.
  unfold _split_item_multiple_times, split_item_into, fori_loop. rewrite Hdraw.
  simpl. fold a. unfold int32_quotient.
  rewrite div_trunc_exact by lia. rewrite Z.div_1_r.
  unfold Int32.add. replace (a + (b - a)) with b by lia. rewrite wrap_small by exact Hb.
  f_equal.
  assert (Hins : <[id := b]> (get_axis_value sp ax 2) = get_axis_value sp ax 2).
  { apply list_insert_id'. intros Hlt. unfold b, B.
    rewrite get_axis_slice. apply gather_lookup, Hlt. }
  rewrite Hins. apply set_axis_get.
Qed.

Lemma multi_split_one_is_identity_witness :
  _split_item_multiple_times (P := lcg_prng) wide_config
    (tree_slice (two_slots 5870) 0) AxisX (5870 - 0) 0 (two_slots 5870)
    [true; false] 0
  = (two_slots 5870, [true; false]).
Proof.
  apply (multi_split_one_is_identity (P := lcg_prng) wide_config (two_slots 5870)
           [true; false] 0 AxisX 0).
  - reflexivity.
  - vm_compute. split; [discriminate | reflexivity].
  - vm_compute. split; discriminate.
Defined.

(** C10, as stated, fails.  A length of [2 ^ 24 + 1] is not a
    single-precision float: [jnp.int32(axis_len / 1)] is [2 ^ 24], and the
    upper bound of the slot moves from [2 ^ 24 + 1] to [2 ^ 24]. *)
Lemma multi_split_one_rounds :
  ~ (forall (P : PRNG) (self : Config) (sp : Space (list Z)) (mask : list bool)
            (id : nat) (ax : Axis) (key : PRNGKey),
       let B := tree_slice sp id in
       let a := get_axis_value B ax 1 in
       let b := get_axis_value B ax 2 in
       randint key 1 (split_num_same_items self + 1) = 1 ->
       _split_item_multiple_times self B ax (b - a) id sp mask key = (sp, mask)).
Proof.
  intros Hall.
  specialize (Hall lcg_prng wide_config (two_slots (2 ^ 24 + 1)) [true; false]
                0%nat AxisX 0 eq_refl).
  vm_compute in Hall. discriminate.
Qed.

(** ** The reset transform *)

(** What [_unpack_items] does to the store. *)
Lemma unpack_items_spec {P : PRNG} (self : Config) (h : Store)
    (state : Ref) (st : State) :
  h !! state = Some st ->
  exists st',
    _unpack_items self state h = (state, <[state := st']> h) /\
    ems_mask st' = <[0%nat := true]> (zeros_bool (max_num_ems self)) /\
    items_placed st' = zeros_bool (max_num_items self) /\
    items_location st'
    = Location.mk (zeros_int32 (max_num_items self))
                  (zeros_int32 (max_num_items self))
                  (zeros_int32 (max_num_items self)) /\
    container st' = container st /\ ems st' = ems st /\
    items st' = items st /\ items_mask st' = items_mask st /\
    action_mask st' = action_mask st /\
    sorted_ems_indexes st' = sorted_ems_indexes st /\ key st' = key st.
Proof.
  intros Hst. eexists. split.
  - unfold _unpack_items. cbv beta zeta delta [assign]. unfold Store, Ref in *.
    f_equal. apply list_eq. intros i.
    destruct (decide (state = i)) as [<- | Hne].
    + rewrite !list_lookup_alter_eq, Hst.
      rewrite list_lookup_insert_eq by (eapply lookup_lt_Some, Hst). reflexivity.
    + rewrite !list_lookup_alter_ne by exact Hne.
      rewrite list_lookup_insert_ne by exact Hne. reflexivity.
  - simpl. repeat split.
Qed.

(** C4.  [_unpack_items] works in place: it returns the reference
    it was given, and in the store that results the record behind that
    reference has its [ems_mask] set to one live entry, its [items_placed]
    flags all false and its [items_location] coordinates all zero, whatever
    they were; its other attributes, and every other record of the store,
    are as before. *)
Theorem unpack_items_in_place {P : PRNG} (self : Config) (h : Store)
    (state : Ref) (st : State) :
  h !! state = Some st ->
  exists st',
    _unpack_items self state h = (state, <[state := st']> h) /\
    ems_mask st' = <[0%nat := true]> (zeros_bool (max_num_ems self)) /\
    items_placed st' = zeros_bool (max_num_items self) /\
    items_location st'
    = Location.mk (zeros_int32 (max_num_items self))
                  (zeros_int32 (max_num_items self))
                  (zeros_int32 (max_num_items self)) /\
    container st' = container st /\ ems st' = ems st /\
    items st' = items st /\ items_mask st' = items_mask st /\
    action_mask st' = action_mask st /\
    sorted_ems_indexes st' = sorted_ems_indexes st /\ key st' = key st.
Proof. exact (unpack_items_spec self h state st). Qed.

Lemma unpack_items_in_place_witness :
  fst (_unpack_items (P := lcg_prng) demo_config 0%nat demo_store) = 0%nat.
Proof.
  unfold demo_store.
  destruct (unpack_items_in_place (P := lcg_prng) demo_config demo_store 0%nat _ eq_refl)
    as (st' & Heq & _).
  unfold demo_store in Heq. rewrite Heq. reflexivity.
Defined.

(** C4, as stated, fails.  After [_unpack_items] on the solved record of
    the default configuration, the record that was given has lost its
    [items_placed] flags: the transform overwrote them. *)
Lemma unpack_items_mutates :
  ~ (forall (P : PRNG) (self : Config) (h : Store) (state : Ref) (st : State),
       h !! state = Some st ->
       fst (_unpack_items self state h) <> state /\
       exists st', snd (_unpack_items self state h) !! state = Some st' /\
         items_placed st' = items_placed st /\
         items_location st' = items_location st /\
         ems_mask st' = ems_mask st).
Proof.
  intros Hall.
  pose proof (fun st => Hall lcg_prng demo_config demo_store 0%nat st) as Hst.
  unfold demo_store in Hst. specialize (Hst _ eq_refl).
  destruct Hst as [_ (st' & Hst' & Hplaced & _)].
  simpl in Hst'. injection Hst' as <-. simpl in Hplaced. discriminate.
Qed.

(** ** Reset and solution of the same seed *)

Section ResetSolved.

Context {P : PRNG}.
Variable self : Config.

Lemma generate_solution_shape fuel key h r h' :
  generate_solution self fuel key h = Some (r, h') ->
  exists sol, r = length h /\ h' = h ++ [sol] /\
    forall h2, generate_solution self fuel key h2 = Some (length h2, h2 ++ [sol]).
Proof.
  unfold generate_solution, _generate_solved_instance.
  destruct (split key) as [state_key split_key].
  destruct (_split_container_into_items_spaces _ _ _ _) as [[sp mask]|]; [|discriminate].
  unfold new_state. intros [= <- <-]. eexists. split; [reflexivity|].
  split; reflexivity.
Qed.

Lemma call_unfold fuel key h :
  __call__ self fuel key h
  = match generate_solution self fuel key h with
    | Some (solution, h') => Some (_unpack_items self solution h')
    | None => None
    end.
Proof. reflexivity. Qed.

End ResetSolved.

(** C6.  For every configuration, random source and seed: when
    [generate_solution] returns a solved instance, [__call__] with the same
    seed (from any store) returns a reset state whose [items_placed] flags
    are all false, whose [items_location] coordinates are all zero, and
    whose items and [items_mask] are those of the solved instance. *)
Theorem reset_matches_solution {P : PRNG} (self : Config) (fuel : nat)
    (key : PRNGKey) (h1 h2 : Store) (r1 : Ref) (h1' : Store) :
  generate_solution self fuel key h1 = Some (r1, h1') ->
  exists sol r2 h2' st,
    h1' !! r1 = Some sol /\
    __call__ self fuel key h2 = Some (r2, h2') /\
    h2' !! r2 = Some st /\
    items_placed st = replicate (max_num_items self) false /\
    items_location st
    = Location.mk (replicate (max_num_items self) 0)
                  (replicate (max_num_items self) 0)
                  (replicate (max_num_items self) 0) /\
    items st = items sol /\
    items_mask st = items_mask sol.
Proof.
  intros Hgen.
  destruct (generate_solution_shape self fuel key h1 r1 h1' Hgen)
    as (sol & -> & -> & Hany).
  assert (Hsol : (h2 ++ [sol]) !! length h2 = Some sol)
    by (apply list_lookup_middle; reflexivity).
  destruct (unpack_items_spec self (h2 ++ [sol]) (length h2) sol Hsol)
    as (st & Heq & _ & Hplaced & Hloc & _ & _ & Hitems & Hmask & _).
  exists sol, (length h2), (<[length h2 := st]> (h2 ++ [sol])), st.
  split; [apply list_lookup_middle; reflexivity|].
  split; [rewrite call_unfold, Hany, Heq; reflexivity|].
  split; [apply list_lookup_insert_eq; rewrite length_app; simpl; lia|].
  auto.
Qed.

Lemma reset_matches_solution_witness :
  exists (sol st : @State lcg_prng) (r2 : Ref) (h2' : Store),
    __call__ (P := lcg_prng) demo_config 50 42 [] = Some (r2, h2') /\
    h2' !! r2 = Some st /\ demo_store !! 0%nat = Some sol /\
    items st = items sol /\ items_mask st = items_mask sol.
Proof.
  destruct (reset_matches_solution (P := lcg_prng) demo_config 50 42 [] [] 0%nat
              demo_store eq_refl)
    as (sol & r2 & h2' & st & Hsol & Hcall & Hst & _ & _ & Hitems & Hmask).
  exists sol, st, r2, h2'. auto.
Defined.

(** ** Reproducibility *)

(** More fuel does not change what a loop returns. *)
Lemma while_loop_fuel_mono {A} (cond : A -> bool) (body : A -> A) :
  forall (fuel fuel' : nat) (val res : A),
    while_loop fuel cond body val = Some res -> (fuel <= fuel')%nat ->
    while_loop fuel' cond body val = Some res.
Proof.
  induction fuel as [|fuel IH]; intros fuel' val res Hrun Hle.
  - destruct fuel'; simpl in *; destruct (cond val); congruence.
  - destruct fuel' as [|fuel']; [lia|]. simpl in *.
    destruct (cond val); [|exact Hrun]. apply IH; [exact Hrun | lia].
Qed.

Lemma generate_solution_fuel_mono {P : PRNG} (self : Config) (fuel fuel' : nat)
    (key : PRNGKey) (h : Store) (res : Ref * Store) :
  generate_solution self fuel key h = Some res -> (fuel <= fuel')%nat ->
  generate_solution self fuel' key h = Some res.
Proof.
  unfold generate_solution, _generate_solved_instance.
  destruct (split key) as [state_key split_key].
  unfold _split_container_into_items_spaces.
  destruct (while_loop fuel _ _ _) as [[[sp mask] k]|] eqn:Hrun; [|discriminate].
  intros Hres Hle.
  rewrite (while_loop_fuel_mono _ _ fuel fuel' _ _ Hrun Hle). exact Hres.
Qed.

(** C9.  For every configuration, random source and seed, two runs of
    [generate_solution] with the same seed, from any two stores (the second
    run may start from the store the first one left), either both run out
    of fuel or both return records with equal items, equal item locations
    and equal [items_mask]; likewise for two runs of [__call__]; and the
    fuel does not matter: two runs that return, with whatever fuel each,
    return such equal records. *)
Theorem generation_deterministic {P : PRNG} (self : Config) (fuel : nat)
    (key : PRNGKey) (h1 h2 : Store) :
  match generate_solution self fuel key h1, generate_solution self fuel key h2 with
  | Some (r1, h1'), Some (r2, h2') =>
      exists s1 s2, h1' !! r1 = Some s1 /\ h2' !! r2 = Some s2 /\
        items s1 = items s2 /\ items_location s1 = items_location s2 /\
        items_mask s1 = items_mask s2
  | None, None => True
  | _, _ => False
  end /\
  match __call__ self fuel key h1, __call__ self fuel key h2 with
  | Some (r1, h1'), Some (r2, h2') =>
      exists s1 s2, h1' !! r1 = Some s1 /\ h2' !! r2 = Some s2 /\
        items s1 = items s2 /\ items_location s1 = items_location s2 /\
        items_mask s1 = items_mask s2
  | None, None => True
  | _, _ => False
  end /\
  (forall fuel' r1 h1' r2 h2',
     generate_solution self fuel key h1 = Some (r1, h1') ->
     generate_solution self fuel' key h2 = Some (r2, h2') ->
     exists s1 s2, h1' !! r1 = Some s1 /\ h2' !! r2 = Some s2 /\
       items s1 = items s2 /\ items_location s1 = items_location s2 /\
       items_mask s1 = items_mask s2).
Proof.
  assert (Hfuel : forall fuel' r1 h1' r2 h2',
     generate_solution self fuel key h1 = Some (r1, h1') ->
     generate_solution self fuel' key h2 = Some (r2, h2') ->
     exists s1 s2, h1' !! r1 = Some s1 /\ h2' !! r2 = Some s2 /\
       items s1 = items s2 /\ items_location s1 = items_location s2 /\
       items_mask s1 = items_mask s2).
  { intros fuel' r1 h1' r2 h2' H1 H2.
    apply (generate_solution_fuel_mono self fuel (fuel `max` fuel')) in H1; [|lia].
    apply (generate_solution_fuel_mono self fuel' (fuel `max` fuel')) in H2; [|lia].
    destruct (generate_solution_shape self _ key h1 r1 h1' H1)
      as (sol & -> & -> & Hany).
    rewrite (Hany h2) in H2. injection H2 as <- <-.
    exists sol, sol.
    split; [apply list_lookup_middle; reflexivity|].
    split; [apply list_lookup_middle; reflexivity|]. auto. }
  refine ((fun H => conj (proj1 H) (conj (proj2 H) Hfuel)) _). clear Hfuel.
  rewrite !call_unfold.
  destruct (generate_solution self fuel key h1) as [[r1 h1']|] eqn:H1.
  - destruct (generate_solution_shape self fuel key h1 r1 h1' H1)
      as (sol & -> & -> & Hany).
    rewrite (Hany h2).
    assert (Hl : forall h : Store, (h ++ [sol]) !! length h = Some sol)
      by (intros h; apply list_lookup_middle; reflexivity).
    split.
    + exists sol, sol. auto.
    + destruct (unpack_items_spec self _ _ sol (Hl h1))
        as (u1 & -> & _ & Hp1 & Hl1 & _ & _ & Hi1 & Hm1 & _).
      destruct (unpack_items_spec self _ _ sol (Hl h2))
        as (u2 & -> & _ & Hp2 & Hl2 & _ & _ & Hi2 & Hm2 & _).
      exists u1, u2.
      split; [apply list_lookup_insert_eq; rewrite length_app; simpl; lia|].
      split; [apply list_lookup_insert_eq; rewrite length_app; simpl; lia|].
      repeat split; congruence.
  - destruct (generate_solution self fuel key h2) as [[r2 h2']|] eqn:H2; [|tauto].
    destruct (generate_solution_shape self fuel key h2 r2 h2' H2)
      as (sol & -> & -> & Hany).
    rewrite (Hany h1) in H1. discriminate.
Qed.

(** ** The header check *)

Lemma parse_row_errors row e :
  parse_row row = inl e ->
  e = IndexError \/
  exists s, e = ValueError ("invalid literal for int() with base 10: '" ++ s ++ "'").
Proof.
  unfold parse_row, bind_exn, field, int.
  repeat match goal with
  | |- context [match ?l !! ?i with _ => _ end] => destruct (l !! i)
  | |- context [match NilZero.int_of_string ?s with _ => _ end] =>
      destruct (NilZero.int_of_string s)
  end; intros [= <-]; eauto.
Qed.

Lemma read_rows_errors reader : forall n rows e,
  read_rows (S n) reader rows = inl e ->
  e = IndexError \/
  exists s, e = ValueError ("invalid literal for int() with base 10: '" ++ s ++ "'").
Proof.
  induction reader as [|row rest IH]; intros n rows e; simpl; [discriminate|].
  destruct (parse_row row) as [e'|r] eqn:Hrow; simpl.
  - intros [= <-]. exact (parse_row_errors row e' Hrow).
  - apply IH.
Qed.

(** C8.  Reading a CSV file whose first row has a number of columns other
    than five fails with one error; reading one whose first row has five
    columns that are not [Product_Name, Length, Width, Height, Quantity] in
    that order fails with another error; this happens whatever rows follow
    and [_parse_csv_file] returns that error instead of an instance; a file
    whose first row is exactly those columns passes the check: reading goes
    on with the data rows and can no longer fail with either error. *)
Theorem csv_header_check (header : list string) (rest : list (list string)) :
  (length header <> 5%nat ->
     _read_csv (header :: rest) = inl wrong_number_of_columns) /\
  (length header = 5%nat -> header <> CSV_COLUMNS ->
     _read_csv (header :: rest) = inl columns_in_wrong_order) /\
  wrong_number_of_columns <> columns_in_wrong_order /\
  (header = CSV_COLUMNS ->
     _read_csv (header :: rest) = read_rows 1 rest [] /\
     _read_csv (header :: rest) <> inl wrong_number_of_columns /\
     _read_csv (header :: rest) <> inl columns_in_wrong_order) /\
  (forall (P : PRNG) (key0 : PRNGKey) (max_num_ems : nat) (dims : Z * Z * Z) e,
     _read_csv (header :: rest) = inl e ->
     _parse_csv_file key0 (header :: rest) max_num_ems dims = inl e).
Proof.
  split; [|split; [|split; [|split]]].
  - intros Hlen. unfold _read_csv. simpl.
    destruct (Nat.eqb_spec (length header) 5); [contradiction|]. reflexivity.
  - intros Hlen Hne. unfold _read_csv. simpl. rewrite Hlen. simpl.
    rewrite bool_decide_eq_false_2 by exact Hne. reflexivity.
  - discriminate.
  - intros ->.
    assert (Hread : _read_csv (CSV_COLUMNS :: rest) = read_rows 1 rest [])
      by reflexivity.
    rewrite Hread.
    split; [reflexivity|].
    split; intros Herr;
      destruct (read_rows_errors rest 0 [] _ Herr) as [? | [s ?]]; discriminate.
  - intros P key0 max_num_ems dims e He. unfold _parse_csv_file.
    rewrite He. reflexivity.
Qed.

Lemma csv_header_check_witness :
  _read_csv [["Product_Name"; "Length"]; ["shape_1"; "a"]]%string
  = inl wrong_number_of_columns.
Proof.
  apply (csv_header_check ["Product_Name"; "Length"]%string [["shape_1"; "a"]]%string).
  simpl. discriminate.
Defined.

(** The file of the docstring is read as two groups. *)
Example demo_csv_read :
  _read_csv demo_csv
  = inr [("shape_1", 1080, 760, 300, 5); ("shape_2", 1100, 430, 250, 3)]%string.
Proof. reflexivity. Qed.

(** ** Writing and reading back *)

Lemma int_str z : int (str z) = inr z.
Proof.
  unfold int, str. rewrite NilZero.isi.
  - rewrite DecimalZ.of_to. reflexivity.
  - destruct z; simpl; try discriminate.
    intros [= Heq]. exact (Unsigned.to_uint_nonnil _ Heq).
  - destruct z; simpl; try discriminate.
    intros [= Heq]. exact (Unsigned.to_uint_nonnil _ Heq).
Qed.

Lemma parse_written_row name x y z n :
  parse_row [name; str x; str y; str z; str n] = inr (name, x, y, z, n).
Proof. unfold parse_row, bind_exn, field. simpl. rewrite !int_str. reflexivity. Qed.

Lemma read_rows_imap {A} (f : nat -> A -> list string) (g : nat -> A -> Row) l :
  forall k rows,
  (forall i a, parse_row (f i a) = inr (g i a)) ->
  read_rows (S k) (imap f l) rows = inr (rows ++ imap g l).
Proof.
  revert f g. induction l as [|a l IH]; intros f g k rows Hfg; simpl.
  - rewrite app_nil_r. reflexivity.
  - rewrite Hfg. simpl. rewrite (IH (f ∘ S) (g ∘ S)).
    + rewrite <- app_assoc. reflexivity.
    + intros i b. apply Hfg.
Qed.

Lemma generate_items_flat rows :
  _generate_list_of_items rows
  = flat_map (fun '(_, x, y, z, q) => replicate (Z.to_nat q) (mkItem x y z)) rows.
Proof.
  unfold _generate_list_of_items.
  enough (Hgen : forall acc,
    foldl (fun list_of_items '(_, x_len, y_len, z_len, quantity) =>
             list_of_items ++ replicate (Z.to_nat quantity) (mkItem x_len y_len z_len))
          acc rows
    = acc ++ flat_map (fun '(_, x, y, z, q) => replicate (Z.to_nat q) (mkItem x y z)) rows)
    by apply (Hgen []).
  induction rows as [|[[[[name x] y] z] q] rows IH]; intros acc; simpl.
  - rewrite app_nil_r. reflexivity.
  - rewrite IH, <- app_assoc. reflexivity.
Qed.

(** *** The counter *)

Lemma count_up_expand item counts :
  Forall (fun g => 1 <= g.2) counts ->
  expand_groups (count_up item counts) ≡ₚ item :: expand_groups counts.
Proof.
  induction counts as [|[k c] rest IH]; intros Hpos; simpl.
  - reflexivity.
  - apply Forall_cons in Hpos as [Hc Hrest]. simpl in Hc.
    case_bool_decide as Hk.
    + subst k. unfold expand_groups. simpl.
      replace (Z.to_nat (c + 1)) with (S (Z.to_nat c)) by lia. reflexivity.
    + unfold expand_groups in *. simpl. rewrite (IH Hrest).
      symmetry. apply Permutation_middle.
Qed.

Lemma count_up_positive item counts :
  Forall (fun g => 1 <= g.2) counts ->
  Forall (fun g => 1 <= g.2) (count_up item counts).
Proof.
  induction counts as [|[k c] rest IH]; intros Hpos; simpl.
  - repeat constructor. simpl. lia.
  - apply Forall_cons in Hpos as [Hc Hrest]. simpl in Hc.
    case_bool_decide; constructor; simpl; auto; lia.
Qed.

Lemma count_up_keys item counts :
  fst <$> count_up item counts
  = if bool_decide (item ∈ fst <$> counts) then fst <$> counts
    else (fst <$> counts) ++ [item].
Proof.
  induction counts as [|[k c] rest IH].
  - cbn [count_up fmap list_fmap fst app].
    rewrite bool_decide_eq_false_2 by apply not_elem_of_nil. reflexivity.
  - cbn [count_up]. destruct (decide (k = item)) as [Hk | Hk].
    + rewrite (bool_decide_eq_true_2 (k = item)) by exact Hk. subst k.
      rewrite bool_decide_eq_true_2 by (rewrite fmap_cons; apply elem_of_cons; left; reflexivity).
      reflexivity.
    + rewrite (bool_decide_eq_false_2 (k = item)) by exact Hk.
      rewrite !fmap_cons, IH. cbn [fst].
      destruct (decide (item ∈ fst <$> rest)) as [Hin | Hin].
      * rewrite (bool_decide_eq_true_2 _ Hin).
        rewrite bool_decide_eq_true_2 by (apply elem_of_cons; right; exact Hin).
        reflexivity.
      * rewrite (bool_decide_eq_false_2 _ Hin).
        rewrite bool_decide_eq_false_2; [reflexivity|].
        rewrite elem_of_cons. intros [? | ?]; congruence.
Qed.

Lemma count_up_nodup item counts :
  NoDup (fst <$> counts) -> NoDup (fst <$> count_up item counts).
Proof.
  intros Hnd. rewrite count_up_keys. case_bool_decide as Hin; [exact Hnd|].
  apply NoDup_app. split; [exact Hnd|]. split.
  - intros x Hx Hx'. apply list_elem_of_singleton in Hx'. subst. contradiction.
  - apply NoDup_singleton.
Qed.

Lemma Counter_spec items :
  expand_groups (Counter items) ≡ₚ items /\
  NoDup (fst <$> Counter items) /\
  Forall (fun g => 1 <= g.2) (Counter items).
Proof.
  unfold Counter.
  enough (Hgen : forall counts,
    Forall (fun g => 1 <= g.2) counts -> NoDup (fst <$> counts) ->
    expand_groups (foldl (fun counts item => count_up item counts) counts items)
      ≡ₚ expand_groups counts ++ items /\
    NoDup (fst <$> foldl (fun counts item => count_up item counts) counts items) /\
    Forall (fun g => 1 <= g.2)
      (foldl (fun counts item => count_up item counts) counts items)).
  { destruct (Hgen [] (Forall_nil_2 _) (NoDup_nil_2)) as (H1 & H2 & H3). auto. }
  induction items as [|item items IH]; intros counts Hpos Hnd; simpl.
  - rewrite app_nil_r. auto.
  - destruct (IH (count_up item counts) (count_up_positive _ _ Hpos)
                (count_up_nodup _ _ Hnd)) as (H1 & H2 & H3).
    split; [|auto]. rewrite H1, (count_up_expand item counts Hpos).
    apply Permutation_middle.
Qed.

(** *** The sort *)

Lemma insert_by_count_perm g sorted : insert_by_count g sorted ≡ₚ g :: sorted.
Proof.
  induction sorted as [|g' rest IH]; simpl; [reflexivity|].
  destruct (g.2 <? g'.2); [|reflexivity].
  rewrite IH. apply Permutation_swap.
Qed.

Lemma sort_by_count_perm groups : sort_by_count groups ≡ₚ groups.
Proof.
  induction groups as [|g groups IH]; simpl; [reflexivity|].
  rewrite insert_by_count_perm, IH. reflexivity.
Qed.

Lemma insert_by_count_sorted g sorted :
  Sorted count_ge sorted -> Sorted count_ge (insert_by_count g sorted).
Proof.
  induction 1 as [|g' rest Hs IH Hhd]; simpl.
  - repeat constructor.
  - destruct (Z.ltb_spec g.2 g'.2) as [Hlt | Hge].
    + constructor; [exact IH|].
      destruct rest as [|g'' rest']; simpl.
      * constructor. unfold count_ge. lia.
      * destruct (Z.ltb_spec g.2 g''.2).
        -- constructor. inversion Hhd. assumption.
        -- constructor. unfold count_ge. lia.
    + constructor; [constructor; assumption|]. constructor. unfold count_ge. lia.
Qed.

Lemma sort_by_count_sorted groups : Sorted count_ge (sort_by_count groups).
Proof.
  induction groups as [|g groups IH]; simpl; [constructor|].
  apply insert_by_count_sorted, IH.
Qed.

(** *** The items kept *)

Lemma kept_items_live {P : PRNG} (state : State) :
  Forall positive_triple (live_items state) -> kept_items state = live_items state.
Proof.
  unfold kept_items, live_items.
  generalize (zip (zip (zip (x_len (items state)) (y_len (items state)))
                       (z_len (items state))) (items_mask state)).
  intros l. induction l as [|[[[x y] z] m] l IH]; intros Hpos; [reflexivity|].
  rewrite !filter_cons. cbn [snd] in *.
  destruct (decide (m = true)) as [Hm | Hm].
  - rewrite filter_cons in Hpos. cbn [snd] in Hpos.
    destruct (decide (m = true)) as [_ | ?]; [|contradiction].
    rewrite fmap_cons in Hpos. apply Forall_cons in Hpos as [Hp Hrest].
    destruct Hp as (Hx & Hy & Hz). cbn [fst snd] in Hx, Hy, Hz.
    destruct (decide (m = true /\ 0 < x /\ 0 < y /\ 0 < z)) as [_ | Hn];
      [| exfalso; apply Hn; auto].
    rewrite !fmap_cons, (IH Hrest). reflexivity.
  - rewrite filter_cons in Hpos. cbn [snd] in Hpos.
    destruct (decide (m = true)) as [? | _]; [contradiction|].
    destruct (decide (m = true /\ 0 < x /\ 0 < y /\ 0 < z)) as [[? _] | _];
      [contradiction|].
    apply IH, Hpos.
Qed.

Lemma live_items_read {P : PRNG} (st : State) (l : list (Item Z)) :
  items st = items_transpose l -> items_mask st = replicate (length l) true ->
  live_items st = item_triple <$> l.
Proof.
  unfold live_items. intros -> ->. unfold items_transpose. cbn [x_len y_len z_len].
  induction l as [|it l IH]; [reflexivity|].
  cbn [length replicate]. rewrite !fmap_cons. cbn [zip zip_with].
  rewrite filter_cons. cbn [snd].
  destruct (decide (true = true)) as [_ | ?]; [|contradiction].
  rewrite fmap_cons. cbn [fst]. f_equal. exact IH.
Qed.

(** *** Groups and rows *)

Lemma expand_groups_perm g1 g2 : g1 ≡ₚ g2 -> expand_groups g1 ≡ₚ expand_groups g2.
Proof. intros Hp. unfold expand_groups. apply Permutation_flat_map, Hp. Qed.

Lemma generate_items_groups rows :
  item_triple <$> _generate_list_of_items rows = expand_groups (row_group <$> rows).
Proof.
  rewrite generate_items_flat. unfold expand_groups.
  induction rows as [|[[[[name x] y] z] q] rows IH]; [reflexivity|].
  rewrite fmap_cons. cbn [flat_map]. rewrite fmap_app, IH. f_equal.
  rewrite fmap_replicate. reflexivity.
Qed.

Lemma written_row_group : forall grouped k,
  row_group <$> imap (fun i => written_row (k + i)) grouped = grouped.
Proof.
  induction grouped as [|[[[x y] z] c] grouped IH]; intros k; [reflexivity|].
  cbn [imap]. rewrite fmap_cons. f_equal.
  rewrite <- (IH (S k)) at 2. f_equal. apply imap_ext. intros i g _.
  cbn. f_equal. lia.
Qed.

Lemma total_quantity_length rows :
  Forall (fun g => 1 <= g.2) (row_group <$> rows) ->
  total_quantity rows = Z.of_nat (length (expand_groups (row_group <$> rows))).
Proof.
  unfold expand_groups. induction rows as [|r rows IH]; intros Hpos; [reflexivity|].
  rewrite fmap_cons in Hpos. apply Forall_cons in Hpos as [Hq Hrest].
  cbn [row_group snd] in Hq.
  rewrite fmap_cons. cbn [total_quantity foldr flat_map].
  rewrite length_app, length_replicate. cbn [row_group snd fst].
  fold (total_quantity rows). rewrite (IH Hrest). lia.
Qed.

Lemma read_written {P : PRNG} (state : State) :
  _read_csv (save_instance_to_csv state)
  = inr (imap written_row (sort_by_count (Counter (kept_items state)))).
Proof.
  unfold save_instance_to_csv, _read_csv. cbn [read_rows Nat.eqb].
  change (negb (length CSV_COLUMNS =? length CSV_COLUMNS)%nat) with false.
  cbn [negb]. rewrite bool_decide_eq_true_2 by reflexivity. cbn [negb].
  rewrite (read_rows_imap _ written_row); [reflexivity|].
  intros i [[[x y] z] c]. apply parse_written_row.
Qed.

Lemma imap_lookup_written grouped i r :
  imap written_row grouped !! i = Some r ->
  exists g, grouped !! i = Some g /\ r = written_row i g.
Proof.
  rewrite list_lookup_imap. destruct (grouped !! i) as [g|]; [|discriminate].
  intros [= <-]. eauto.
Qed.

Lemma written_row_cells i g :
  row_cells (written_row i g)
  = (fun '((x, y, z), count) =>
       [("shape_" ++ str (Z.of_nat i + 1))%string; str x; str y; str z; str count]) g.
Proof. destruct g as [[[x y] z] c]. reflexivity. Qed.

(** C7.  For every state whose masked-true items all have three positive
    extents, the rows written by [save_instance_to_csv] are read back without
    error; the instance [CSVInstanceGenerator] builds from them has, up to
    order, the extent triples of the masked-true items of the state, and the
    quantities read add up to their number; the rows read hold pairwise
    different triples, each with a quantity of at least one, in descending
    order of quantity, the [i]-th of them (from 0) named shape_(i+1), and the
    file is the header followed by these rows. *)
Theorem csv_round_trip {P : PRNG} (key0 : PRNGKey) (state : State)
    (max_num_ems : nat) (dims : Z * Z * Z) :
  Forall positive_triple (live_items state) ->
  exists (rows : list Row) (st' : State),
    _read_csv (save_instance_to_csv state) = inr rows /\
    _parse_csv_file key0 (save_instance_to_csv state) max_num_ems dims = inr st' /\
    live_items st' = item_triple <$> _generate_list_of_items rows /\
    live_items st' ≡ₚ live_items state /\
    total_quantity rows = Z.of_nat (length (live_items state)) /\
    NoDup (row_triple <$> rows) /\
    Forall (fun r => 1 <= row_quantity r) rows /\
    Sorted count_ge (row_group <$> rows) /\
    (forall i r, rows !! i = Some r ->
       row_name r = ("shape_" ++ str (Z.of_nat i + 1))%string) /\
    save_instance_to_csv state = CSV_COLUMNS :: (row_cells <$> rows).
Proof.
  intros Hpos.
  pose proof (read_written state) as Hread.
  rewrite (kept_items_live state Hpos) in Hread.
  set (grouped := sort_by_count (Counter (live_items state))) in *.
  set (rows := imap written_row grouped) in *.
  destruct (Counter_spec (live_items state)) as (Hexp & Hnd & Hcount).
  assert (Hperm : grouped ≡ₚ Counter (live_items state))
    by apply sort_by_count_perm.
  assert (Hgroups : row_group <$> rows = grouped).
  { unfold rows. rewrite <- (written_row_group grouped 0) at 2.
    f_equal. }
  assert (Hitems : item_triple <$> _generate_list_of_items rows ≡ₚ live_items state).
  { rewrite generate_items_groups, Hgroups, (expand_groups_perm _ _ Hperm). exact Hexp. }
  eexists rows, _. split; [exact Hread|].
  split; [unfold _parse_csv_file; rewrite Hread; reflexivity|].
  assert (Hlive : forall l st',
            items st' = items_transpose l ->
            items_mask st' = replicate (length l) true ->
            live_items st' = item_triple <$> l)
    by (intros l st'; apply live_items_read).
  split; [apply Hlive; reflexivity|].
  split; [rewrite (Hlive (_generate_list_of_items rows)) by reflexivity; exact Hitems|].
  split.
  { rewrite total_quantity_length.
    - rewrite <- generate_items_groups, Hitems. reflexivity.
    - rewrite Hgroups, Hperm. exact Hcount. }
  split.
  { replace (row_triple <$> rows) with (fst <$> (row_group <$> rows))
      by (rewrite <- list_fmap_compose; reflexivity).
    rewrite Hgroups, Hperm. exact Hnd. }
  split.
  { assert (Hq : Forall (fun g => 1 <= g.2) (row_group <$> rows))
      by (rewrite Hgroups, Hperm; exact Hcount).
    rewrite Forall_fmap in Hq. exact Hq. }
  split; [rewrite Hgroups; apply sort_by_count_sorted|].
  split.
  { intros i r Hr. apply imap_lookup_written in Hr as (g & _ & ->).
    destruct g as [[[x y] z] c]. reflexivity. }
  unfold save_instance_to_csv.
  rewrite (kept_items_live state Hpos). fold grouped. f_equal.
  unfold rows. rewrite fmap_imap. apply imap_ext. intros i g _.
  symmetry. apply written_row_cells.
Qed.

Lemma csv_round_trip_witness :
  exists rows : list Row,
    _read_csv (save_instance_to_csv three_items) = inr rows /\
    total_quantity rows = 3.
Proof.
  assert (Hpos : Forall positive_triple (live_items three_items)).
  { unfold live_items, positive_triple. simpl. repeat constructor. }
  destruct (csv_round_trip (P := lcg_prng) 0 three_items 1 (4, 5, 5) Hpos)
    as (rows & st' & Hread & _ & _ & _ & Hq & _).
  exists rows. split; [exact Hread | exact Hq].
Defined.

(** * Further properties of the splitting engine *)

(** X1.  [_split_item_once], within the exact range: on a live slot [id]
    holding the interval [a, b] on the axis, with a free slot left, the cut
    [s] is drawn between the margins [a + m] and [b - m] (where
    [m = jnp.int32(split_eps * (b - a))] lies in [0, b - a]) and so within
    [a, b]; the slot [id] keeps the part below [s], the first free slot
    receives the part above it and is marked, every other slot is as
    before, and the two parts have the volume of the box. *)
Theorem split_once_parts {P : PRNG} {L : PRNGLaws P} (self : Config)
    (sp : Space (list Z)) (mask : list bool) (N id : nat) (ax : Axis)
    (key : PRNGKey) (d : Z) :
  let B := tree_slice sp id in
  let a := get_axis_value B ax 1 in
  let b := get_axis_value B ax 2 in
  (0 < split_eps self)%Q -> (split_eps self < 1 # 2)%Q ->
  wf sp N -> length mask = N -> live mask id -> (ctrue mask < N)%nat ->
  0 <= a -> a <= b -> b <= d -> d < 2 ^ 24 ->
  let m := split_margin self (b - a) in
  let s := randint key (a + m) (b - m) in
  let f := argmin mask in
  let res := _split_item_once self B ax (b - a) id sp mask key in
  0 <= m <= b - a /\ a <= s <= b /\
  (a + m < b - m -> a + m <= s < b - m) /\
  mask !! f = Some false /\
  snd res = <[f := true]> mask /\
  tree_slice (fst res) id = cut_hi B ax s /\
  tree_slice (fst res) f = cut_lo B ax s /\
  (forall j, (j < N)%nat -> j <> id -> j <> f ->
     tree_slice (fst res) j = tree_slice sp j) /\
  box_vol (cut_hi B ax s) + box_vol (cut_lo B ax s) = box_vol B.
Proof.
  intros B a b He0 He1 Hwf Hlen Hid Hroom Ha Hab Hb Hd m s f res.
  assert (Hm : 0 <= m <= b - a).
  { unfold m, split_margin. apply mul_trunc_bounds; [assumption | assumption | lia]. }
  pose proof (split_item_once_cut self sp mask N id ax Hwf Hlen Hid Hroom
                (b - a) key) as Hcut.
  cbv zeta in Hcut. fold B a b m in Hcut.
  rewrite (add_small a m), (sub_small b m) in Hcut by lia.
  fold s res f in Hcut.
  destruct Hcut as (_ & Hfree & _ & Hmask & Hslot_id & Hslots & Hothers).
  assert (Hs : a <= s <= b /\ (a + m < b - m -> a + m <= s < b - m)).
  { unfold s. destruct (Z_lt_le_dec (a + m) (b - m)) as [Hlt | Hge].
    - pose proof (randint_range key _ _ Hlt). lia.
    - rewrite (randint_empty key _ _ Hge). lia. }
  split; [exact Hm|]. split; [apply Hs|]. split; [apply Hs|].
  split; [apply Hfree, list_elem_of_singleton; reflexivity|].
  split; [exact Hmask|]. split; [exact Hslot_id|]. split.
  - rewrite (Hslots 0%nat f eq_refl). simpl.
    replace b with (get_axis_value (cut_lo B ax s) ax 2) by apply cut_lo_hi.
    apply cut_hi_self.
  - split.
    + intros j Hj Hjid Hjf. apply Hothers; [exact Hj | exact Hjid|].
      intros Hin. apply list_elem_of_singleton in Hin. contradiction.
    + symmetry. apply box_vol_cut.
Qed.

Lemma split_once_parts_witness :
  snd (_split_item_once (P := lcg_prng) demo_config (tree_slice (two_slots 10) 0)
         AxisX 10 0 (two_slots 10) [true; false] 0)
  = [true; true].
Proof.
  pose proof (split_once_parts (P := lcg_prng) (L := lcg_laws) demo_config
                (two_slots 10) [true; false] 2 0 AxisX 0 10) as H.
  cbv zeta in H.
  destruct H as (_ & _ & _ & _ & Hmask & _).
  - unfold Qlt. simpl. lia.
  - unfold Qlt. simpl. lia.
  - repeat split.
  - reflexivity.
  - reflexivity.
  - unfold ctrue. simpl. lia.
  - unfold tree_slice, tree_map, gather, two_slots. simpl. lia.
  - unfold tree_slice, tree_map, gather, two_slots. simpl. lia.
  - unfold tree_slice, tree_map, gather, two_slots. simpl. lia.
  - lia.
  - exact Hmask.
Defined.

(** X2.  [_split_space_into_sub_spaces] leaves no live slot with an empty
    box: after a round, whatever the buffer held, every masked-true slot has
    a non-zero length on each of the three axes, and the buffer and the mask
    keep their size. *)
Theorem round_clears_empty_items {P : PRNG} {L : PRNGLaws P} (self : Config)
    (N : nat) (sp : Space (list Z)) (mask : list bool) (key : PRNGKey) :
  1 <= split_num_same_items self -> wf sp N -> length mask = N ->
  wf (fst (_split_space_into_sub_spaces self sp mask key)) N /\
  length (snd (_split_space_into_sub_spaces self sp mask key)) = N /\
  forall j, live (snd (_split_space_into_sub_spaces self sp mask key)) j ->
    x1 (tree_slice (fst (_split_space_into_sub_spaces self sp mask key)) j)
    <> x2 (tree_slice (fst (_split_space_into_sub_spaces self sp mask key)) j) /\
    y1 (tree_slice (fst (_split_space_into_sub_spaces self sp mask key)) j)
    <> y2 (tree_slice (fst (_split_space_into_sub_spaces self sp mask key)) j) /\
    z1 (tree_slice (fst (_split_space_into_sub_spaces self sp mask key)) j)
    <> z2 (tree_slice (fst (_split_space_into_sub_spaces self sp mask key)) j).
Proof.
  intros HS Hwf Hlen. unfold _split_space_into_sub_spaces.
  destruct (split key) as [axis_key split_key].
  set (ax := axis_of_index (randint axis_key 0 3)).
  destruct (along_axis_shape self N ax sp mask split_key HS (conj Hwf Hlen))
    as [[Hwf' Hlen'] _].
  destruct (_split_along_axis self ax sp mask split_key) as [sp' mask'].
  cbn [fst snd] in *.
  split; [exact Hwf'|]. split; [apply length_clear; assumption|].
  intros j Hj. apply (clear_lookup sp' mask' N j Hwf' Hlen') in Hj as [_ He].
  unfold box_emptyb in He.
  apply orb_false_iff in He as [He Hz]. apply orb_false_iff in He as [Hx Hy].
  apply Z.eqb_neq in Hx. apply Z.eqb_neq in Hy. apply Z.eqb_neq in Hz. auto.
Qed.

Lemma round_clears_empty_items_witness :
  length (snd (_split_space_into_sub_spaces (P := lcg_prng) demo_config
                 (two_slots 10) [true; false] 0)) = 2%nat.
Proof.
  apply (round_clears_empty_items (P := lcg_prng) (L := lcg_laws) demo_config 2
           (two_slots 10) [true; false] 0).
  - simpl. lia.
  - repeat split.
  - reflexivity.
Defined.

(** X3.  [_split_along_axis] always draws a live item: in every value the
    loop of a valid configuration reaches, whatever the axis and the key,
    the slot drawn is masked true and its box has a positive length on the
    axis. *)
Theorem drawn_item_is_live {P : PRNG} {L : PRNGLaws P} (self : Config)
    (key : PRNGKey) (val : Space (list Z) * list bool * PRNGKey) (ax : Axis)
    (item_key : PRNGKey) :
  stated_config self -> (1 <= max_num_items self)%nat -> exact_dims self ->
  reachable self (make_container (container_dims self)) key val ->
  live (val_mask val) (drawn_item ax (val_spaces val) (val_mask val) item_key) /\
  get_axis_value
    (tree_slice (val_spaces val)
       (drawn_item ax (val_spaces val) (val_mask val) item_key)) ax 1
  < get_axis_value
      (tree_slice (val_spaces val)
         (drawn_item ax (val_spaces val) (val_mask val) item_key)) ax 2.
Proof.
  intros Hstated Hcap Hexact Hr.
  pose proof (stated_valid self Hstated Hcap Hexact) as Hvalid.
  pose proof (reachable_inv self Hvalid key val Hr) as Hinv.
  assert (HS : 1 <= split_num_same_items self) by apply Hvalid.
  pose proof (drawn_item_live self _ HS
                (fun ax => proj1 (valid_axis self Hvalid ax))
                (fun ax => proj2 (proj2 (valid_axis self Hvalid ax)))
                _ _ ax item_key Hinv) as Hlive.
  split; [exact Hlive|].
  apply (live_box_bounds self _ HS
           (fun ax => proj1 (valid_axis self Hvalid ax))
           (fun ax => proj2 (proj2 (valid_axis self Hvalid ax)))
           _ _ ax _ Hinv Hlive).
Qed.

Lemma drawn_item_is_live_witness :
  live (val_mask (init_val (P := lcg_prng) demo_config
                    (make_container (container_dims demo_config)) 42))
       (drawn_item AxisX
          (val_spaces (init_val demo_config
                         (make_container (container_dims demo_config)) 42))
          (val_mask (init_val demo_config
                       (make_container (container_dims demo_config)) 42)) 7).
Proof.
  apply (drawn_item_is_live (P := lcg_prng) (L := lcg_laws) demo_config 42).
  - exact demo_config_stated.
  - simpl. lia.
  - exact demo_config_exact.
  - apply reach_init.
Defined.

(** X4.  [_split_along_axis] rewrites the slot it draws and free slots
    only: as long as the mask leaves room for the parts of a split, every
    other live slot keeps its box and stays masked true, whatever the
    magnitudes of the bounds. *)
Theorem split_leaves_other_items {P : PRNG} {L : PRNGLaws P} (self : Config)
    (ax : Axis) (sp : Space (list Z)) (mask : list bool) (key : PRNGKey)
    (j : nat) :
  1 <= split_num_same_items self ->
  wf sp (max_num_items self) -> length mask = max_num_items self ->
  Z.of_nat (ctrue mask) + split_num_same_items self
    <= Z.of_nat (max_num_items self) ->
  live mask j -> j <> drawn_item ax sp mask (split3 key).1.1 ->
  live (snd (_split_along_axis self ax sp mask key)) j /\
  tree_slice (fst (_split_along_axis self ax sp mask key)) j = tree_slice sp j.
Proof.
  intros HS Hwf Hlen Hroom Hj Hjid. unfold _split_along_axis.
  destruct (split3 key) as [[item_key split_key] mode_key]. cbn [fst] in Hjid.
  destruct (drawn_mode self mode_key).
  - apply once_frame; [split; assumption | lia | exact Hj | exact Hjid].
  - apply multi_frame; [exact HS | split; assumption | exact Hroom | exact Hj
                       | exact Hjid].
Qed.

Lemma split_leaves_other_items_witness :
  tree_slice
    (fst (_split_along_axis (P := lcg_prng) demo_config AxisX
            (mkSpace [0; 5; 0; 0; 0; 0] [5; 9; 0; 0; 0; 0] [0; 0; 0; 0; 0; 0]
                     [3; 3; 0; 0; 0; 0] [0; 0; 0; 0; 0; 0] [2; 2; 0; 0; 0; 0])
            [true; true; false; false; false; false] 0)) 1
  = mkSpace 5 9 0 3 0 2.
Proof.
  apply (split_leaves_other_items (P := lcg_prng) (L := lcg_laws) demo_config AxisX
           (mkSpace [0; 5; 0; 0; 0; 0] [5; 9; 0; 0; 0; 0] [0; 0; 0; 0; 0; 0]
                    [3; 3; 0; 0; 0; 0] [0; 0; 0; 0; 0; 0] [2; 2; 0; 0; 0; 0])
           [true; true; false; false; false; false] 0 1).
  - simpl. lia.
  - repeat split.
  - reflexivity.
  - unfold ctrue. simpl. lia.
  - reflexivity.
  - vm_compute. lia.
Defined.

(** *** Items and volume *)

Lemma ctrue_snoc mask (b : bool) :
  ctrue (mask ++ [b]) = (ctrue mask + (if b then 1 else 0))%nat.
Proof.
  unfold ctrue. rewrite filter_app, length_app. f_equal.
  destruct b; reflexivity.
Qed.

Lemma count_le_weight (mask : list bool) (w : nat -> Z) :
  (forall i, live mask i -> 1 <= w i) ->
  forall n, (n <= length mask)%nat ->
    Z.of_nat (ctrue (take n mask))
    <= sumZ n (fun i => match mask !! i with Some true => w i | _ => 0 end).
Proof.
  intros Hw. induction n as [|n IH]; intros Hn.
  - rewrite take_0. reflexivity.
  - destruct (lookup_lt_is_Some_2 mask n ltac:(lia)) as [b Hb].
    rewrite (take_S_r _ _ _ Hb), ctrue_snoc, sumZ_S. cbv beta. rewrite Hb.
    specialize (IH ltac:(lia)).
    destruct b; [specialize (Hw n Hb)|]; lia.
Qed.

Lemma count_le_volume boxes mask :
  (forall i, live mask i -> box_nonempty (boxes i)) ->
  Z.of_nat (ctrue mask) <= live_volume boxes mask.
Proof.
  intros Hne. unfold live_volume.
  rewrite <- (take_ge mask (length mask)) at 1 by lia.
  apply count_le_weight; [|lia].
  intros i Hi. destruct (Hne i Hi) as (Hx & Hy & Hz). unfold box_vol.
  assert (1 <= (x2 (boxes i) - x1 (boxes i)) * (y2 (boxes i) - y1 (boxes i)))
    by nia.
  nia.
Qed.

(** X5.  The splitting loop of a valid configuration never holds more
    items than the container has unit cells: in every value it reaches, the
    number of true entries of the mask is at most the volume of the
    container. *)
Theorem items_within_volume {P : PRNG} {L : PRNGLaws P} (self : Config)
    (key : PRNGKey) (val : Space (list Z) * list bool * PRNGKey) :
  stated_config self -> (1 <= max_num_items self)%nat -> exact_dims self ->
  reachable self (make_container (container_dims self)) key val ->
  mask_sum (val_mask val) <= box_vol (make_container (container_dims self)).
Proof.
  intros Hstated Hcap Hexact Hr.
  pose proof (stated_valid self Hstated Hcap Hexact) as Hvalid.
  destruct (reachable_inv self Hvalid key val Hr) as (_ & _ & Ht & Hne & _).
  rewrite mask_sum_ctrue, <- (tiling_vol _ _ _ Ht).
  apply count_le_volume, Hne.
Qed.

Lemma items_within_volume_witness :
  mask_sum (val_mask (init_val (P := lcg_prng) demo_config
                        (make_container (container_dims demo_config)) 42))
  <= box_vol (make_container (container_dims demo_config)).
Proof.
  apply (items_within_volume (P := lcg_prng) (L := lcg_laws) demo_config 42).
  - exact demo_config_stated.
  - simpl. lia.
  - exact demo_config_exact.
  - apply reach_init.
Defined.

(** X6.  The splitting loop does not end when it is asked for more items
    than the container has unit cells: for a valid configuration whose
    container volume is below [max_num_items - split_num_same_items + 1],
    [generate_solution] returns nothing, however many rounds it is
    given. *)
Theorem generation_never_ends_without_room {P : PRNG} {L : PRNGLaws P}
    (self : Config) (fuel : nat) (key : PRNGKey) (h : Store) :
  stated_config self -> (1 <= max_num_items self)%nat -> exact_dims self ->
  box_vol (make_container (container_dims self))
    < Z.of_nat (max_num_items self) - split_num_same_items self + 1 ->
  generate_solution self fuel key h = None.
Proof.
  intros Hstated Hcap Hexact Hvol.
  pose proof (stated_valid self Hstated Hcap Hexact) as Hvalid.
  unfold generate_solution, _generate_solved_instance.
  destruct (split key) as [state_key split_key].
  unfold _split_container_into_items_spaces.
  destruct (while_loop _ _ _ _) as [[[sp mask] k]|] eqn:Hloop; [|reflexivity].
  exfalso.
  destruct (while_loop_reachable self _ split_key fuel _ _
              (reach_init self _ split_key) Hloop) as [Hr Hc].
  destruct (reachable_inv self Hvalid split_key _ Hr) as (_ & _ & Ht & Hne & _).
  pose proof (count_le_volume _ _ Hne) as Hcount.
  rewrite (tiling_vol _ _ _ Ht) in Hcount.
  unfold val_mask, val_spaces in *. cbn [fst snd] in *.
  unfold cond_fun in Hc. apply Z.ltb_ge in Hc. rewrite mask_sum_ctrue in Hc. lia.
Qed.

Lemma generation_never_ends_without_room_witness :
  generate_solution (P := lcg_prng) unit_config 7 0 [] = None.
Proof.
  apply (generation_never_ends_without_room (P := lcg_prng) (L := lcg_laws)).
  - unfold stated_config, unit_config, Qlt, Qle. simpl. lia.
  - simpl. lia.
  - unfold exact_dims, unit_config. simpl. lia.
  - unfold box_vol, unit_config. simpl. lia.
Defined.

(** *** The instance that is returned *)

Lemma live_items_elem {P : PRNG} (st : State) (t : Z * Z * Z) :
  t ∈ live_items st ->
  exists j, live (items_mask st) j /\
    x_len (items st) !! j = Some t.1.1 /\
    y_len (items st) !! j = Some t.1.2 /\
    z_len (items st) !! j = Some t.2.
Proof.
  unfold live_items. intros Ht.
  apply list_elem_of_fmap in Ht as ([t' m] & -> & Hin).
  apply list_elem_of_filter in Hin as [Hm Hin]. simpl in Hm. subst m.
  apply list_elem_of_lookup in Hin as [j Hj].
  apply lookup_zip_with_Some in Hj as (t'' & m & Heq & Ht'' & Hm).
  injection Heq as <- <-.
  apply lookup_zip_with_Some in Ht'' as (xy & z & -> & Hxy & Hz).
  apply lookup_zip_with_Some in Hxy as (x & y & -> & Hx & Hy).
  exists j. simpl. auto.
Qed.

Lemma lookup_sub l k j v :
  zip_with Int32.sub l k !! j = Some v ->
  (j < length l)%nat /\ (j < length k)%nat /\
  v = Int32.sub (gather l j) (gather k j).
Proof.
  intros Hv. apply lookup_zip_with_Some in Hv as (x & y & -> & Hx & Hy).
  pose proof (lookup_lt_Some _ _ _ Hx). pose proof (lookup_lt_Some _ _ _ Hy).
  rewrite (gather_lookup l j) in Hx by assumption.
  rewrite (gather_lookup k j) in Hy by assumption.
  injection Hx as <-. injection Hy as <-. auto.
Qed.

(** The live items of a solved instance have positive extents and sit at
    non-negative coordinates. *)
Lemma solved_live_positive {P : PRNG} {L : PRNGLaws P} (self : Config)
    (sp : Space (list Z)) (mask : list bool) (st : State) :
  valid_config self ->
  engine_inv (make_container (container_dims self)) (max_num_items self) sp mask ->
  items st = item_from_space sp -> items_mask st = mask ->
  items_location st = location_from_space sp ->
  Forall positive_triple (live_items st) /\
  forall j, live (items_mask st) j ->
    0 <= gather (Location.x (items_location st)) j /\
    0 <= gather (Location.y (items_location st)) j /\
    0 <= gather (Location.z (items_location st)) j.
Proof.
  intros Hvalid Hinv Hitems Hmask Hloc.
  assert (HS : 1 <= split_num_same_items self) by apply Hvalid.
  pose proof (fun ax j Hj => live_box_bounds self _ HS
                (fun ax => proj1 (valid_axis self Hvalid ax))
                (fun ax => proj2 (proj2 (valid_axis self Hvalid ax)))
                sp mask ax j Hinv Hj) as Hb.
  split.
  - apply Forall_forall. intros t Ht.
    apply live_items_elem in Ht as (j & Hj & Hx & Hy & Hz).
    rewrite Hmask in Hj. rewrite Hitems in Hx, Hy, Hz. simpl in Hx, Hy, Hz.
    apply lookup_sub in Hx as (_ & _ & Hx).
    apply lookup_sub in Hy as (_ & _ & Hy).
    apply lookup_sub in Hz as (_ & _ & Hz).
    pose proof (Hb AxisX j Hj) as Hbx. pose proof (Hb AxisY j Hj) as Hby.
    pose proof (Hb AxisZ j Hj) as Hbz.
    rewrite !get_axis_slice in Hbx, Hby, Hbz. simpl in Hbx, Hby, Hbz.
    rewrite sub_small in Hx, Hy, Hz by lia.
    unfold positive_triple. lia.
  - intros j Hj. rewrite Hmask in Hj. rewrite Hloc. simpl.
    pose proof (Hb AxisX j Hj) as Hbx. pose proof (Hb AxisY j Hj) as Hby.
    pose proof (Hb AxisZ j Hj) as Hbz.
    rewrite !get_axis_slice in Hbx, Hby, Hbz. simpl in Hbx, Hby, Hbz. lia.
Qed.

Lemma generated_record {P : PRNG} (self : Config) fuel k h r h' :
  generate_solution self fuel k h = Some (r, h') ->
  exists sp mask st,
    _split_container_into_items_spaces self fuel
      (make_container (container_dims self)) (split k).2 = Some (sp, mask) /\
    r = length h /\ h' = h ++ [st] /\ h' !! r = Some st /\
    container st = make_container (container_dims self) /\
    ems st = tree_transpose (make_container (container_dims self)
                               :: replicate (max_num_ems self - 1) empty_ems) /\
    ems_mask st = zeros_bool (max_num_ems self) /\
    items st = item_from_space sp /\ items_mask st = mask /\
    items_placed st = mask /\ items_location st = location_from_space sp /\
    action_mask st = None /\ sorted_ems_indexes st = arange (max_num_ems self) /\
    key st = (split k).1.
Proof.
  unfold generate_solution, _generate_solved_instance.
  destruct (split k) as [state_key split_key]. cbn [fst snd].
  destruct (_split_container_into_items_spaces _ _ _ _) as [[sp mask]|];
    [|discriminate].
  unfold new_state. intros [= <- <-].
  eexists sp, mask, _. split; [reflexivity|]. split; [reflexivity|].
  split; [reflexivity|]. split; [apply list_lookup_middle; reflexivity|].
  repeat split.
Qed.

(** X7.  Every item of a generated instance is a real box: for a valid
    configuration, the masked-true items of the solved instance that
    [generate_solution] returns have three positive extents, and their
    locations have no negative coordinate. *)
Theorem generated_items_positive {P : PRNG} {L : PRNGLaws P} (self : Config)
    (fuel : nat) (key : PRNGKey) (h : Store) (r : Ref) (h' : Store) :
  stated_config self -> (1 <= max_num_items self)%nat -> exact_dims self ->
  generate_solution self fuel key h = Some (r, h') ->
  exists st, h' !! r = Some st /\
    Forall positive_triple (live_items st) /\
    forall j, live (items_mask st) j ->
      0 <= gather (Location.x (items_location st)) j /\
      0 <= gather (Location.y (items_location st)) j /\
      0 <= gather (Location.z (items_location st)) j.
Proof.
  intros Hstated Hcap Hexact Hgen.
  pose proof (stated_valid self Hstated Hcap Hexact) as Hvalid.
  destruct (generated_record self fuel key h r h' Hgen)
    as (sp & mask & st & Hsplit & _ & _ & Hst & _ & _ & _ & Hitems & Hmask & _
        & Hloc & _).
  pose proof (split_container_inv self Hvalid fuel _ sp mask Hsplit) as Hinv.
  exists st. split; [exact Hst|].
  apply (solved_live_positive self sp mask st); assumption.
Qed.

Lemma generated_items_positive_witness :
  exists st : @State lcg_prng,
    demo_store !! 0%nat = Some st /\ Forall positive_triple (live_items st).
Proof.
  destruct (generated_items_positive (P := lcg_prng) (L := lcg_laws) demo_config
              50 42 [] 0%nat demo_store demo_config_stated)
    as (st & Hst & Hpos & _).
  - simpl. lia.
  - exact demo_config_exact.
  - reflexivity.
  - exists st. split; assumption.
Defined.

(** X8.  The arrays of a solved instance agree in size: every item array
    (extents, mask, placed flags, locations) has [max_num_items] entries,
    the placed flags are the mask, no EMS is live, the EMS mask and the
    sorted indexes have [max_num_ems] entries, and the EMS buffer has
    [max_num_ems] slots too -- except that it never has fewer than one, the
    container, even when [max_num_ems] is zero. *)
Theorem solved_instance_shapes {P : PRNG} {L : PRNGLaws P} (self : Config)
    (fuel : nat) (key : PRNGKey) (h : Store) (r : Ref) (h' : Store) :
  1 <= split_num_same_items self ->
  generate_solution self fuel key h = Some (r, h') ->
  exists st, h' !! r = Some st /\
    length (x_len (items st)) = max_num_items self /\
    length (y_len (items st)) = max_num_items self /\
    length (z_len (items st)) = max_num_items self /\
    length (items_mask st) = max_num_items self /\
    items_placed st = items_mask st /\
    length (Location.x (items_location st)) = max_num_items self /\
    length (Location.y (items_location st)) = max_num_items self /\
    length (Location.z (items_location st)) = max_num_items self /\
    wf (ems st) (Nat.max 1 (max_num_ems self)) /\
    ems_mask st = replicate (max_num_ems self) false /\
    length (sorted_ems_indexes st) = max_num_ems self.
Proof.
  intros HS Hgen.
  destruct (generated_record self fuel key h r h' Hgen)
    as (sp & mask & st & Hsplit & _ & _ & Hst & _ & Hems & Hems_mask & Hitems & Hmask
        & Hplaced & Hloc & _ & Hsorted & _).
  assert (Hshape : shaped (max_num_items self) (sp, mask)).
  { unfold _split_container_into_items_spaces in Hsplit.
    destruct (while_loop _ _ _ _) as [[[sp' mask'] k]|] eqn:Hloop; [|discriminate].
    injection Hsplit as <- <-.
    destruct (while_loop_reachable self _ _ fuel _ _ (reach_init self _ _) Hloop)
      as [Hr _].
    exact (reachable_shaped self _ _ HS Hr). }
  destruct Hshape as [(H1 & H2 & H3 & H4 & H5 & H6) Hlen]. cbn [fst snd] in *.
  exists st. split; [exact Hst|].
  rewrite Hitems, Hmask, Hplaced, Hloc, Hems, Hems_mask, Hsorted.
  unfold item_from_space, location_from_space, tree_transpose, wf, arange, zeros_bool.
  cbn [x_len y_len z_len Location.x Location.y Location.z x1 x2 y1 y2 z1 z2].
  rewrite !length_zip_with, !length_fmap, !length_seq.
  cbn [length]. rewrite !length_replicate.
  repeat split; lia.
Qed.

Lemma solved_instance_shapes_witness :
  exists st : @State lcg_prng,
    demo_store !! 0%nat = Some st /\ length (items_mask st) = 6%nat.
Proof.
  destruct (solved_instance_shapes (P := lcg_prng) (L := lcg_laws) demo_config
              50 42 [] 0%nat demo_store)
    as (st & Hst & _ & _ & _ & Hlen & _).
  - simpl. lia.
  - reflexivity.
  - exists st. split; assumption.
Defined.

(** X9.  [__call__] of the random generator works on a record of its own:
    it adds one record to the store, leaves every record that was there as
    it was, and returns the new one, whose EMS mask has its first entry set
    and whose first EMS is the container. *)
Theorem call_allocates_reset_state {P : PRNG} (self : Config) (fuel : nat)
    (key : PRNGKey) (h : Store) (r : Ref) (h' : Store) :
  __call__ self fuel key h = Some (r, h') ->
  exists st, r = length h /\ h' = h ++ [st] /\
    container st = make_container (container_dims self) /\
    ems_mask st = <[0%nat := true]> (replicate (max_num_ems self) false) /\
    tree_slice (ems st) 0 = make_container (container_dims self).
Proof.
  rewrite call_unfold.
  destruct (generate_solution self fuel key h) as [[r1 h1]|] eqn:Hgen; [|discriminate].
  destruct (generated_record self fuel key h r1 h1 Hgen)
    as (sp & mask & sol & _ & -> & -> & Hsol & Hc & Hems & _).
  destruct (unpack_items_spec self _ _ sol Hsol)
    as (st & -> & Hmask & _ & _ & Hc' & Hems' & _).
  intros [= <- <-]. exists st. split; [reflexivity|]. split.
  - unfold Store in *. rewrite insert_app_r_alt by lia.
    rewrite Nat.sub_diag. reflexivity.
  - split; [congruence|]. split; [exact Hmask|].
    rewrite Hems', Hems. unfold tree_slice, tree_transpose, tree_map, gather.
    simpl. destruct (make_container (container_dims self)). reflexivity.
Qed.

Lemma call_allocates_reset_state_witness :
  exists st : @State lcg_prng, demo_reset_store = [] ++ [st].
Proof.
  destruct (call_allocates_reset_state (P := lcg_prng) demo_config 50 42 [] 0%nat
              demo_reset_store eq_refl) as (st & _ & Hst & _).
  exists st. exact Hst.
Defined.

(** * Further properties of the CSV reader and writer *)

(** ** Reading *)







(** ** Items of a file *)

Lemma generate_items_app rows1 rows2 :
  _generate_list_of_items (rows1 ++ rows2)
  = _generate_list_of_items rows1 ++ _generate_list_of_items rows2.
Proof. rewrite !generate_items_flat. apply flat_map_app. Qed.

Lemma generate_items_length rows :
  length (_generate_list_of_items rows) = total_items rows.
Proof.
  rewrite generate_items_flat.
  induction rows as [|[[[[name x] y] z] q] rows IH]; [reflexivity|].
  simpl. rewrite length_app, length_replicate, IH. reflexivity.
Qed.

(** X13.  [_generate_list_of_items] makes as many items as the quantities
    say: their number is the sum of the positive quantities, a row with a
    quantity of zero or less adds no item, and the items of a file are those
    of its first rows followed by those of the rest. *)
Theorem csv_items_count (rows1 rows2 : list Row) (r : Row) :
  length (_generate_list_of_items rows1) = total_items rows1 /\
  _generate_list_of_items (rows1 ++ rows2)
  = _generate_list_of_items rows1 ++ _generate_list_of_items rows2 /\
  (row_quantity r <= 0 ->
   _generate_list_of_items (rows1 ++ r :: rows2)
   = _generate_list_of_items (rows1 ++ rows2)).
Proof.
  split; [apply generate_items_length|]. split; [apply generate_items_app|].
  intros Hq. rewrite !generate_items_app. f_equal.
  change (r :: rows2) with ([r] ++ rows2). rewrite generate_items_app.
  destruct r as [[[[name x] y] z] q]. unfold row_quantity in Hq. simpl in Hq.
  unfold _generate_list_of_items at 1. simpl.
  replace (Z.to_nat q) with 0%nat by lia. reflexivity.
Qed.

Lemma csv_items_count_witness :
  _generate_list_of_items
    ([("a"%string, 1, 2, 3, 2)] ++ ("b"%string, 4, 5, 6, -1) :: [])
  = _generate_list_of_items ([("a"%string, 1, 2, 3, 2)] ++ []).
Proof.
  apply (csv_items_count [("a"%string, 1, 2, 3, 2)] [] ("b"%string, 4, 5, 6, -1)).
  simpl. lia.
Defined.

(** ** Writing *)

Lemma kept_items_filter {P : PRNG} (state : State) :
  kept_items state = filter positive_triple (live_items state).
Proof.
  unfold kept_items, live_items.
  generalize (zip (zip (zip (x_len (items state)) (y_len (items state)))
                       (z_len (items state))) (items_mask state)).
  intros l. induction l as [|[[[x y] z] m] l IH]; [reflexivity|].
  rewrite !filter_cons. cbn [snd].
  destruct (decide (m = true)) as [Hm | Hm].
  - rewrite fmap_cons, filter_cons. cbn [fst].
    destruct (decide (positive_triple (x, y, z))) as [Hp | Hp].
    + destruct (decide (m = true /\ 0 < x /\ 0 < y /\ 0 < z)) as [_ | Hn];
        [| exfalso; apply Hn; split; [exact Hm | exact Hp]].
      rewrite fmap_cons, IH. reflexivity.
    + destruct (decide (m = true /\ 0 < x /\ 0 < y /\ 0 < z)) as [[_ Hq] | _];
        [exfalso; apply Hp; exact Hq | exact IH].
  - destruct (decide (m = true /\ 0 < x /\ 0 < y /\ 0 < z)) as [[? _] | _];
      [contradiction | exact IH].
Qed.

Lemma groups_le_items groups :
  Forall (fun g => 1 <= g.2) groups ->
  (length groups <= length (expand_groups groups))%nat.
Proof.
  unfold expand_groups. induction 1 as [|g groups Hg _ IH]; [reflexivity|].
  simpl. rewrite length_app, length_replicate. lia.
Qed.

(** What is read back from a written file. *)
Lemma read_back_kept {P : PRNG} (state : State) :
  exists rows,
    _read_csv (save_instance_to_csv state) = inr rows /\
    row_group <$> rows = sort_by_count (Counter (kept_items state)) /\
    item_triple <$> _generate_list_of_items rows ≡ₚ kept_items state /\
    (length rows <= length (kept_items state))%nat.
Proof.
  pose proof (read_written state) as Hread.
  set (grouped := sort_by_count (Counter (kept_items state))) in *.
  destruct (Counter_spec (kept_items state)) as (Hexp & Hnd & Hcount).
  assert (Hperm : grouped ≡ₚ Counter (kept_items state)) by apply sort_by_count_perm.
  assert (Hgroups : row_group <$> imap written_row grouped = grouped)
    by apply (written_row_group grouped 0).
  eexists. split; [exact Hread|]. split; [exact Hgroups|]. split.
  - rewrite generate_items_groups, Hgroups, (expand_groups_perm _ _ Hperm).
    exact Hexp.
  - rewrite length_imap, <- Hexp, <- (expand_groups_perm _ _ Hperm).
    apply groups_le_items. rewrite Hperm. exact Hcount.
Qed.

Lemma parse_read {P : PRNG} (key0 : PRNGKey) csvfile max_num_ems dims rows :
  _read_csv csvfile = inr rows ->
  exists st, _parse_csv_file key0 csvfile max_num_ems dims = inr st /\
    items st = items_transpose (_generate_list_of_items rows) /\
    items_mask st = replicate (length (_generate_list_of_items rows)) true /\
    live_items st = item_triple <$> _generate_list_of_items rows.
Proof.
  intros Hread. unfold _parse_csv_file. rewrite Hread. simpl.
  eexists. split; [reflexivity|]. split; [reflexivity|]. split; [reflexivity|].
  apply live_items_read; reflexivity.
Qed.

(** X14.  Whatever the state, the file that [save_instance_to_csv] writes
    is read back without error, and the instance built from it holds, up to
    order, exactly the items that were written: the masked-true items of the
    state with three positive extents.  Items that are masked out or have an
    extent of zero or less are never written, and there are at most as many
    data rows as such items. *)
Theorem csv_write_read_any_state {P : PRNG} (key0 : PRNGKey) (state : State)
    (max_num_ems : nat) (dims : Z * Z * Z) :
  exists (rows : list Row) (st' : State),
    _read_csv (save_instance_to_csv state) = inr rows /\
    _parse_csv_file key0 (save_instance_to_csv state) max_num_ems dims = inr st' /\
    live_items st' ≡ₚ filter positive_triple (live_items state) /\
    (length rows <= length (filter positive_triple (live_items state)))%nat.
Proof.
  destruct (read_back_kept state) as (rows & Hread & _ & Hitems & Hlen).
  destruct (parse_read key0 _ max_num_ems dims rows Hread)
    as (st' & Hparse & _ & _ & Hlive).
  rewrite kept_items_filter in Hitems, Hlen.
  exists rows, st'. split; [exact Hread|]. split; [exact Hparse|].
  split; [rewrite Hlive; exact Hitems | exact Hlen].
Qed.

(** *** A written file is a fixed point *)

Lemma count_up_last k i acc :
  k ∉ acc.*1 -> count_up k (acc ++ [(k, i)]) = acc ++ [(k, i + 1)].
Proof.
  induction acc as [|[k' c] acc IH]; intros Hk; simpl.
  - rewrite bool_decide_eq_true_2 by reflexivity. reflexivity.
  - rewrite fmap_cons in Hk. apply not_elem_of_cons in Hk as [Hne Hk].
    rewrite bool_decide_eq_false_2 by (simpl in Hne; congruence).
    rewrite IH by exact Hk. reflexivity.
Qed.

Lemma count_up_new k acc :
  k ∉ acc.*1 -> count_up k acc = acc ++ [(k, 1)].
Proof.
  induction acc as [|[k' c] acc IH]; intros Hk; simpl; [reflexivity|].
  rewrite fmap_cons in Hk. apply not_elem_of_cons in Hk as [Hne Hk].
  rewrite bool_decide_eq_false_2 by (simpl in Hne; congruence).
  rewrite IH by exact Hk. reflexivity.
Qed.

Lemma count_up_more k acc : forall m i,
  k ∉ acc.*1 ->
  foldl (fun counts item => count_up item counts) (acc ++ [(k, i)]) (replicate m k)
  = acc ++ [(k, i + Z.of_nat m)].
Proof.
  induction m as [|m IH]; intros i Hk; simpl.
  - rewrite Z.add_0_r. reflexivity.
  - rewrite count_up_last by exact Hk. rewrite IH by exact Hk.
    do 3 f_equal. lia.
Qed.

Lemma counter_of_groups groups : forall acc,
  NoDup (acc.*1 ++ groups.*1) -> Forall (fun g => 1 <= g.2) groups ->
  foldl (fun counts item => count_up item counts) acc (expand_groups groups)
  = acc ++ groups.
Proof.
  unfold expand_groups.
  induction groups as [|[k c] groups IH]; intros acc Hnd Hpos; simpl.
  - rewrite app_nil_r. reflexivity.
  - apply Forall_cons in Hpos as [Hc Hpos]. simpl in Hc.
    rewrite fmap_cons in Hnd. simpl in Hnd.
    assert (Hk : k ∉ acc.*1).
    { apply NoDup_app in Hnd as (_ & Hdisj & _). intros Hin.
      apply (Hdisj k Hin). left. }
    rewrite foldl_app.
    destruct (Z.to_nat c) as [|m] eqn:Hm; [lia|]. simpl.
    rewrite count_up_new by exact Hk.
    rewrite count_up_more by exact Hk.
    replace (1 + Z.of_nat m) with c by lia.
    rewrite IH.
    + rewrite <- app_assoc. reflexivity.
    + rewrite fmap_app. simpl. rewrite <- app_assoc. exact Hnd.
    + exact Hpos.
Qed.

Lemma sort_sorted groups : Sorted count_ge groups -> sort_by_count groups = groups.
Proof.
  induction 1 as [|g groups Hs IH Hhd]; [reflexivity|].
  unfold sort_by_count in *. simpl. rewrite IH.
  destruct Hhd as [|g' rest Hge]; [reflexivity|]. simpl.
  unfold count_ge in Hge. destruct (Z.ltb_spec g.2 g'.2); [lia | reflexivity].
Qed.

Lemma expand_positive groups :
  Forall positive_triple (expand_groups groups) ->
  filter positive_triple (expand_groups groups) = expand_groups groups.
Proof.
  generalize (expand_groups groups). intros l.
  induction 1 as [|t l Ht _ IH]; [reflexivity|].
  rewrite filter_cons. destruct (decide (positive_triple t)); [|contradiction].
  rewrite IH. reflexivity.
Qed.

(** X15.  Writing is idempotent through reading: the instance read back
    from a file that [save_instance_to_csv] wrote is written as that same
    file, row for row. *)
Theorem csv_write_is_fixpoint {P : PRNG} (key0 : PRNGKey) (state : State)
    (max_num_ems : nat) (dims : Z * Z * Z) :
  exists st' : State,
    _parse_csv_file key0 (save_instance_to_csv state) max_num_ems dims = inr st' /\
    save_instance_to_csv st' = save_instance_to_csv state.
Proof.
  destruct (read_back_kept state) as (rows & Hread & Hgroups & Hitems & _).
  destruct (parse_read key0 _ max_num_ems dims rows Hread)
    as (st' & Hparse & _ & _ & Hlive).
  exists st'. split; [exact Hparse|].
  set (grouped := sort_by_count (Counter (kept_items state))) in *.
  destruct (Counter_spec (kept_items state)) as (_ & Hnd & Hcount).
  assert (Hperm : grouped ≡ₚ Counter (kept_items state)) by apply sort_by_count_perm.
  assert (Hkept : kept_items st' = expand_groups grouped).
  { rewrite kept_items_filter, Hlive, generate_items_groups, Hgroups.
    apply expand_positive.
    rewrite <- Hgroups, <- generate_items_groups, Hitems, kept_items_filter.
    apply Forall_forall. intros t Ht.
    apply list_elem_of_filter in Ht as [Ht _]. exact Ht. }
  unfold save_instance_to_csv. rewrite Hkept. fold grouped.
  unfold Counter. rewrite (counter_of_groups grouped []).
  - simpl. rewrite sort_sorted by apply sort_by_count_sorted. reflexivity.
  - simpl. rewrite Hperm. exact Hnd.
  - rewrite Hperm. exact Hcount.
Qed.

(** X16.  A generated instance survives the file: for a valid
    configuration, the solved instance that [generate_solution] returns is
    written by [save_instance_to_csv] and read back with, up to order, all
    of its masked-true items. *)
Theorem generated_instance_round_trip {P : PRNG} {L : PRNGLaws P} (self : Config)
    (fuel : nat) (key : PRNGKey) (h : Store) (r : Ref) (h' : Store) :
  stated_config self -> (1 <= max_num_items self)%nat -> exact_dims self ->
  generate_solution self fuel key h = Some (r, h') ->
  exists (st : State) (rows : list Row),
    h' !! r = Some st /\
    _read_csv (save_instance_to_csv st) = inr rows /\
    item_triple <$> _generate_list_of_items rows ≡ₚ live_items st.
Proof.
  intros Hstated Hcap Hexact Hgen.
  pose proof (stated_valid self Hstated Hcap Hexact) as Hvalid.
  destruct (generated_record self fuel key h r h' Hgen)
    as (sp & mask & st & Hsplit & _ & _ & Hst & _ & _ & _ & Hitems & Hmask & _
        & Hloc & _).
  pose proof (split_container_inv self Hvalid fuel _ sp mask Hsplit) as Hinv.
  destruct (solved_live_positive self sp mask st Hvalid Hinv Hitems Hmask Hloc)
    as [Hpos _].
  destruct (read_back_kept st) as (rows & Hread & _ & Hperm & _).
  rewrite (kept_items_live st Hpos) in Hperm.
  exists st, rows. auto.
Qed.

Lemma generated_instance_round_trip_witness :
  exists (st : @State lcg_prng) (rows : list Row),
    demo_store !! 0%nat = Some st /\
    _read_csv (save_instance_to_csv st) = inr rows.
Proof.
  destruct (generated_instance_round_trip (P := lcg_prng) (L := lcg_laws)
              demo_config 50 42 [] 0%nat demo_store demo_config_stated)
    as (st & rows & Hst & Hread & _).
  - simpl. lia.
  - exact demo_config_exact.
  - reflexivity.
  - exists st, rows. split; assumption.
Defined.

(** ** The generator of one file *)


(** ** The toy generator *)

Lemma box_inb_spec c b : box_inb c b = true -> box_in c b.
Proof.
  unfold box_inb, box_in. rewrite !andb_true_iff, !Z.leb_le. tauto.
Qed.

Lemma box_sepb_spec a b : box_sepb a b = true -> box_sep a b.
Proof.
  unfold box_sepb, box_sep. rewrite !orb_true_iff, !Z.leb_le. tauto.
Qed.

Lemma forallb_below (f : nat -> bool) n i :
  forallb f (seq 0 n) = true -> (i < n)%nat -> f i = true.
Proof.
  intros Hf Hi. rewrite List.forallb_forall in Hf. apply Hf.
  apply List.in_seq. lia.
Qed.

Lemma packedb_spec c boxes n :
  packedb c boxes n = true ->
  (forall i, (i < n)%nat -> box_in c (boxes i)) /\
  (forall i j, (i < n)%nat -> (j < n)%nat -> i <> j -> box_sep (boxes i) (boxes j)).
Proof.
  unfold packedb. rewrite andb_true_iff. intros [Hin Hsep]. split.
  - intros i Hi. apply box_inb_spec. apply (forallb_below _ n i Hin Hi).
  - intros i j Hi Hj Hij. apply box_sepb_spec.
    pose proof (forallb_below _ n i Hsep Hi) as Hrow. cbv beta in Hrow.
    pose proof (forallb_below _ n j Hrow Hj) as Hcell. cbv beta in Hcell.
    apply orb_true_iff in Hcell as [Heq | Hs]; [|exact Hs].
    apply Nat.eqb_eq in Heq. contradiction.
Qed.

Lemma live_replicate n i : live (replicate n true) i -> (i < n)%nat.
Proof.
  unfold live. intros Hi. apply lookup_lt_Some in Hi.
  rewrite length_replicate in Hi. exact Hi.
Qed.

(** X18.  The solution of [ToyInstanceGenerator] packs the container
    exactly: whatever the key and the store, [generate_solution] allocates
    one state of twenty items, all of them masked true and placed, each a
    box with three positive extents; at their locations they lie inside the
    20-ft container, no two overlap, and their volumes add up to the
    container's volume. *)
Theorem toy_solution_packs_container {P : PRNG} (key0 key : PRNGKey) (h : Store) :
  exists st : State,
    ToyInstanceGenerator.generate_solution key0 ToyInstanceGenerator.__init__ key h
    = (length h, h ++ [st]) /\
    container st = make_container (5870, 2330, 2200) /\
    items_mask st = replicate 20 true /\
    items_placed st = replicate 20 true /\
    (forall i, live (items_mask st) i -> box_nonempty (item_space st i)) /\
    tiling (container st) (item_space st) (items_mask st).
Proof.
  eexists. split; [reflexivity|].
  split; [reflexivity|]. split; [reflexivity|]. split; [reflexivity|].
  cbn [items_mask container ToyInstanceGenerator.__init__ max_num_items].
  match goal with |- context [item_space ?s] => set (st := s) end.
  set (c := make_container _).
  assert (Hpacked : packedb c (item_space st) 20 = true) by (vm_compute; reflexivity).
  destruct (packedb_spec _ _ _ Hpacked) as [Hin Hsep].
  assert (Hne : forallb (fun i => negb (box_emptyb (item_space st i))) (seq 0 20) = true)
    by (vm_compute; reflexivity).
  split.
  - intros i Hi. apply live_replicate in Hi.
    apply (box_in_nonempty c); [apply Hin; exact Hi|].
    apply negb_true_iff. apply (forallb_below _ 20 i Hne Hi).
  - constructor.
    + intros i Hi. apply Hin, live_replicate, Hi.
    + intros i j Hij Hi Hj. apply Hsep; [apply live_replicate, Hi | apply live_replicate, Hj | exact Hij].
    + vm_compute. reflexivity.
Qed.

(** X19.  A call of [ToyInstanceGenerator] is its solution unpacked: one
    state is allocated, with the container, the twenty items and the item
    mask of the solution, no item placed, every location zero, and of the
    eighty EMS only the first one live, which is the container; all the
    others are empty. *)
Theorem toy_call_unpacks_solution {P : PRNG} (key0 key : PRNGKey) (h : Store) :
  exists sol st : State,
    ToyInstanceGenerator.generate_solution key0 ToyInstanceGenerator.__init__ key h
    = (length h, h ++ [sol]) /\
    ToyInstanceGenerator.__call__ key0 ToyInstanceGenerator.__init__ key h
    = (length h, h ++ [st]) /\
    container st = container sol /\ items st = items sol /\
    items_mask st = items_mask sol /\
    live_items st = live_items sol /\ length (live_items st) = 20%nat /\
    items_placed st = replicate 20 false /\
    items_location st = Location.mk (replicate 20 0) (replicate 20 0) (replicate 20 0) /\
    ems_mask st = true :: replicate 79 false /\
    tree_slice (ems st) 0 = container st /\
    (forall j, (1 <= j < 80)%nat -> tree_slice (ems st) j = empty_ems).
Proof.
  eexists. 
  unfold ToyInstanceGenerator.__call__, ToyInstanceGenerator.generate_solution.
  destruct (ToyInstanceGenerator._generate_solved_instance key0
              ToyInstanceGenerator.__init__ h) as [r h1] eqn:Hsol.
  unfold ToyInstanceGenerator._generate_solved_instance, new_state in Hsol.
  injection Hsol as <- <-.
  match goal with |- context [h ++ [?s]] => set (sol := s) end.
  assert (Hlook : (h ++ [sol]) !! length h = Some sol)
    by (apply list_lookup_middle; reflexivity).
  destruct (unpack_items_spec ToyInstanceGenerator.__init__ _ _ _ Hlook)
    as (st & Hun & Hmask & Hplaced & Hloc & Hc & Hems & Hit & Him & _).
  exists st. split; [reflexivity|]. split.
  { rewrite Hun. f_equal. unfold Store in *.
    rewrite insert_app_r_alt by lia. rewrite Nat.sub_diag. reflexivity. }
  split; [exact Hc|]. split; [exact Hit|]. split; [exact Him|].
  assert (Hlive : live_items st = live_items sol).
  { unfold live_items. rewrite Hit, Him. reflexivity. }
  split; [exact Hlive|]. split; [rewrite Hlive; vm_compute; reflexivity|].
  split; [exact Hplaced|]. split; [exact Hloc|]. split; [exact Hmask|].
  rewrite Hems, Hc. split; [reflexivity|].
  intros j Hj. unfold sol. cbn [ems ToyInstanceGenerator.__init__ max_num_ems].
  unfold tree_slice, tree_map, tree_transpose. cbn [x1 x2 y1 y2 z1 z2].
  change (80 - 1)%nat with 79%nat.
  destruct j as [|j]; [lia|].
  assert (Hg : forall (f : Space Z -> Z) (v : Z), f empty_ems = 0 ->
             gather (f <$> make_container (container_dims ToyInstanceGenerator.__init__)
                            :: replicate 79 empty_ems) (S j) = 0).
  { intros f v Hf. unfold gather. rewrite length_fmap. cbn [length].
    rewrite length_replicate, Nat.min_l by lia.
    rewrite list_lookup_fmap. cbn [lookup list_lookup].
    change (replicate 79 empty_ems !! j) with (replicate 79 empty_ems !! j).
    rewrite lookup_replicate_2 by lia. simpl. exact Hf. }
  rewrite !(Hg _ 0) by reflexivity. reflexivity.
Qed.
